(** * MoGuardCore: usage metering, reached tracker, reconciler clean-up,
      link bundles and the admin cache

    A shallow embedding of the accounting core of the control plane:

    - [src/db/models/subscription.py]: the derived predicates of a
      subscription and the usage upsert ([bulk_upsert_usages],
      [upsert_usage], [activate_expire], [sync_cached_usages],
      [reset_usages]);
    - [src/tasks/reached_tracker.py]: [_limited_expr], [_expired_expr],
      [_process_auto_renewals_batch] and the tick
      [track_subscriptions_reacheds];
    - [src/tasks/subs_tracker.py]: [sync_sub_on_node] and
      [perform_sync_operations];
    - [src/utils/links.py]: [LinkGeneration.generate];
    - [src/utils/cache.py]: [AdminCacheManager];
    - [src/db/models/admin.py] and [src/tasks/resellers_tracker.py]: the
      usage and count limits of an admin, [bulk_debted], [bulk_dedebted]
      and [track_resellers];
    - [src/tasks/usage_record.py]: [upsert_subscription_usage];
    - [src/utils/format.py]: [FormatUtils.time_convert].

    Conventions.  Python [int] is [Z]; Python [float] is an IEEE-754
    binary64 value ([spec_float] at precision 53); a [datetime] is a count
    of microseconds; a Unix timestamp is a count of seconds.  A nullable
    column that the code guards ([coalesce], [x or 0], [if not x]) is an
    [option]; a column the code reads unguarded is a plain value.  A Python
    exception is [None] in the result of the function that raises it.
    Every reading of the clock is an explicit argument. *)

From Stdlib Require Import ZArith Lia List Bool QArith.
From Stdlib Require Import Floats.SpecFloat Sorting.Sorted.
From stdpp Require Import gmap strings list pretty.

Local Open Scope Z_scope.

(** ** Python floats *)

Module PyFloat.

Definition float := spec_float.

Definition prec : Z := 53.
Definition emax : Z := 1024.

(** [float(z)]: the int converted with round-to-nearest-even. *)
Definition float_of_int (z : Z) : float := binary_normalize prec emax z 0 false.

(** The literal [m * 2^e]. *)
Definition float_lit (m e : Z) : float := binary_normalize prec emax m e false.

Definition fmul (x y : float) : float := SFmul prec emax x y.

(** [bool(x)]: every float but the two zeros is true. *)
Definition float_truthy (x : float) : bool :=
  match x with
  | S754_zero _ => false
  | _ => true
  end.

(** [int(x)]: truncation toward zero; raises on infinities and NaN. *)
Definition py_int (x : float) : option Z :=
  match x with
  | S754_zero _ => Some 0
  | S754_finite s m e =>
      let a := if 0 <=? e then Z.pos m * 2 ^ e else Z.pos m / 2 ^ (- e) in
      Some (if s then - a else a)
  | S754_infinity _ | S754_nan => None
  end.

(** The spec's [round(x)], after Python's builtin: the nearest integer,
    a tie going to the even one.  The code never calls it; the claims
    about rounding are compared with [py_int] through it. *)
Definition spec_round (x : float) : option Z :=
  match x with
  | S754_zero _ => Some 0
  | S754_finite s m e =>
      let a :=
        if 0 <=? e then Z.pos m * 2 ^ e
        else
          let d := 2 ^ (- e) in
          let q := Z.pos m / d in
          match 2 * (Z.pos m mod d) ?= d with
          | Lt => q
          | Gt => q + 1
          | Eq => if Z.even q then q else q + 1
          end in
      Some (if s then - a else a)
  | S754_infinity _ | S754_nan => None
  end.

Definition round_mul (v : Z) (rate : float) : option Z :=
  spec_round (SFmul prec emax (binary_normalize prec emax v 0 false) rate).

(** [x or 1.0] on an optional float. *)
Definition one : float := float_lit 1 0.

Definition or_one (x : option float) : float :=
  match x with
  | Some r => if float_truthy r then r else one
  | None => one
  end.

(** [int(v * rate)] for an int [v]: the int is converted, the product is
    rounded to binary64 and truncated. *)
Definition int_mul (v : Z) (rate : float) : option Z :=
  py_int (fmul (float_of_int v) rate).

(** [x] carries the sign bit [sx], or is a NaN. *)
Definition has_sign (sx : bool) (x : float) : Prop :=
  match x with
  | S754_zero s | S754_infinity s | S754_finite s _ _ => s = sx
  | S754_nan => True
  end.

Definition nonneg (x : float) : Prop :=
  match x with
  | S754_zero _ => True
  | S754_finite s _ _ | S754_infinity s => s = false
  | S754_nan => False
  end.

End PyFloat.

(** ** Data model *)

(** A [datetime] counts microseconds; [timedelta(days=1)] is [one_day]. *)
Definition datetime := Z.
Definition one_day : Z := 86400 * 1000000.

(** Python slices [l[k:]] and [l[:k]]: a negative index counts from the
    end and is clamped at the start of the list. *)
Definition slice_from {A} (k : Z) (l : list A) : list A :=
  if 0 <=? k then drop (Z.to_nat k) l
  else drop (Z.to_nat (Z.max 0 (Z.of_nat (length l) + k))) l.

Definition slice_to {A} (k : Z) (l : list A) : list A :=
  if 0 <=? k then take (Z.to_nat k) l
  else take (Z.to_nat (Z.max 0 (Z.of_nat (length l) + k))) l.

Module Admin.
Record t := mk {
  id : Z;
  username : option string;
  api_key : option string;
  max_links : option Z
}.
End Admin.

Inductive NodeCategory := marzban | marzneshin | rustneshin.

Module Node.
Record t := mk {
  id : Z;
  enabled : bool;
  removed : bool;
  category : NodeCategory;
  usage_rate : option PyFloat.float;
  offset_link : Z;
  batch_size : Z;
  priority : Z;
  show_configs : bool
}.

Definition availabled (self : t) : bool := enabled self && negb (removed self).
End Node.

(** A row of [subscription_usages]; [id] is [None] for a row added to the
    session and not flushed yet. *)
Module SubscriptionUsage.
Record t := mk {
  id : option Z;
  subscription_id : Z;
  node_id : Z;
  usage : Z;
  _usage : Z;
  created_at : datetime;
  updated_at : datetime
}.
End SubscriptionUsage.

Module SubscriptionAutoRenewal.
Record t := mk {
  id : Z;
  subscription_id : Z;
  limit_expire : Z;
  limit_usage : option Z;
  reset_usage : bool
}.
End SubscriptionAutoRenewal.

(** A row of [subscriptions] with its loaded relations: [owner] and the
    value of the [nodes] property (the nodes of the selected services the
    owner is granted, removed nodes left out, in the order the Python set
    yields them). *)
Module Subscription.
Record t := mk {
  id : Z;
  server_key : string;
  owner : Admin.t;
  enabled : bool;
  activated : bool;
  reached : bool;
  debted : bool;
  onreached_expire : bool;
  onreached_usage : bool;
  removed : bool;
  limit_usage : option Z;
  reset_usage : option Z;
  limit_expire : Z;
  last_reset_at : option datetime;
  inactive_at : option datetime;
  reached_at : option datetime;
  total_usage : Z;
  online_at : option datetime;
  nodes : list Node.t
}.

Definition set_limit_usage (v : option Z) (s : t) : t :=
  mk (id s) (server_key s) (owner s) (enabled s) (activated s)
    (reached s) (debted s) (onreached_expire s) (onreached_usage s)
    (removed s) v (reset_usage s) (limit_expire s) (last_reset_at s)
    (inactive_at s) (reached_at s) (total_usage s) (online_at s) (nodes s).

Definition set_reset_usage (v : option Z) (s : t) : t :=
  mk (id s) (server_key s) (owner s) (enabled s) (activated s)
    (reached s) (debted s) (onreached_expire s) (onreached_usage s)
    (removed s) (limit_usage s) v (limit_expire s) (last_reset_at s)
    (inactive_at s) (reached_at s) (total_usage s) (online_at s) (nodes s).

Definition set_limit_expire (v : Z) (s : t) : t :=
  mk (id s) (server_key s) (owner s) (enabled s) (activated s)
    (reached s) (debted s) (onreached_expire s) (onreached_usage s)
    (removed s) (limit_usage s) (reset_usage s) v (last_reset_at s)
    (inactive_at s) (reached_at s) (total_usage s) (online_at s) (nodes s).

Definition set_reached (v : bool) (s : t) : t :=
  mk (id s) (server_key s) (owner s) (enabled s) (activated s) v
    (debted s) (onreached_expire s) (onreached_usage s) (removed s)
    (limit_usage s) (reset_usage s) (limit_expire s) (last_reset_at s)
    (inactive_at s) (reached_at s) (total_usage s) (online_at s) (nodes s).

Definition set_reached_at (v : option datetime) (s : t) : t :=
  mk (id s) (server_key s) (owner s) (enabled s) (activated s)
    (reached s) (debted s) (onreached_expire s) (onreached_usage s)
    (removed s) (limit_usage s) (reset_usage s) (limit_expire s)
    (last_reset_at s) (inactive_at s) v (total_usage s) (online_at s)
    (nodes s).

Definition set_onreached_expire (v : bool) (s : t) : t :=
  mk (id s) (server_key s) (owner s) (enabled s) (activated s)
    (reached s) (debted s) v (onreached_usage s) (removed s)
    (limit_usage s) (reset_usage s) (limit_expire s) (last_reset_at s)
    (inactive_at s) (reached_at s) (total_usage s) (online_at s) (nodes s).

Definition set_onreached_usage (v : bool) (s : t) : t :=
  mk (id s) (server_key s) (owner s) (enabled s) (activated s)
    (reached s) (debted s) (onreached_expire s) v (removed s)
    (limit_usage s) (reset_usage s) (limit_expire s) (last_reset_at s)
    (inactive_at s) (reached_at s) (total_usage s) (online_at s) (nodes s).

Definition set_last_reset_at (v : option datetime) (s : t) : t :=
  mk (id s) (server_key s) (owner s) (enabled s) (activated s)
    (reached s) (debted s) (onreached_expire s) (onreached_usage s)
    (removed s) (limit_usage s) (reset_usage s) (limit_expire s) v
    (inactive_at s) (reached_at s) (total_usage s) (online_at s) (nodes s).

Definition set_total_usage (v : Z) (s : t) : t :=
  mk (id s) (server_key s) (owner s) (enabled s) (activated s)
    (reached s) (debted s) (onreached_expire s) (onreached_usage s)
    (removed s) (limit_usage s) (reset_usage s) (limit_expire s)
    (last_reset_at s) (inactive_at s) (reached_at s) v (online_at s)
    (nodes s).

Definition set_online_at (v : option datetime) (s : t) : t :=
  mk (id s) (server_key s) (owner s) (enabled s) (activated s)
    (reached s) (debted s) (onreached_expire s) (onreached_usage s)
    (removed s) (limit_usage s) (reset_usage s) (limit_expire s)
    (last_reset_at s) (inactive_at s) (reached_at s) (total_usage s) v
    (nodes s).

(** [current_usage], instance and SQL sides ([x or 0] and [coalesce]). *)
Definition current_usage (self : t) : Z :=
  total_usage self - default 0 (reset_usage self).

(** [limited]: [not self.limit_usage] holds for [None] and for [0]. *)
Definition limited (self : t) : bool :=
  match limit_usage self with
  | None => false
  | Some l =>
      if (l =? 0) || (l <=? 0) then false
      else l - current_usage self <? 0
  end.

Definition limited_expression (self : t) : bool :=
  (0 <? default 0 (limit_usage self))
  && (default 0 (limit_usage self)
      - (total_usage self - default 0 (reset_usage self)) <? 0).

(** [expired] at the Unix time [now_ts]. *)
Definition expired (self : t) (now_ts : Z) : bool :=
  if 0 <? limit_expire self then limit_expire self <? now_ts else false.

Definition expired_expression (self : t) (now_ts : Z) : bool :=
  (0 <? limit_expire self) && (limit_expire self <? now_ts).

Definition pending (self : t) : bool := limit_expire self <? 0.

Definition is_active (self : t) (now_ts : Z) : bool :=
  enabled self && activated self && negb (expired self now_ts)
  && negb (limited self) && negb (debted self).

(** [should_be_remove] at the time [now]. *)
Definition should_be_remove (self : t) (now : datetime) : bool :=
  match reached_at self with
  | Some t0 => one_day <? now - t0
  | None => false
  end
  || match inactive_at self with
     | Some t0 => one_day <? now - t0
     | None => false
     end.

Definition node_ids (self : t) : list Z := map Node.id (nodes self).
End Subscription.

(** ** The store: usage upsert, expiry activation, cached totals *)

(** What a call leaves behind besides the rows: log lines and the
    notification task of [activate_expire]. *)
Inductive Event :=
  | UsageCounterDecreased (sub_id node_id : Z) (created_at : datetime) (old new : Z)
  | ActivatedExpire (sub_id : Z).

Definition is_ActivatedExpire (e : Event) : bool :=
  match e with
  | ActivatedExpire _ => true
  | _ => false
  end.

(** The first row that satisfies [p] replaced by [r']: an object found by
    a loop with [break] (or by [.first()]) and then mutated in place. *)
Fixpoint replace_first {A} (p : A -> bool) (r' : A) (l : list A) : list A :=
  match l with
  | [] => []
  | r :: rest => if p r then r' :: rest else r :: replace_first p r' rest
  end.

Module Store.
Import SubscriptionUsage.

Definition set_counters (usage' _usage' : Z) (now : datetime) (record : t) : t :=
  mk (id record) (subscription_id record) (node_id record) usage' _usage'
     (created_at record) now.

(** [record.node_id == node.id and record.created_at == created_at] *)
Definition same_bucket (node : Node.t) (created : datetime) (record : t) : bool :=
  (node_id record =? Node.id node) && (created_at record =? created).

(** [if record.usage < 0: record.usage = 0] *)
Definition clamp (u : Z) : Z := if u <? 0 then 0 else u.

(** [activate_expire]: the subscription after the call and its events;
    [now_ts] is the reading of [datetime.utcnow().timestamp()], in whole
    seconds as the column stores it. *)
Definition activate_expire (sub : Subscription.t) (now_ts : Z)
  : Subscription.t * list Event :=
  if negb (Subscription.limit_expire sub =? 0) && (Subscription.limit_expire sub <? 0)
  then (Subscription.set_limit_expire (now_ts + Z.abs (Subscription.limit_expire sub)) sub,
        [ActivatedExpire (Subscription.id sub)])
  else (sub, []).

(** The state of the loop of [bulk_upsert_usages]: the rows of
    [sub_usages] (mutated in place), the rows given to [db.add], the
    flag [changed] and the log. *)
Record Loop := mkLoop {
  rows : list t;
  added : list t;
  changed : bool;
  events : list Event
}.

(** One turn of [for node, (usage_value, created_at) in usages.items()]. *)
Definition upsert_entry (sub : Subscription.t) (now : datetime)
    (st : Loop) (entry : Node.t * (Z * datetime)) : option Loop :=
  let '(node, (usage_value, created)) := entry in
  if usage_value <=? 0 then Some st
  else
    let rate := PyFloat.or_one (Node.usage_rate node) in
    match find (same_bucket node created) (rows st) with
    | Some record =>
        if negb (_usage record =? usage_value) then
          let delta := usage_value - _usage record in
          if delta <? 0 then
            Some (mkLoop (rows st) (added st) (changed st)
                    (events st ++ [UsageCounterDecreased (Subscription.id sub)
                                     (Node.id node) created (_usage record) usage_value]))
          else
            match PyFloat.int_mul delta rate with
            | None => None
            | Some k =>
                let record' := set_counters (clamp (usage record + k)) usage_value now record in
                Some (mkLoop (replace_first (same_bucket node created) record' (rows st))
                        (added st) true (events st))
            end
        else Some st
    | None =>
        match PyFloat.int_mul usage_value rate with
        | None => None
        | Some u =>
            let new_record := mk None (Subscription.id sub) (Node.id node) u usage_value created now in
            Some (mkLoop (rows st) (added st ++ [new_record]) true (events st))
        end
    end.

Fixpoint upsert_entries (sub : Subscription.t) (now : datetime)
    (usages : list (Node.t * (Z * datetime))) (st : Loop) : option Loop :=
  match usages with
  | [] => Some st
  | entry :: rest =>
      match upsert_entry sub now st entry with
      | None => None
      | Some st' => upsert_entries sub now rest st'
      end
  end.

Record Upserted := mkUpserted {
  r_sub : Subscription.t;
  r_rows : list t;
  r_added : list t;
  r_events : list Event
}.

(** [bulk_upsert_usages(db, sub, usages, sub_usages)]; [usages] lists
    the items of the dict in order, [now] is [utcnow()] and [now_ts] its
    timestamp. *)
Definition bulk_upsert_usages (sub : Subscription.t)
    (usages : list (Node.t * (Z * datetime))) (sub_usages : list t)
    (now : datetime) (now_ts : Z) : option Upserted :=
  match upsert_entries sub now usages (mkLoop sub_usages [] false []) with
  | None => None
  | Some st =>
      if changed st then
        let '(sub', ev) := activate_expire sub now_ts in
        Some (mkUpserted sub' (rows st) (added st) (events st ++ ev))
      else Some (mkUpserted sub (rows st) (added st) (events st))
  end.

(** The [WHERE] clause of the [select] in [upsert_usage]. *)
Definition existing_row (sub : Subscription.t) (node : Node.t) (created : datetime)
    (record : t) : bool :=
  (subscription_id record =? Subscription.id sub)
  && (node_id record =? Node.id node) && (created_at record =? created).

(** [upsert_usage(db, sub, node, usage, created_at)] over the table
    [table]; a new row is appended to the table. *)
Definition upsert_usage (table : list t) (sub : Subscription.t) (node : Node.t)
    (usage_value : Z) (created : datetime) (now : datetime) (now_ts : Z)
  : option Upserted :=
  if usage_value <=? 0 then Some (mkUpserted sub table [] [])
  else
    let rate := PyFloat.or_one (Node.usage_rate node) in
    match find (existing_row sub node created) table with
    | Some existing =>
        if _usage existing =? usage_value then Some (mkUpserted sub table [] [])
        else
          let delta := usage_value - _usage existing in
          if delta <? 0 then
            let existing' := set_counters (usage existing) usage_value now existing in
            let '(sub', ev) := activate_expire sub now_ts in
            Some (mkUpserted sub'
                    (replace_first (existing_row sub node created) existing' table) []
                    (UsageCounterDecreased (Subscription.id sub) (Node.id node) created
                       (_usage existing) usage_value :: ev))
          else
            match PyFloat.int_mul delta rate with
            | None => None
            | Some k =>
                let existing' := set_counters (clamp (usage existing + k)) usage_value now existing in
                let '(sub', ev) := activate_expire sub now_ts in
                Some (mkUpserted sub'
                        (replace_first (existing_row sub node created) existing' table) [] ev)
            end
    | None =>
        match PyFloat.int_mul usage_value rate with
        | None => None
        | Some u =>
            let new_record := mk None (Subscription.id sub) (Node.id node) u usage_value created now in
            let '(sub', ev) := activate_expire sub now_ts in
            Some (mkUpserted sub' table [new_record] ev)
        end
    end.

(** The table once the session is flushed. *)
Definition flushed (r : Upserted) : list t := r_rows r ++ r_added r.

(** [sync_cached_usages]: one [UPDATE] over every subscription. *)
Definition sum_usage (table : list t) (sub_id : Z) : Z :=
  foldr (fun record acc =>
           if subscription_id record =? sub_id then Z.max (usage record) 0 + acc else acc)
        0 table.

Definition max_updated_at (table : list t) (sub_id : Z) : option datetime :=
  foldr (fun record acc =>
           if subscription_id record =? sub_id then
             match acc with
             | Some m => Some (Z.max (updated_at record) m)
             | None => Some (updated_at record)
             end
           else acc)
        None table.

Definition sync_cached_usages (table : list t) (subs : list Subscription.t)
  : list Subscription.t :=
  map (fun sub =>
         Subscription.set_online_at (max_updated_at table (Subscription.id sub))
           (Subscription.set_total_usage (sum_usage table (Subscription.id sub)) sub))
      subs.

(** [reset_usages] *)
Definition reset_usages (sub : Subscription.t) (now : datetime) : Subscription.t :=
  Subscription.set_last_reset_at (Some now)
    (Subscription.set_reset_usage (Some (Subscription.total_usage sub)) sub).

(** The pending rows that belong to [node]. *)
Definition of_node (node : Node.t) (record : t) : bool :=
  node_id record =? Node.id node.

(** The sum of [w] over a table. *)
Definition weight (w : t -> Z) (table : list t) : Z :=
foldr (fun record acc => w record + acc) 0 table.


(** What a row adds to the cached total of subscription [sub_id]. *)
Definition credited (sub_id : Z) (record : t) : Z :=
if subscription_id record =? sub_id then Z.max (usage record) 0 else 0.

(** The sum of [w] over the rows the loop holds and those it added. *)
Definition loop_weight (w : t -> Z) (st : Loop) : Z :=
  weight w (rows st) + weight w (added st).

(** A log without an [ActivatedExpire] notification. *)
Definition quiet (evs : list Event) : Prop :=
  List.filter is_ActivatedExpire evs = [].
End Store.

(** ** The reached tracker: auto-renewal batch *)

Module ReachedTracker.

Definition _limited_expr (s : Subscription.t) : bool :=
  (0 <? default 0 (Subscription.limit_usage s))
  && (default 0 (Subscription.limit_usage s)
      - (Subscription.total_usage s - default 0 (Subscription.reset_usage s)) <? 0).

Definition _expired_expr (now_ts : Z) (s : Subscription.t) : bool :=
  (0 <? Subscription.limit_expire s) && (Subscription.limit_expire s <? now_ts).

Record DB := mkDB {
  subscriptions : list Subscription.t;
  subscription_auto_renewals : list SubscriptionAutoRenewal.t
}.

(** [row_number() over (partition by subscription_id order by id asc)]:
    one more than the number of rows of the partition with a smaller id. *)
Definition rn (renewals : list SubscriptionAutoRenewal.t) (r : SubscriptionAutoRenewal.t) : Z :=
  1 + Z.of_nat (length (filter
        (fun r' => (SubscriptionAutoRenewal.subscription_id r'
                      =? SubscriptionAutoRenewal.subscription_id r)
                   && (SubscriptionAutoRenewal.id r' <? SubscriptionAutoRenewal.id r) = true)
        renewals)).

(** A row of [candidates_query]. *)
Record Row := mkRow {
  subscription_id : Z;
  total_usage : Z;
  renewal_id : Z;
  renewal_limit_usage : option Z;
  renewal_limit_expire : Z;
  renewal_reset_usage : bool
}.

(** The [WHERE] clause on the subscription side. *)
Definition reached_and_over (now_ts : Z) (s : Subscription.t) : bool :=
  negb (Subscription.removed s) && Subscription.reached s
  && (_limited_expr s || _expired_expr now_ts s).

Definition candidates_query (db : DB) (now_ts : Z) : list Row :=
  flat_map (fun s =>
    flat_map (fun r =>
      if (SubscriptionAutoRenewal.subscription_id r =? Subscription.id s)
         && reached_and_over now_ts s
         && (rn (subscription_auto_renewals db) r =? 1)
      then [mkRow (Subscription.id s) (Subscription.total_usage s)
              (SubscriptionAutoRenewal.id r) (SubscriptionAutoRenewal.limit_usage r)
              (SubscriptionAutoRenewal.limit_expire r) (SubscriptionAutoRenewal.reset_usage r)]
      else [])
      (subscription_auto_renewals db))
    (subscriptions db).

(** An element of [updates]; the two optional keys are [None] when the
    dict does not hold them. *)
Record Payload := mkPayload {
  p_id : Z;
  p_limit_usage : option Z;
  p_limit_expire : Z;
  p_reached : bool;
  p_reached_at : option datetime;
  p_onreached_expire : bool;
  p_onreached_usage : bool;
  p_reset_usage : option Z;
  p_last_reset_at : option datetime
}.

Definition payload_of (now_utc : datetime) (now_ts : Z) (row : Row) : Payload :=
  let new_limit_expire :=
    if renewal_limit_expire row <? 0 then renewal_limit_expire row
    else if 0 <? renewal_limit_expire row then now_ts + renewal_limit_expire row
    else 0 in
  mkPayload (subscription_id row) (renewal_limit_usage row) new_limit_expire
    false None false false
    (if renewal_reset_usage row then Some (total_usage row) else None)
    (if renewal_reset_usage row then Some now_utc else None).

(** One [UPDATE subscriptions SET ... WHERE id = :id]. *)
Definition set_payload (p : Payload) (s : Subscription.t) : Subscription.t :=
  let s1 :=
    Subscription.set_onreached_usage (p_onreached_usage p)
      (Subscription.set_onreached_expire (p_onreached_expire p)
         (Subscription.set_reached_at (p_reached_at p)
            (Subscription.set_reached (p_reached p)
               (Subscription.set_limit_expire (p_limit_expire p)
                  (Subscription.set_limit_usage (p_limit_usage p) s))))) in
  let s2 :=
    match p_reset_usage p with
    | Some u => Subscription.set_reset_usage (Some u) s1
    | None => s1
    end in
  match p_last_reset_at p with
  | Some t => Subscription.set_last_reset_at (Some t) s2
  | None => s2
  end.

Definition update_by_id (p : Payload) (subs : list Subscription.t) : list Subscription.t :=
  map (fun s => if Subscription.id s =? p_id p then set_payload p s else s) subs.

(** [_process_auto_renewals_batch]: the database after the call and the
    returned count. *)
Definition _process_auto_renewals_batch (db : DB) (now_utc : datetime) (now_ts : Z)
  : DB * Z :=
  let rows := candidates_query db now_ts in
  match rows with
  | [] => (db, 0)
  | _ =>
      let updates := map (payload_of now_utc now_ts) rows in
      let renewal_ids := map renewal_id rows in
      (mkDB (foldl (fun subs p => update_by_id p subs) (subscriptions db) updates)
            (filter (fun r => SubscriptionAutoRenewal.id r ∉ renewal_ids)
                    (subscription_auto_renewals db)),
       Z.of_nat (length updates))
  end.


(** A payload that leaves [reset_usage] alone or sets it to [total]. *)
Definition resets_to (total : Z) (p : Payload) : Prop :=
  p_reset_usage p = None \/ p_reset_usage p = Some total.

(** The WHERE clause on the renewal side, for subscription [s]. *)
Definition ranked_first (db : DB) (s : Subscription.t) (r : SubscriptionAutoRenewal.t) : bool :=
  (SubscriptionAutoRenewal.subscription_id r =? Subscription.id s)
  && (rn (subscription_auto_renewals db) r =? 1).

(** The renewal the query joins to [s], if any. *)
Definition joined (db : DB) (now_ts : Z) (s : Subscription.t)
  : option SubscriptionAutoRenewal.t :=
  if reached_and_over now_ts s then find (ranked_first db s) (subscription_auto_renewals db)
  else None.

(** [r] is the renewal of [s] with the least id. *)
Definition first_in_queue (db : DB) (s : Subscription.t) (r : SubscriptionAutoRenewal.t) : Prop :=
  r ∈ subscription_auto_renewals db
  /\ SubscriptionAutoRenewal.subscription_id r = Subscription.id s
  /\ forall r', r' ∈ subscription_auto_renewals db ->
       SubscriptionAutoRenewal.subscription_id r' = Subscription.id s ->
       SubscriptionAutoRenewal.id r <= SubscriptionAutoRenewal.id r'.

(** The subscription a renewal leaves, field by field as the
    specification words it. *)
Definition renewed (now_utc : datetime) (now_ts : Z) (r : SubscriptionAutoRenewal.t)
    (s : Subscription.t) : Subscription.t :=
  Subscription.mk (Subscription.id s) (Subscription.server_key s) (Subscription.owner s)
    (Subscription.enabled s) (Subscription.activated s)
    false
    (Subscription.debted s)
    false false
    (Subscription.removed s)
    (SubscriptionAutoRenewal.limit_usage r)
    (if SubscriptionAutoRenewal.reset_usage r then Some (Subscription.total_usage s)
     else Subscription.reset_usage s)
    (if SubscriptionAutoRenewal.limit_expire r <? 0 then SubscriptionAutoRenewal.limit_expire r
     else if 0 <? SubscriptionAutoRenewal.limit_expire r
          then now_ts + SubscriptionAutoRenewal.limit_expire r
          else 0)
    (if SubscriptionAutoRenewal.reset_usage r then Some now_utc
     else Subscription.last_reset_at s)
    (Subscription.inactive_at s)
    None
    (Subscription.total_usage s) (Subscription.online_at s) (Subscription.nodes s).

(** The row the query yields for [s] joined to [r], and its payload. *)
Definition row_of (s : Subscription.t) (r : SubscriptionAutoRenewal.t) : Row :=
  mkRow (Subscription.id s) (Subscription.total_usage s)
    (SubscriptionAutoRenewal.id r) (SubscriptionAutoRenewal.limit_usage r)
    (SubscriptionAutoRenewal.limit_expire r) (SubscriptionAutoRenewal.reset_usage r).

Definition joined_payload (db : DB) (now_utc : datetime) (now_ts : Z) (s : Subscription.t)
  : option Payload :=
  match joined db now_ts s with
  | Some r => Some (payload_of now_utc now_ts (row_of s r))
  | None => None
  end.
End ReachedTracker.

(** ** One subscription's account: the core operations in sequence *)

Module Account.

Record t := mk {
  sub : Subscription.t;
  table : list SubscriptionUsage.t;
  renewals : list SubscriptionAutoRenewal.t;
  log : list Event
}.

Inductive Op :=
  | BulkUpsert (usages : list (Node.t * (Z * datetime))) (now : datetime) (now_ts : Z)
  | UpsertUsage (node : Node.t) (usage_value : Z) (created : datetime)
      (now : datetime) (now_ts : Z)
  | SyncCachedUsages
  | ResetUsages (now : datetime)
  | AutoRenewals (now_utc : datetime) (now_ts : Z).

Definition mine (s : Subscription.t) (r : SubscriptionUsage.t) : bool :=
  SubscriptionUsage.subscription_id r =? Subscription.id s.

(** [BulkUpsert] is the call of the subscription tracker: the rows handed
    over are [usages_map.get(sub.id, [])], and the session is flushed. *)
Definition apply (a : t) (op : Op) : option t :=
  match op with
  | BulkUpsert usages now now_ts =>
      match Store.bulk_upsert_usages (sub a) usages
              (List.filter (mine (sub a)) (table a)) now now_ts with
      | Some r =>
          Some (mk (Store.r_sub r)
                  (List.filter (fun x => negb (mine (sub a) x)) (table a) ++ Store.flushed r)
                  (renewals a) (log a ++ Store.r_events r))
      | None => None
      end
  | UpsertUsage node usage_value created now now_ts =>
      match Store.upsert_usage (table a) (sub a) node usage_value created now now_ts with
      | Some r =>
          Some (mk (Store.r_sub r) (Store.flushed r) (renewals a) (log a ++ Store.r_events r))
      | None => None
      end
  | SyncCachedUsages =>
      Some (mk (List.hd (sub a) (Store.sync_cached_usages (table a) [sub a]))
              (table a) (renewals a) (log a))
  | ResetUsages now =>
      Some (mk (Store.reset_usages (sub a) now) (table a) (renewals a) (log a))
  | AutoRenewals now_utc now_ts =>
      let db := fst (ReachedTracker._process_auto_renewals_batch
                       (ReachedTracker.mkDB [sub a] (renewals a)) now_utc now_ts) in
      Some (mk (List.hd (sub a) (ReachedTracker.subscriptions db)) (table a)
              (ReachedTracker.subscription_auto_renewals db) (log a))
  end.

Fixpoint run (a : t) (ops : list Op) : option t :=
  match ops with
  | [] => Some a
  | op :: rest =>
      match apply a op with
      | Some a' => run a' rest
      | None => None
      end
  end.


(** The nodes an operation reads a usage rate from, and the clock
    readings it takes as Unix times. *)
Definition op_nodes (op : Op) : list Node.t :=
  match op with
  | BulkUpsert usages _ _ => map fst usages
  | UpsertUsage node _ _ _ _ => [node]
  | _ => []
  end.




(** The cached counters are in step with the usage rows: what was reset
    is at most the cached total, and the cached total is at most what the
    rows add up to. *)
Definition balanced (a : t) : Prop :=
default 0 (Subscription.reset_usage (sub a)) <= Subscription.total_usage (sub a)
/\ Subscription.total_usage (sub a)
   <= Store.sum_usage (table a) (Subscription.id (sub a)).

(** The usage rates an operation reads are not negative. *)
Definition rates_nonneg (op : Op) : Prop :=
Forall (fun node => PyFloat.nonneg (PyFloat.or_one (Node.usage_rate node))) (op_nodes op).
End Account.

(** ** The reconciler: per-node sync decisions and clean-up *)

Module SubsTracker.

(** What the reconciler reads of a node's user, whatever the dialect. *)
Record UserResponse := mkUser {
  username : string;
  is_active : bool;
  lifetime_used_traffic : Z;
  created_at : datetime
}.

Section Sync.
(** The inbound or service catalogue of a node is opaque here. *)
Context {Configs : Type}.

(** Calls made on [GuardNodeManager]. *)
Inductive Call :=
  | create_subscription (node : Node.t) (sub : Subscription.t) (configs : Configs)
  | deactivate_subscription (node : Node.t) (sub : Subscription.t)
  | activate_subscription (node : Node.t) (sub : Subscription.t)
  | sync_config (node : Node.t) (sub : Subscription.t) (user : UserResponse)
      (configs : Configs)
  | remove_subscription (username : string) (nodes : list Node.t).

Definition sync_sub_on_node (node : Node.t) (configs : Configs)
    (sub : Subscription.t) (user : option UserResponse) (now_ts : Z) : list Call :=
  let sub_is_active := Subscription.is_active sub now_ts in
  let sub_node_ids := Subscription.node_ids sub in
  match user with
  | None =>
      if sub_is_active && bool_decide (Node.id node ∈ sub_node_ids)
      then [create_subscription node sub configs] else []
  | Some user =>
      if negb (Node.availabled node) then
        if is_active user then [deactivate_subscription node sub] else []
      else if negb (bool_decide (Node.id node ∈ sub_node_ids)) then
        if is_active user then [deactivate_subscription node sub] else []
      else
        sync_config node sub user configs ::
        (if negb sub_is_active && is_active user then [deactivate_subscription node sub]
         else if sub_is_active && negb (is_active user) then [activate_subscription node sub]
         else [])
  end.

(** [nodes_data]: per node, the catalogue ([None] when the fetch
    failed) and the users the node reported, by username. *)
Definition NodesData := list (Node.t * (option Configs * gmap string UserResponse)).

Definition local_usernames (subs : list Subscription.t) (now : datetime) : gset string :=
  list_to_set (map Subscription.server_key
                 (List.filter (fun sub => negb (Subscription.should_be_remove sub now)) subs)).

Definition perform_sync_operations (subs : list Subscription.t)
    (nodes_data : NodesData) (now : datetime) (now_ts : Z) : list Call :=
  let sync_tasks :=
    flat_map (fun sub =>
      if negb (Subscription.should_be_remove sub now) then
        flat_map (fun '(node, (configs, users)) =>
          match configs with
          | Some configs =>
              sync_sub_on_node node configs sub (users !! Subscription.server_key sub) now_ts
          | None => []
          end) nodes_data
      else []) subs in
  let removals :=
    flat_map (fun '(node, (configs, users)) =>
      match configs with
      | None => []
      | Some _ =>
          flat_map (fun username =>
            if bool_decide (username ∉ local_usernames subs now)
               && negb (String.eqb username "guard")
            then [remove_subscription username [node]] else [])
            (map fst (map_to_list users))
      end) nodes_data in
  sync_tasks ++ removals.

(** [_generate_client]: every category has a client. *)
Definition _generate_client (node : Node.t) : option NodeCategory :=
  match Node.category node with
  | marzban => Some marzban
  | marzneshin => Some marzneshin
  | rustneshin => Some rustneshin
  end.

(** The [delete_user] requests a call sends: node id and username. *)
Definition delete_user_requests (c : Call) : list (Z * string) :=
  match c with
  | remove_subscription username nodes =>
      flat_map (fun node =>
        match _generate_client node with
        | Some _ => [(Node.id node, username)]
        | None => []
        end) nodes
  | _ => []
  end.

Definition deletes_issued (calls : list Call) : list (Z * string) :=
  flat_map delete_user_requests calls.

Definition times_deleted (node : Node.t) (username : string) (calls : list Call) : nat :=
  length (List.filter (fun d => bool_decide (d = (Node.id node, username)))
            (deletes_issued calls)).
End Sync.

Arguments Call : clear implicits.
Arguments NodesData : clear implicits.

End SubsTracker.

(** ** The link generator *)

Module LinkGeneration.

Section Generate.
(** The links cache, the rewrite of one cached link (it relies on the
    credential derivation of [src.utils.key]), the placeholder links
    of a subscription, and the permutation [random.shuffle] applies
    to the list of the [i]-th node. *)
Context (LINKS : gmap Z (list string))
        (_replace_link_credentials : string -> Subscription.t -> Node.t -> option string)
        (_generate_placeholder_links : Subscription.t -> list string)
        (shuffle : nat -> list string -> list string).

Definition _get_node_links (sub : Subscription.t) (node : Node.t) : list string :=
  match LINKS !! Node.id node with
  | None => []
  | Some cached =>
      omap (fun cached_link =>
              match _replace_link_credentials cached_link sub node with
              | Some modified_link =>
                  if String.eqb modified_link "" then None else Some modified_link
              | None => None
              end) cached
  end.

(** [sorted(..., key=priority, reverse=True)]: stable, descending. *)
Fixpoint insert_by_priority (n : Node.t) (l : list Node.t) : list Node.t :=
  match l with
  | [] => [n]
  | m :: rest =>
      if Node.priority n <? Node.priority m then m :: insert_by_priority n rest
      else n :: m :: rest
  end.

Definition sorted_by_priority (l : list Node.t) : list Node.t :=
  foldr insert_by_priority [] l.

Definition active_nodes (sub : Subscription.t) : list Node.t :=
  List.filter (fun node => Node.availabled node && Node.show_configs node)
    (sorted_by_priority (Subscription.nodes sub)).

(** [node_links_map], in insertion order; the nodes are distinct keys. *)
Definition node_links_map (sub : Subscription.t) : list (Node.t * list string) :=
  imap (fun i node =>
          (node, shuffle i (slice_from (Node.offset_link node) (_get_node_links sub node))))
       (active_nodes sub).

(** [max_links and link_count >= max_links] *)
Definition at_max (max_links : option Z) (link_count : Z) : bool :=
  match max_links with
  | Some m => negb (m =? 0) && (m <=? link_count)
  | None => false
  end.

(** [for link in batch]: stops at the limit. *)
Fixpoint take_batch (max_links : option Z) (batch : list string)
    (links : list string) (link_count : Z) : list string * Z :=
  match batch with
  | [] => (links, link_count)
  | link :: rest =>
      if at_max max_links link_count then (links, link_count)
      else take_batch max_links rest (links ++ [link]) (link_count + 1)
  end.

(** [for node in list(node_links_map.keys())]: one pass over the map. *)
Fixpoint pass (max_links : option Z) (m : list (Node.t * list string))
    (links : list string) (link_count : Z)
  : list (Node.t * list string) * list string * Z :=
  match m with
  | [] => ([], links, link_count)
  | (node, node_links) :: rest =>
      match node_links with
      | [] =>
          let '(rest', links', count') := pass max_links rest links link_count in
          ((node, node_links) :: rest', links', count')
      | _ =>
          if at_max max_links link_count then (m, links, link_count)
          else
            let batch_size := Node.batch_size node in
            let batch := slice_to batch_size node_links in
            let '(links1, count1) := take_batch max_links batch links link_count in
            let '(rest', links', count') := pass max_links rest links1 count1 in
            ((node, slice_from batch_size node_links) :: rest', links', count')
      end
  end.

(** [any(node_links_map.values())] *)
Definition any_links (m : list (Node.t * list string)) : bool :=
  existsb (fun e => match snd e with [] => false | _ => true end) m.

(** The [while] loop; [None] when [fuel] passes do not end it. *)
Fixpoint interleave (fuel : nat) (max_links : option Z)
    (m : list (Node.t * list string)) (links : list string) (link_count : Z)
  : option (list string) :=
  if any_links m then
    match fuel with
    | O => None
    | S fuel' =>
        let '(m', links', count') := pass max_links m links link_count in
        if at_max max_links count' then Some links'
        else interleave fuel' max_links m' links' count'
    end
  else Some links.

Definition owner_max_links (sub : Subscription.t) : option Z :=
  match Admin.max_links (Subscription.owner sub) with
  | Some m => if negb (m =? 0) && (0 <? m) then Some m else None
  | None => None
  end.

Definition generate (fuel : nat) (sub : Subscription.t) (now_ts : Z)
  : option (list string) :=
  let placeholder_links := _generate_placeholder_links sub in
  if Subscription.is_active sub now_ts then
    match interleave fuel (owner_max_links sub) (node_links_map sub) [] 0 with
    | Some links => Some (placeholder_links ++ links)
    | None => None
    end
  else Some (placeholder_links ++ []).

(** Links still to hand out. *)
Definition pending_links (m : list (Node.t * list string)) : nat :=
  foldr (fun e acc => (length (snd e) + acc)%nat) O m.

(** Every link the map still holds, node after node. *)
Definition all_links (m : list (Node.t * list string)) : list string :=
  concat (map snd m).

End Generate.

End LinkGeneration.

(** ** The admin cache *)

Module AdminCacheManager.

Definition CACHE_TTL : Q := 3000.

(** Clock readings of [time.time()] are rationals (seconds). *)
Record t := mk {
  _by_username : gmap (option string) Admin.t;
  _by_id : gmap Z Admin.t;
  _by_api_key : gmap string Admin.t;
  _cached_at : Q
}.

Definition init : t := mk ∅ ∅ ∅ 0.

(** [if admin.api_key]: set and not empty. *)
Definition truthy_key (k : option string) : option string :=
  match k with
  | Some s => if String.eqb s "" then None else Some s
  | None => None
  end.

Definition set_all (self : t) (admins : list Admin.t) (now : Q) : t :=
  mk (foldl (fun m admin => <[Admin.username admin := admin]> m) ∅ admins)
     (foldl (fun m admin => <[Admin.id admin := admin]> m) ∅ admins)
     (foldl (fun m admin =>
               match truthy_key (Admin.api_key admin) with
               | Some k => <[k := admin]> m
               | None => m
               end) ∅ admins)
     now.

Definition is_expired (self : t) (now : Q) : bool :=
  negb (Qle_bool (now - _cached_at self) CACHE_TTL).

Definition get_by_username (self : t) (username : string) (now : Q) : option Admin.t :=
  if is_expired self now then None else _by_username self !! Some username.

Definition get_by_id (self : t) (admin_id : Z) (now : Q) : option Admin.t :=
  if is_expired self now then None else _by_id self !! admin_id.

Definition get_by_api_key (self : t) (api_key : string) (now : Q) : option Admin.t :=
  if is_expired self now then None else _by_api_key self !! api_key.

Definition update (self : t) (admin : Admin.t) : t :=
  let by_api_key1 :=
    match _by_id self !! Admin.id admin with
    | Some old_admin =>
        match truthy_key (Admin.api_key old_admin) with
        | Some old_key =>
            if bool_decide (Admin.api_key old_admin ≠ Admin.api_key admin)
            then delete old_key (_by_api_key self) else _by_api_key self
        | None => _by_api_key self
        end
    | None => _by_api_key self
    end in
  mk (<[Admin.username admin := admin]> (_by_username self))
     (<[Admin.id admin := admin]> (_by_id self))
     (match truthy_key (Admin.api_key admin) with
      | Some k => <[k := admin]> by_api_key1
      | None => by_api_key1
      end)
     (_cached_at self).

Definition remove (self : t) (admin : Admin.t) : t :=
  mk (delete (Admin.username admin) (_by_username self))
     (delete (Admin.id admin) (_by_id self))
     (match truthy_key (Admin.api_key admin) with
      | Some k => delete k (_by_api_key self)
      | None => _by_api_key self
      end)
     (_cached_at self).

Definition clear (self : t) : t := mk ∅ ∅ ∅ 0.

(** The write-through calls of the request handlers. *)
Inductive Write :=
  | Update (admin : Admin.t)
  | Remove (admin : Admin.t).

Definition write (self : t) (w : Write) : t :=
  match w with
  | Update admin => update self admin
  | Remove admin => remove self admin
  end.

End AdminCacheManager.

(** ** Scenario values *)

Module Scenario.
Definition owner : Admin.t := Admin.mk 1 (Some "owner") None None.

(** Node N, [usage_rate = 0.5]. *)
Definition node_N : Node.t :=
  Node.mk 1 true false marzban (Some (PyFloat.float_lit 1 (-1))) 0 1 0 true.

(** A node whose rate is [-1.0]. *)
Definition node_neg : Node.t :=
  Node.mk 2 true false marzban (Some (PyFloat.float_lit (-1) 0)) 0 1 0 true.

(** Sub X, unlimited, with or without a pending expiry. *)
Definition sub_X (limit_expire : Z) : Subscription.t :=
  Subscription.mk 7 "srv_x" owner true true false false false false false
    (Some 0) (Some 0) limit_expire None None None 0 None [node_N].

Definition bucket : datetime := 1700000000000000.

(** The usage row of X on N: adjusted bytes and last counter. *)
Definition row (usage _usage : Z) : SubscriptionUsage.t :=
  SubscriptionUsage.mk (Some 1) 7 1 usage _usage bucket 1700000060000000.

Definition now : datetime := 1700000120000000.
Definition now_ts : Z := 1700000120.




(** Sub X with 500 bytes metered on the node of rate [-1.0]. *)
Definition metered_account : Account.t :=
  Account.mk (Subscription.set_total_usage 500 (sub_X 0))
    [SubscriptionUsage.mk (Some 2) 7 2 500 500 bucket 1700000060000000] [] [].

Definition reset_then_negative_rate : list Account.Op :=
  [Account.ResetUsages now;
   Account.BulkUpsert [(node_neg, (600, bucket))] now now_ts;
   Account.SyncCachedUsages].

(** The same account metered on node N, reset, metered again and renewed. *)
Definition metered_on_N : Account.t :=
  Account.mk (Subscription.set_total_usage 500 (sub_X 0))
    [row 500 1000]
    [SubscriptionAutoRenewal.mk 1 7 86400 (Some 500) true] [].

Definition reset_then_meter : list Account.Op :=
  [Account.ResetUsages now;
   Account.BulkUpsert [(node_N, (1200, bucket))] now now_ts;
   Account.SyncCachedUsages;
   Account.AutoRenewals now now_ts].

(** Scenario S2: X is over its 100 bytes and reached; renewals A and B
    wait in the queue. *)
Definition sub_S2 : Subscription.t :=
  Subscription.mk 7 "srv_x" owner true true true false false true false
    (Some 100) (Some 0) 0 None None (Some 1700000060000000) 200 None [node_N].

Definition renewal_A : SubscriptionAutoRenewal.t :=
  SubscriptionAutoRenewal.mk 1 7 86400 (Some 500) true.

Definition renewal_B : SubscriptionAutoRenewal.t :=
  SubscriptionAutoRenewal.mk 2 7 (-3600) (Some 900) false.

Definition db_S2 : ReachedTracker.DB := ReachedTracker.mkDB [sub_S2] [renewal_B; renewal_A].

(** Scenario S5 with one more subscription: X reached its limit two days
    ago and is still live. *)
Definition sub_old : Subscription.t :=
  Subscription.mk 8 "srv_old" owner true true true false false false false
    (Some 100) (Some 0) 0 None None (Some (now - 2 * one_day)) 200 None [node_N].

Definition sub_alice : Subscription.t :=
  Subscription.mk 9 "srv_alice" owner true true false false false false false
    (Some 0) (Some 0) 0 None None None 0 None [node_N].

Definition user (name : string) : SubsTracker.UserResponse :=
  SubsTracker.mkUser name true 0 bucket.

Definition inventory : gmap string SubsTracker.UserResponse :=
  <["guard" := user "guard"]>
    (<["srv_alice" := user "srv_alice"]>
       (<["srv_orphan" := user "srv_orphan"]>
          (<["srv_old" := user "srv_old"]> ∅))).

(** The catalogue of the node is a plain token here. *)
Definition nodes_data_S5 : SubsTracker.NodesData unit :=
  [(node_N, (Some tt, inventory))].

(** Two nodes with cached links: M (priority 5, two links per pass) and
    N (priority 0, one link per pass); an owner that caps the bundle at
    four links. *)
Definition node_M : Node.t :=
  Node.mk 3 true false marzneshin None 0 2 5 true.

Definition owner_capped : Admin.t := Admin.mk 2 (Some "seller") None (Some 4).

Definition sub_links (o : Admin.t) : Subscription.t :=
  Subscription.mk 10 "srv_links" o true true false false false false false
    (Some 0) (Some 0) 0 None None None 0 None [node_N; node_M].

Definition links_cache : gmap Z (list string) :=
  <[1 := ["a1"; "a2"; "a3"]]> (<[3 := ["b1"; "b2"]]> ∅).

(** Stand-ins for the rewrite of a link, the placeholders and the shuffle. *)
Definition keep_link (link : string) (_ : Subscription.t) (_ : Node.t) : option string :=
  Some link.

Definition one_placeholder (_ : Subscription.t) : list string := ["info"].

Definition no_shuffle (_ : nat) (l : list string) : list string := l.
End Scenario.
(** ** SQL sides of the hybrid properties, with NULL *)

(** A boolean SQL expression is true, false or NULL ([None]); [AND] and
    [OR] are Kleene's.  The flags of a subscription are never NULL. *)
Module SQL.

Definition tv := option bool.

Definition and3 (a b : tv) : tv :=
  match a, b with
  | Some false, _ | _, Some false => Some false
  | Some true, Some true => Some true
  | _, _ => None
  end.

Definition or3 (a b : tv) : tv :=
  match a, b with
  | Some true, _ | _, Some true => Some true
  | Some false, Some false => Some false
  | _, _ => None
  end.

(** A comparison with a nullable left operand. *)
Definition cmp (f : Z -> bool) (x : option Z) : tv := f <$> x.

(** [Subscription.is_active.expression] at the Unix time [now_ts]. *)
Definition is_active (s : Subscription.t) (now_ts : Z) : tv :=
  and3 (and3 (and3 (and3
    (Some (Subscription.enabled s))
    (Some (Subscription.activated s)))
    (or3 (Some (Subscription.limit_expire s <=? 0))
         (Some (now_ts <=? Subscription.limit_expire s))))
    (or3 (cmp (fun l => l <=? 0) (Subscription.limit_usage s))
         (cmp (fun l => 0 <=? l - (Subscription.total_usage s
                                   - default 0 (Subscription.reset_usage s)))
              (Subscription.limit_usage s))))
    (Some (negb (Subscription.debted s))).

(** A row is selected by [WHERE e] when [e] is true. *)
Definition selected (e : tv) : bool :=
  match e with
  | Some true => true
  | _ => false
  end.

End SQL.

(** ** What a reconciler call is about *)

Module SyncCalls.
Import SubsTracker.

(** The nodes a call reaches. *)
Definition nodes_of {Configs : Type} (c : Call Configs) : list Node.t :=
  match c with
  | create_subscription node _ _ | deactivate_subscription node _
  | activate_subscription node _ | sync_config node _ _ _ => [node]
  | remove_subscription _ nodes => nodes
  end.

(** The subscription a call acts for; a removal names a username only. *)
Definition sub_of {Configs : Type} (c : Call Configs) : option Subscription.t :=
  match c with
  | create_subscription _ sub _ | deactivate_subscription _ sub
  | activate_subscription _ sub | sync_config _ sub _ _ => Some sub
  | remove_subscription _ _ => None
  end.

End SyncCalls.


(** ** Invariants of the admin cache *)

Module CacheInv.
Import AdminCacheManager.

(** Every entry sits under its own key. *)
Definition keyed (self : t) : Prop :=
  (forall u a, _by_username self !! u = Some a -> Admin.username a = u)
  /\ (forall i a, _by_id self !! i = Some a -> Admin.id a = i)
  /\ (forall k a, _by_api_key self !! k = Some a -> truthy_key (Admin.api_key a) = Some k).


(** The API-key index points into the id index. *)
Definition key_current (self : t) : Prop :=
  forall k a, _by_api_key self !! k = Some a -> _by_id self !! Admin.id a = Some a.


End CacheInv.

(** ** Usage rows across a batch *)

Module UsageRows.
Import SubscriptionUsage Store.

(** [new] is the row [old] as a batch at [now] may leave it: same key
    columns, a counter that has not gone down, and [updated_at] moved to
    [now] if anything was written. *)
Definition kept (now : datetime) (old new : t) : Prop :=
  id new = id old /\ subscription_id new = subscription_id old
  /\ node_id new = node_id old /\ created_at new = created_at old
  /\ _usage old <= _usage new
  /\ (new = old \/ updated_at new = now).

(** A row the batch gave to [db.add] for one of the entries of [usages]. *)
Definition fresh_row (sub : Subscription.t) (usages : list (Node.t * (Z * datetime)))
    (now : datetime) (record : t) : Prop :=
  id record = None /\ subscription_id record = Subscription.id sub
  /\ updated_at record = now
  /\ exists node, (node, (_usage record, created_at record)) ∈ usages
       /\ node_id record = Node.id node /\ 0 < _usage record.

(** The entry has nothing to add to [table]: its counter is not
    positive, or the first row of its bucket holds a counter at least as
    large. *)
Definition settled (table : list t) (entry : Node.t * (Z * datetime)) : Prop :=
  let '(node, (usage_value, created)) := entry in
  usage_value <= 0
  \/ exists record, find (same_bucket node created) table = Some record
                    /\ usage_value <= _usage record.

End UsageRows.

(** ** The rows of one subscription *)

Module UsageTable.
Import SubscriptionUsage.

(** [WHERE SubscriptionUsage.subscription_id == cls.id] *)
Definition rows_of (table : list t) (sub_id : Z) : list t :=
  List.filter (fun record => subscription_id record =? sub_id) table.

End UsageTable.

(** ** The reached tracker: the whole tick *)

Module ReachedTick.

(** A row of [subscriptions]: the columns of [Subscription.t] and the
    three more that the tick reads or writes. *)
Record Sub := mkSub {
  row : Subscription.t;
  username : option string;
  auto_delete_days : option Z;
  removed_at : option datetime
}.

Record DB := mkDB {
  subscriptions : list Sub;
  subscription_auto_renewals : list SubscriptionAutoRenewal.t
}.

Record Counts := mkCounts {
  reached_count : Z;
  limited_count : Z;
  unreached_count : Z;
  auto_renewed_count : Z;
  auto_deleted_count : Z
}.

Definition set_row (r : Subscription.t) (s : Sub) : Sub :=
  mkSub r (username s) (auto_delete_days s) (removed_at s).

(** [.values(...)] on columns of [Subscription.t]. *)
Definition on_row (f : Subscription.t -> Subscription.t) (s : Sub) : Sub :=
  set_row (f (row s)) s.

Definition set_removed (v : bool) (s : Subscription.t) : Subscription.t :=
  Subscription.mk (Subscription.id s) (Subscription.server_key s) (Subscription.owner s)
    (Subscription.enabled s) (Subscription.activated s) (Subscription.reached s)
    (Subscription.debted s) (Subscription.onreached_expire s)
    (Subscription.onreached_usage s) v (Subscription.limit_usage s)
    (Subscription.reset_usage s) (Subscription.limit_expire s)
    (Subscription.last_reset_at s) (Subscription.inactive_at s)
    (Subscription.reached_at s) (Subscription.total_usage s) (Subscription.online_at s)
    (Subscription.nodes s).

(** [update(Subscription).where(cond).values(...)] and its [rowcount]. *)
Definition update_where (cond : Sub -> bool) (values : Sub -> Sub) (subs : list Sub)
  : list Sub :=
  map (fun s => if cond s then values s else s) subs.

Definition rowcount (cond : Sub -> bool) (subs : list Sub) : Z :=
  Z.of_nat (length (List.filter cond subs)).

(** [Subscription.removed == False] *)
Definition not_removed (s : Sub) : bool := negb (Subscription.removed (row s)).

(** [or_(_limited_expr(), _expired_expr(now_ts))] *)
Definition over (now_ts : Z) (s : Sub) : bool :=
  ReachedTracker._limited_expr (row s) || ReachedTracker._expired_expr now_ts (row s).

(** [auto_delete_condition]; a [datetime] counts microseconds, so the
    epoch of [now_utc - reached_at] is at least [days * 86400] seconds
    when the difference is at least that many microseconds. *)
Definition auto_delete_condition (now_utc : datetime) (s : Sub) : bool :=
  not_removed s && Subscription.reached (row s)
  && match auto_delete_days s with
     | Some days =>
         (0 <? days)
         && match Subscription.reached_at (row s) with
            | Some t => days * 86400 * 1000000 <=? now_utc - t
            | None => false
            end
     | None => false
     end.

Section Tick.
(** The two warning conditions compare quotients computed by the
    database with the owner's settings; they are taken as they come. *)
Context (expire_warning_condition usage_warning_condition : Sub -> bool).

(** [track_subscriptions_reacheds] at the clock reading [now_utc], whose
    timestamp in whole seconds is [now_ts]. *)
Definition track_subscriptions_reacheds (db : DB) (now_utc : datetime) (now_ts : Z)
  : DB * Counts :=
  let s1 := update_where (fun s => not_removed s && expire_warning_condition s)
              (on_row (Subscription.set_onreached_expire true)) (subscriptions db) in
  let s2 := update_where (fun s => not_removed s && negb (expire_warning_condition s))
              (on_row (Subscription.set_onreached_expire false)) s1 in
  let s3 := update_where (fun s => not_removed s && usage_warning_condition s)
              (on_row (Subscription.set_onreached_usage true)) s2 in
  let s4 := update_where (fun s => not_removed s && negb (usage_warning_condition s))
              (on_row (Subscription.set_onreached_usage false)) s3 in
  let limited_count :=
    rowcount (fun s => not_removed s && negb (Subscription.reached (row s))
                       && ReachedTracker._limited_expr (row s)) s4 in
  let reach := fun s => not_removed s && negb (Subscription.reached (row s))
                        && over now_ts s in
  let reached_count := rowcount reach s4 in
  let s5 := update_where reach
              (on_row (fun r => Subscription.set_reached_at (Some now_utc)
                                  (Subscription.set_reached true r))) s4 in
  let '(renewed_db, auto_renewed_count) :=
    ReachedTracker._process_auto_renewals_batch
      (ReachedTracker.mkDB (map row s5) (subscription_auto_renewals db)) now_utc now_ts in
  let s6 := zip_with (fun s r => set_row r s) s5 (ReachedTracker.subscriptions renewed_db) in
  let renewals := ReachedTracker.subscription_auto_renewals renewed_db in
  let unreach := fun s => not_removed s && Subscription.reached (row s)
                          && negb (over now_ts s) in
  let unreached_count := rowcount unreach s6 in
  let s7 := update_where unreach
              (on_row (fun r => Subscription.set_onreached_usage false
                                  (Subscription.set_onreached_expire false
                                     (Subscription.set_reached_at None
                                        (Subscription.set_reached false r))))) s6 in
  let to_delete_rows := List.filter (auto_delete_condition now_utc) s7 in
  match to_delete_rows with
  | [] =>
      (mkDB s7 renewals,
       mkCounts reached_count limited_count unreached_count auto_renewed_count 0)
  | _ =>
      let delete_ids := map (fun s => Subscription.id (row s)) to_delete_rows in
      (mkDB (update_where (fun s => bool_decide (Subscription.id (row s) ∈ delete_ids))
               (fun s => mkSub (set_removed true (row s)) None (auto_delete_days s)
                           (Some now_utc)) s7)
            renewals,
       mkCounts reached_count limited_count unreached_count auto_renewed_count
         (Z.of_nat (length delete_ids)))
  end.

(** What the tick does to one row, given the renewal queue: the steps
    in the order of the statements. *)
Definition warned (s : Sub) : Sub :=
  let f1 := fun s => if not_removed s && expire_warning_condition s
                     then on_row (Subscription.set_onreached_expire true) s else s in
  let f2 := fun s => if not_removed s && negb (expire_warning_condition s)
                     then on_row (Subscription.set_onreached_expire false) s else s in
  let f3 := fun s => if not_removed s && usage_warning_condition s
                     then on_row (Subscription.set_onreached_usage true) s else s in
  let f4 := fun s => if not_removed s && negb (usage_warning_condition s)
                     then on_row (Subscription.set_onreached_usage false) s else s in
  f4 (f3 (f2 (f1 s))).

Definition reach (now_utc : datetime) (now_ts : Z) (s : Sub) : Sub :=
  if not_removed s && negb (Subscription.reached (row s)) && over now_ts s
  then on_row (fun r => Subscription.set_reached_at (Some now_utc)
                          (Subscription.set_reached true r)) s
  else s.

Definition renew (renewals : list SubscriptionAutoRenewal.t) (now_utc : datetime)
    (now_ts : Z) (s : Sub) : Sub :=
  match ReachedTracker.joined (ReachedTracker.mkDB [] renewals) now_ts (row s) with
  | Some r => set_row (ReachedTracker.renewed now_utc now_ts r (row s)) s
  | None => s
  end.

Definition unreach (now_ts : Z) (s : Sub) : Sub :=
  if not_removed s && Subscription.reached (row s) && negb (over now_ts s)
  then on_row (fun r => Subscription.set_onreached_usage false
                          (Subscription.set_onreached_expire false
                             (Subscription.set_reached_at None
                                (Subscription.set_reached false r)))) s
  else s.

Definition auto_delete (now_utc : datetime) (s : Sub) : Sub :=
  if auto_delete_condition now_utc s
  then mkSub (set_removed true (row s)) None (auto_delete_days s) (Some now_utc)
  else s.

Definition tick_row (renewals : list SubscriptionAutoRenewal.t) (now_utc : datetime)
    (now_ts : Z) (s : Sub) : Sub :=
  auto_delete now_utc
    (unreach now_ts (renew renewals now_utc now_ts (reach now_utc now_ts (warned s)))).

(** No renewal is queued for subscription [sub_id]. *)
Definition no_renewal (renewals : list SubscriptionAutoRenewal.t) (sub_id : Z) : Prop :=
  forall r, r ∈ renewals -> SubscriptionAutoRenewal.subscription_id r <> sub_id.


End Tick.

End ReachedTick.

(** ** Scenario values for the reached tracker *)

Module TickScenario.
Import ReachedTick.

(** No row is near a limit: both warning conditions are false. *)
Definition no_warning (_ : Sub) : bool := false.

(** X, over its usage limit and marked reached a minute ago, with two
    renewals queued. *)
Definition sub_queued : Sub := mkSub Scenario.sub_S2 (Some "x") (Some 1) None.

(** Reached two days ago, still over its limit, to be deleted after one day. *)
Definition sub_stale : Sub := mkSub Scenario.sub_old (Some "old") (Some 1) None.

(** A row that was removed before. *)
Definition sub_gone : Sub :=
  mkSub (set_removed true Scenario.sub_alice) None (Some 1) (Some Scenario.bucket).

Definition db : DB :=
  mkDB [sub_queued; sub_stale; sub_gone] [Scenario.renewal_B; Scenario.renewal_A].

End TickScenario.

(** ** Resellers: usage limits and the debted flag *)

Module Resellers.

Inductive AdminRole := OWNER | SELLER | RESELLER.

(** A row of [admins]: the columns of [Admin.t], and the role and usage
    columns the tracker reads.  [role] is [None] for NULL. *)
Record AdminRow := mkAdminRow {
  admin : Admin.t;
  role : option AdminRole;
  usage_limit : option Z;
  current_usage : Z;
  count_limit : option Z;
  current_count : Z
}.

(** [left_usage] and [left_count] *)
Definition left_usage (self : AdminRow) : option Z :=
  match usage_limit self with
  | None => None
  | Some l => if l =? 0 then None else Some (l - current_usage self)
  end.

Definition left_count (self : AdminRow) : option Z :=
  match count_limit self with
  | None => None
  | Some l => if l =? 0 then None else Some (l - current_count self)
  end.

(** [True if self.left_usage and self.left_usage <= 0 else False]: a
    difference of 0 is falsy. *)
Definition reached_usage_limit (self : AdminRow) : bool :=
  match left_usage self with
  | Some left_ => negb (left_ =? 0) && (left_ <=? 0)
  | None => false
  end.

Definition reached_count_limit (self : AdminRow) : bool :=
  match left_count self with
  | Some left_ => negb (left_ =? 0) && (left_ <=? 0)
  | None => false
  end.

Definition set_debted (v : bool) (s : Subscription.t) : Subscription.t :=
  Subscription.mk (Subscription.id s) (Subscription.server_key s) (Subscription.owner s)
    (Subscription.enabled s) (Subscription.activated s) (Subscription.reached s)
    v (Subscription.onreached_expire s)
    (Subscription.onreached_usage s) (Subscription.removed s) (Subscription.limit_usage s)
    (Subscription.reset_usage s) (Subscription.limit_expire s)
    (Subscription.last_reset_at s) (Subscription.inactive_at s)
    (Subscription.reached_at s) (Subscription.total_usage s) (Subscription.online_at s)
    (Subscription.nodes s).

(** [Subscription.owner_id] *)
Definition owner_id (s : Subscription.t) : Z := Admin.id (Subscription.owner s).

(** The ids the sub-select of [bulk_debted] and [bulk_dedebted] yields
    when called with [owner_ids] only. *)
Definition debted_ids (subs : list Subscription.t) (owner_ids : list Z) : list Z :=
  map Subscription.id
    (List.filter (fun s => Subscription.debted s && bool_decide (owner_id s ∈ owner_ids))
       subs).

(** [bulk_debted(db, owner_ids=...)] *)
Definition bulk_debted (subs : list Subscription.t) (owner_ids : list Z)
  : list Subscription.t :=
  let ids := debted_ids subs owner_ids in
  map (fun s => if bool_decide (Subscription.id s ∈ ids) then set_debted true s else s) subs.

(** [bulk_dedebted(db, owner_ids=...)] *)
Definition bulk_dedebted (subs : list Subscription.t) (owner_ids : list Z)
  : list Subscription.t :=
  let ids := debted_ids subs owner_ids in
  map (fun s => if bool_decide (Subscription.id s ∈ ids) then set_debted false s else s) subs.

(** [a.role in [AdminRole.RESELLER, AdminRole.SELLER]] *)
Definition is_seller (a : AdminRow) : bool :=
  match role a with
  | Some RESELLER | Some SELLER => true
  | _ => false
  end.

(** [track_resellers]: the cache and the subscriptions after the task;
    [now] is the clock reading of [set_all]. *)
Definition track_resellers (cache : AdminCacheManager.t) (subs : list Subscription.t)
    (all_admins : list AdminRow) (now : Q)
  : AdminCacheManager.t * list Subscription.t :=
  let cache' := AdminCacheManager.set_all cache (map admin all_admins) now in
  let admins := List.filter is_seller all_admins in
  match admins with
  | [] => (cache', subs)
  | _ =>
      let activated_admins :=
        map (fun a => Admin.id (admin a))
          (List.filter (fun a => negb (reached_usage_limit a)) admins) in
      let deactivated_admins :=
        map (fun a => Admin.id (admin a)) (List.filter reached_usage_limit admins) in
      let subs1 := match activated_admins with
                   | [] => subs
                   | _ => bulk_dedebted subs activated_admins
                   end in
      let subs2 := match deactivated_admins with
                   | [] => subs1
                   | _ => bulk_debted subs1 deactivated_admins
                   end in
      (cache', subs2)
  end.

(** The owner of [s] is a seller or reseller below its usage limit. *)
Definition owner_in_credit (all_admins : list AdminRow) (s : Subscription.t) : Prop :=
  exists a, a ∈ all_admins /\ Admin.id (admin a) = owner_id s
            /\ is_seller a = true /\ reached_usage_limit a = false.

End Resellers.

(** ** The hourly usage log *)

Module UsageRecord.

(** A row of [subscription_logs]; [id] is [None] for a row given to
    [db.add] and not flushed yet. *)
Record Log := mkLog {
  id : option Z;
  subscription_id : Z;
  usage : Z;
  created_at : datetime
}.

Definition one_hour : Z := 3600 * 1000000.

(** [total_usages.get(sub_id, 0)]: the sum of [usage] over the rows of
    the subscription, 0 without rows. *)
Definition total_usages (table : list SubscriptionUsage.t) (sub_id : Z) : Z :=
  foldr (fun record acc =>
           if SubscriptionUsage.subscription_id record =? sub_id
           then SubscriptionUsage.usage record + acc else acc) 0 table.

(** [all_logged_usages.get(sub_id, 0)] *)
Definition all_logged_usages (logs : list Log) (sub_id : Z) : Z :=
  foldr (fun log acc => if subscription_id log =? sub_id then usage log + acc else acc)
        0 logs.

(** A log of [sub_id] in the hour that starts at [current_hour]. *)
Definition in_hour (current_hour : datetime) (sub_id : Z) (log : Log) : bool :=
  (subscription_id log =? sub_id)
  && (current_hour <=? created_at log) && (created_at log <? current_hour + one_hour).

(** [existing_log.usage += unlogged_usage] on the log [current_logs]
    holds for the subscription: the last one of the query; [None] when
    there is none. *)
Fixpoint add_to_last (p : Log -> bool) (delta : Z) (logs : list Log) : option (list Log) :=
  match logs with
  | [] => None
  | log :: rest =>
      match add_to_last p delta rest with
      | Some rest' => Some (log :: rest')
      | None =>
          if p log
          then Some (mkLog (id log) (subscription_id log) (usage log + delta)
                       (created_at log) :: rest)
          else None
      end
  end.

(** The loop state: the logs read (mutated in place), those given to
    [db.add], and the two [defaultdict]s. *)
Record Loop := mkLoop {
  logs : list Log;
  added : list Log;
  admin_updates : gmap Z Z;
  usages : gmap (option string) Z
}.

(** [d[k] += v] on a [defaultdict(int)] *)
Definition bump `{Countable K} (k : K) (v : Z) (d : gmap K Z) : gmap K Z :=
  <[k := default 0 (d !! k) + v]> d.

(** One turn of [for sub_id, owner_id, owner_username in subs_info];
    [total] and [all_logged] were read before the loop. *)
Definition record_sub (total all_logged : Z -> Z) (current_hour : datetime)
    (st : Loop) (info : Z * Z * option string) : Loop :=
  let '(sub_id, owner_id, owner_username) := info in
  let unlogged_usage := total sub_id - all_logged sub_id in
  if 0 <? unlogged_usage then
    match add_to_last (in_hour current_hour sub_id) unlogged_usage (logs st) with
    | Some logs' =>
        mkLoop logs' (added st) (bump owner_id unlogged_usage (admin_updates st))
          (bump owner_username unlogged_usage (usages st))
    | None =>
        mkLoop (logs st) (added st ++ [mkLog None sub_id unlogged_usage current_hour])
          (bump owner_id unlogged_usage (admin_updates st))
          (bump owner_username unlogged_usage (usages st))
    end
  else st.

Definition set_current_usage (v : Z) (a : Resellers.AdminRow) : Resellers.AdminRow :=
  Resellers.mkAdminRow (Resellers.admin a) (Resellers.role a) (Resellers.usage_limit a) v
    (Resellers.count_limit a) (Resellers.current_count a).

Record Recorded := mkRecorded {
  r_logs : list Log;
  r_added : list Log;
  r_admins : list Resellers.AdminRow;
  r_usages : gmap (option string) Z
}.

(** [upsert_subscription_usage], up to the report to MoreBot:
    [subs_info] are the rows of the first query, [current_hour] the
    clock reading cut to the hour. *)
Definition upsert_subscription_usage (subs_info : list (Z * Z * option string))
    (table : list SubscriptionUsage.t) (logs : list Log)
    (admins : list Resellers.AdminRow) (current_hour : datetime) : Recorded :=
  match subs_info with
  | [] => mkRecorded logs [] admins ∅
  | _ =>
      let st := foldl (record_sub (total_usages table) (all_logged_usages logs) current_hour)
                  (mkLoop logs [] ∅ ∅) subs_info in
      mkRecorded (UsageRecord.logs st) (added st)
        (map (fun a =>
                match admin_updates st !! Admin.id (Resellers.admin a) with
                | Some delta =>
                    if 0 <? delta
                    then set_current_usage (Resellers.current_usage a + delta) a
                    else a
                | None => a
                end) admins)
        (usages st)
  end.

(** The logs once the session is flushed. *)
Definition flushed (r : Recorded) : list Log := r_logs r ++ r_added r.

(** What one subscription adds to the logs and to its owner's bill. *)
Definition due (total all_logged : Z -> Z) (sub_id : Z) : Z :=
  Z.max 0 (total sub_id - all_logged sub_id).

(** What the task bills to [owner_id]: the usage of its subscriptions
    that no log covers yet. *)
Definition billed (subs_info : list (Z * Z * option string))
    (table : list SubscriptionUsage.t) (logs : list Log) (owner_id : Z) : Z :=
  foldr (fun info acc =>
           let '(sub_id, owner, _) := info in
           if (owner =? owner_id) then
             Z.max 0 (total_usages table sub_id - all_logged_usages logs sub_id) + acc
           else acc) 0 subs_info.

End UsageRecord.

(** ** Text of the time left *)

Module FormatUtils.

(** [FormatUtils.time_convert(expire)] at the Unix time [now_ts];
    [divmod] rounds down, as [Z.div] and [Z.modulo] do, and [f"{n} d"]
    prints [n] in decimal. *)
Definition time_convert (expire : Z) (now_ts : Z) : string :=
  if expire =? 0 then "Unlimited"
  else
    let expire := if expire <? 0 then Z.abs expire else expire - now_ts in
    let days := expire / 86400 in
    let remainder := expire mod 86400 in
    let hours := remainder / 3600 in
    let remainder := remainder mod 3600 in
    let minutes := remainder / 60 in
    let seconds := remainder mod 60 in
    let time_parts :=
      (if 0 <? days then [pretty days +:+ " d"] else [])
      ++ (if 0 <? hours then [pretty hours +:+ " h"] else [])
      ++ (if 0 <? minutes then [pretty minutes +:+ " min"] else [])
      ++ (if 0 <? seconds then [pretty seconds +:+ " sec"] else []) in
    String.concat ", " (take 2 time_parts).

End FormatUtils.
(** * Properties *)

(** ** Floats: truncation and sign *)

Section FloatFacts.
Import PyFloat.

Example int_mul_half : int_mul 1000 (float_lit 1 (-1)) = Some 500.
Proof. vm_compute. reflexivity. Qed.

Example int_mul_truncates : int_mul 3 (float_lit 1 (-1)) = Some 1.
Proof. vm_compute. reflexivity. Qed.

Example round_mul_rounds : round_mul 3 (float_lit 1 (-1)) = Some 2.
Proof. vm_compute. reflexivity. Qed.

Example int_mul_overflow : int_mul (2 ^ 2000) one = None.
Proof. vm_compute. reflexivity. Qed.

(** Rounding keeps the sign it is given. *)
Lemma binary_round_aux_sign sx mx ex lx :
  has_sign sx (binary_round_aux prec emax sx mx ex lx).
Proof.
  unfold binary_round_aux.
  destruct (shr_fexp prec emax mx ex lx) as [mrs' e'].
  destruct (shr_fexp prec emax _ e' loc_Exact) as [mrs'' e''].
  destruct (shr_m mrs''); simpl; [reflexivity | | exact I].
  destruct (e'' <=? emax - prec); reflexivity.
Qed.

Lemma float_of_int_sign v : 0 <= v -> has_sign false (float_of_int v).
Proof.
  intros Hv. unfold float_of_int, binary_normalize.
  destruct v as [|p|p]; [reflexivity | | lia].
  unfold binary_round. destruct (shl_align _ _ _). apply binary_round_aux_sign.
Qed.

Lemma py_int_sign x k : has_sign false x -> py_int x = Some k -> 0 <= k.
Proof.
  destruct x as [s|s| |s m e]; simpl; intros Hs Hk; try discriminate.
  - injection Hk as <-. lia.
  - subst s. injection Hk as <-.
    destruct (Z.leb_spec 0 e).
    + apply Z.mul_nonneg_nonneg; [lia | apply Z.pow_nonneg; lia].
    + apply Z.div_pos; [lia |]. apply Z.pow_pos_nonneg; lia.
Qed.

Lemma fmul_sign x y : has_sign false x -> nonneg y ->
  has_sign false (fmul x y) \/ py_int (fmul x y) = Some 0.
Proof.
  destruct x as [sx|sx| |sx mx ex], y as [sy|sy| |sy my ey];
    simpl; intros Hx Hy; subst; try tauto; try (right; reflexivity).
  left. apply binary_round_aux_sign.
Qed.

(** A non-negative int scaled by a non-negative rate is non-negative. *)
Lemma int_mul_nonneg v rate k :
  0 <= v -> nonneg rate -> int_mul v rate = Some k -> 0 <= k.
Proof.
  intros Hv Hr Hk. unfold int_mul in Hk.
  destruct (fmul_sign (float_of_int v) rate (float_of_int_sign v Hv) Hr) as [H|H].
  - eapply py_int_sign; eauto.
  - rewrite H in Hk. injection Hk as <-. lia.
Qed.
End FloatFacts.

(** ** Rows found and mutated in place *)

Section ReplaceFirst.
Context {A : Type}.
Implicit Types (p q : A -> bool) (l : list A).

Lemma replace_first_none p r' l : find p l = None -> replace_first p r' l = l.
Proof.
  induction l as [|x l IH]; simpl; [reflexivity |].
  destruct (p x); [discriminate |]. intros H. now rewrite IH.
Qed.

Lemma find_replace_first_hit p r r' l :
  find p l = Some r -> p r' = true -> find p (replace_first p r' l) = Some r'.
Proof.
  intros Hf Hp. induction l as [|x l IH]; simpl in *; [discriminate |].
  destruct (p x) eqn:Hx; simpl.
  - now rewrite Hp.
  - rewrite Hx. auto.
Qed.

Lemma find_replace_first_miss p q r' l :
  (forall x, p x = true -> q x = false) -> q r' = false ->
  find q (replace_first p r' l) = find q l.
Proof.
  intros Hpq Hq. induction l as [|x l IH]; simpl; [reflexivity |].
  destruct (p x) eqn:Hx; simpl.
  - rewrite Hq, (Hpq x Hx). reflexivity.
  - now rewrite IH.
Qed.

Lemma find_some_true p l r : find p l = Some r -> p r = true.
Proof. intros H. now apply List.find_some in H. Qed.

Lemma replace_first_length p r' l : length (replace_first p r' l) = length l.
Proof.
  induction l as [|x l IH]; simpl; [reflexivity |].
  destruct (p x); simpl; auto.
Qed.

(** A different list only when a row was found. *)
Lemma replace_first_changes p r r' l :
  find p l = Some r -> r' <> r -> replace_first p r' l <> l.
Proof.
  induction l as [|x l IH]; simpl; [discriminate |].
  destruct (p x); intros Hf Hne.
  - injection Hf as ->. congruence.
  - intros Heq. injection Heq as Heq. now apply IH.
Qed.
End ReplaceFirst.

(** ** The usage upsert *)

Section UpsertFacts.
Import SubscriptionUsage Store.

Implicit Types (sub : Subscription.t) (node : Node.t) (st : Loop)
  (usages : list (Node.t * (Z * datetime))).

Lemma same_bucket_set_counters node c u v now record :
  same_bucket node c (set_counters u v now record) = same_bucket node c record.
Proof. reflexivity. Qed.

Lemma same_bucket_other node node' c c' record :
  Node.id node' <> Node.id node ->
  same_bucket node' c' record = true -> same_bucket node c record = false.
Proof.
  unfold same_bucket. intros Hne H.
  apply andb_true_iff in H as [H _]. apply Z.eqb_eq in H.
  apply andb_false_iff. left. apply Z.eqb_neq. congruence.
Qed.

Lemma clamp_max u : clamp u = Z.max 0 u.
Proof. unfold clamp. destruct (Z.ltb_spec u 0); lia. Qed.

(** An entry of another node leaves the bucket and the pending rows of
    [node] alone. *)
Lemma upsert_entry_other sub now st st' entry node c :
  Node.id (fst entry) <> Node.id node ->
  upsert_entry sub now st entry = Some st' ->
  find (same_bucket node c) (rows st') = find (same_bucket node c) (rows st)
  /\ List.filter (of_node node) (added st') = List.filter (of_node node) (added st).
Proof.
  destruct entry as [node' [v c']]. simpl. intros Hne.
  unfold upsert_entry.
  destruct (v <=? 0); [intros [= <-]; auto |].
  destruct (find (same_bucket node' c') (rows st)) as [record|] eqn:Hf.
  - destruct (negb (_usage record =? v)); [| intros [= <-]; auto].
    destruct (v - _usage record <? 0); [intros [= <-]; auto |].
    destruct (PyFloat.int_mul _ _) as [k|]; [| discriminate].
    intros [= <-]. simpl. split; [| reflexivity].
    apply find_replace_first_miss.
    + intros x Hx. eapply same_bucket_other; eauto.
    + rewrite same_bucket_set_counters.
      eapply same_bucket_other; eauto. eapply find_some_true; eauto.
  - destruct (PyFloat.int_mul _ _) as [u|]; [| discriminate].
    intros [= <-]. simpl. split; [reflexivity |].
    rewrite List.filter_app. simpl. unfold of_node at 2. simpl.
    destruct (Z.eqb_spec (Node.id node') (Node.id node)); [contradiction |].
    now rewrite app_nil_r.
Qed.

Lemma upsert_entries_other sub now usages st st' node c :
  Forall (fun entry => Node.id (fst entry) <> Node.id node) usages ->
  upsert_entries sub now usages st = Some st' ->
  find (same_bucket node c) (rows st') = find (same_bucket node c) (rows st)
  /\ List.filter (of_node node) (added st') = List.filter (of_node node) (added st).
Proof.
  intros Hall. revert st. induction Hall as [|entry usages Hne Hall IH]; simpl; intros st.
  - intros [= <-]. auto.
  - destruct (upsert_entry sub now st entry) as [st1|] eqn:H1; [| discriminate].
    intros H. destruct (IH _ H) as [-> ->].
    eapply upsert_entry_other; eauto.
Qed.

Lemma upsert_entries_app sub now us1 us2 st :
  upsert_entries sub now (us1 ++ us2) st =
  match upsert_entries sub now us1 st with
  | Some st1 => upsert_entries sub now us2 st1
  | None => None
  end.
Proof.
  revert st. induction us1 as [|e us1 IH]; simpl; intros st; [reflexivity |].
  destruct (upsert_entry sub now st e); auto.
Qed.

(** With distinct nodes, the call reaches an entry with the bucket of its
    node as it was handed over, and what that turn leaves is final. *)
Lemma upsert_entries_focus sub now usages node v c st0 st' :
  NoDup (map (fun entry => Node.id (fst entry)) usages) ->
  (node, (v, c)) ∈ usages ->
  upsert_entries sub now usages st0 = Some st' ->
  exists st1 st2,
    find (same_bucket node c) (rows st1) = find (same_bucket node c) (rows st0)
    /\ List.filter (of_node node) (added st1) = List.filter (of_node node) (added st0)
    /\ upsert_entry sub now st1 (node, (v, c)) = Some st2
    /\ find (same_bucket node c) (rows st') = find (same_bucket node c) (rows st2)
    /\ List.filter (of_node node) (added st') = List.filter (of_node node) (added st2).
Proof.
  intros Hnd Hin Hrun.
  apply list_elem_of_split in Hin as (us1 & us2 & ->).
  rewrite map_app in Hnd. simpl in Hnd.
  apply NoDup_app in Hnd as (_ & Hdisj & Hnd2).
  apply NoDup_cons in Hnd2 as [Hnot2 _].
  assert (H1 : Forall (fun entry => Node.id (fst entry) <> Node.id node) us1).
  { apply Forall_forall. intros e He Heq.
    apply (Hdisj (Node.id (fst e))).
    - apply list_elem_of_fmap. eauto.
    - rewrite Heq. left. }
  assert (H2 : Forall (fun entry => Node.id (fst entry) <> Node.id node) us2).
  { apply Forall_forall. intros e He Heq. apply Hnot2.
    apply list_elem_of_fmap. exists e. split; [now rewrite Heq | assumption]. }
  rewrite upsert_entries_app in Hrun.
  destruct (upsert_entries sub now us1 st0) as [st1|] eqn:E1; [| discriminate].
  cbn [upsert_entries] in Hrun.
  destruct (upsert_entry sub now st1 (node, (v, c))) as [st2|] eqn:E2; [| discriminate].
  destruct (upsert_entries_other _ _ _ _ _ node c H1 E1) as [Ha Hb].
  destruct (upsert_entries_other _ _ _ _ _ node c H2 Hrun) as [Hc Hd].
  exists st1, st2. auto.
Qed.

(** The result of the call in terms of the final loop state. *)
Lemma bulk_upsert_usages_inv sub usages sub_usages now now_ts res :
  bulk_upsert_usages sub usages sub_usages now now_ts = Some res ->
  exists st,
    upsert_entries sub now usages (mkLoop sub_usages [] false []) = Some st
    /\ r_rows res = rows st /\ r_added res = added st
    /\ r_sub res = (if changed st then fst (activate_expire sub now_ts) else sub)
    /\ r_events res =
         events st ++ (if changed st then snd (activate_expire sub now_ts) else []).
Proof.
  unfold bulk_upsert_usages.
  destruct (upsert_entries _ _ _ _) as [st|]; [| discriminate].
  intros H. exists st. split; [reflexivity |].
  destruct (changed st).
  - destruct (activate_expire sub now_ts) as [sub' ev]. injection H as <-. auto.
  - injection H as <-. simpl. rewrite app_nil_r. auto.
Qed.
End UpsertFacts.

(** ** Counter resets, rate scaling and row insertion (C1, C2, C5) *)

Section UpsertClaims.
Import SubscriptionUsage Store.

Implicit Types (sub : Subscription.t) (node : Node.t)
  (usages : list (Node.t * (Z * datetime))).

(** The single-row path on a decreased counter: no credit, the stored
    counter follows, [updated_at] is the time of the call. *)
Lemma upsert_usage_counter_reset table sub node v c now now_ts existing :
  find (existing_row sub node c) table = Some existing ->
  0 < v -> v < _usage existing ->
  exists res,
    upsert_usage table sub node v c now now_ts = Some res
    /\ find (existing_row sub node c) (r_rows res)
       = Some (set_counters (usage existing) v now existing)
    /\ r_added res = [].
Proof.
  intros Hf Hv Hlt. unfold upsert_usage.
  destruct (Z.leb_spec v 0); [lia |]. rewrite Hf.
  destruct (Z.eqb_spec (_usage existing) v); [lia |].
  destruct (Z.ltb_spec (v - _usage existing) 0); [| lia].
  destruct (activate_expire sub now_ts) as [sub' ev].
  eexists. split; [reflexivity |]. simpl. split; [| reflexivity].
  eapply find_replace_first_hit; eauto.
  apply find_some_true in Hf. exact Hf.
Qed.

(** The batch path on a decreased counter: the row is left as it was,
    stale counter included. *)
Lemma bulk_upsert_usages_counter_reset sub usages sub_usages now now_ts node v c record res :
  NoDup (map (fun entry => Node.id (fst entry)) usages) ->
  (node, (v, c)) ∈ usages ->
  find (same_bucket node c) sub_usages = Some record ->
  v < _usage record ->
  bulk_upsert_usages sub usages sub_usages now now_ts = Some res ->
  find (same_bucket node c) (r_rows res) = Some record.
Proof.
  intros Hnd Hin Hf Hlt Hres.
  apply bulk_upsert_usages_inv in Hres as (st & Hrun & -> & _).
  destruct (upsert_entries_focus _ _ _ _ _ _ _ _ Hnd Hin Hrun)
    as (st1 & st2 & H1 & _ & Hstep & H2 & _).
  simpl in H1. rewrite H2. rewrite Hf in H1.
  unfold upsert_entry in Hstep.
  destruct (v <=? 0); [injection Hstep as <-; exact H1 |].
  rewrite H1 in Hstep.
  destruct (Z.eqb_spec (_usage record) v); [lia |]. simpl in Hstep.
  destruct (Z.ltb_spec (v - _usage record) 0); [| lia].
  injection Hstep as <-. exact H1.
Qed.

(** C1, at the third tick of scenario S1: the counter falls from 1000 to
    800.  [upsert_usage] stores 800 and keeps [usage = 500];
    [bulk_upsert_usages] logs the decrease and leaves the row with
    [_usage = 1000], so the next counter 1200 credits 100 bytes where the
    claim (and the single-row path) credit 200. *)
Theorem C1_bulk_path_keeps_stale_counter :
  let sub := Scenario.sub_X 0 in
  let node := Scenario.node_N in
  let row := Scenario.row 500 1000 in
  r_rows <$> upsert_usage [row] sub node 800 Scenario.bucket Scenario.now Scenario.now_ts
    = Some [set_counters 500 800 Scenario.now row]
  /\ r_rows <$> bulk_upsert_usages sub [(node, (800, Scenario.bucket))] [row]
                  Scenario.now Scenario.now_ts
     = Some [row]
  /\ r_rows <$> bulk_upsert_usages sub [(node, (1200, Scenario.bucket))] [row]
                  Scenario.now Scenario.now_ts
     = Some [set_counters 600 1200 Scenario.now row]
  /\ r_rows <$> bulk_upsert_usages sub [(node, (1200, Scenario.bucket))]
                  [set_counters 500 800 Scenario.now row] Scenario.now Scenario.now_ts
     = Some [set_counters 700 1200 Scenario.now row].
Proof. vm_compute. repeat split; reflexivity. Qed.

(** C2 as stated fails: with [usage_rate = 0.5] and a delta of 3 the row
    is credited [int(1.5) = 1] byte on both paths, while
    [round(1.5) = 2]. *)
Lemma C2_counterexample :
  let sub := Scenario.sub_X 0 in
  let node := Scenario.node_N in
  let row := Scenario.row 500 1000 in
  PyFloat.round_mul 3 (PyFloat.or_one (Node.usage_rate node)) = Some 2
  /\ r_rows <$> bulk_upsert_usages sub [(node, (1003, Scenario.bucket))] [row]
                  Scenario.now Scenario.now_ts
     = Some [set_counters (500 + 1) 1003 Scenario.now row]
  /\ r_rows <$> upsert_usage [row] sub node 1003 Scenario.bucket Scenario.now Scenario.now_ts
     = Some [set_counters (500 + 1) 1003 Scenario.now row].
Proof. vm_compute. repeat split; reflexivity. Qed.

(** C2, amended: for an entry with a positive counter and a positive
    delta [d] on an existing row of node [n], the bytes added are
    [int(d * rate)], the binary64 product truncated toward zero, with
    [rate = n.usage_rate or 1.0]; the sum is clamped at 0; [_usage] and
    [updated_at] are updated; both paths compute the same row. *)
Theorem C2_rate_scaling_truncates
    sub usages sub_usages table now now_ts node v c record k res :
  NoDup (map (fun entry => Node.id (fst entry)) usages) ->
  (node, (v, c)) ∈ usages ->
  find (same_bucket node c) sub_usages = Some record ->
  find (existing_row sub node c) table = Some record ->
  0 < v ->
  _usage record < v ->
  PyFloat.int_mul (v - _usage record) (PyFloat.or_one (Node.usage_rate node)) = Some k ->
  bulk_upsert_usages sub usages sub_usages now now_ts = Some res ->
  let record' := set_counters (Z.max 0 (usage record + k)) v now record in
  find (same_bucket node c) (r_rows res) = Some record'
  /\ (exists res1,
        upsert_usage table sub node v c now now_ts = Some res1
        /\ find (existing_row sub node c) (r_rows res1) = Some record')
  /\ 0 <= usage record'.
Proof.
  intros Hnd Hin Hf Hf' Hv Hlt Hk Hres record'. subst record'.
  split; [| split; [| simpl; lia]].
  - apply bulk_upsert_usages_inv in Hres as (st & Hrun & -> & _).
    destruct (upsert_entries_focus _ _ _ _ _ _ _ _ Hnd Hin Hrun)
      as (st1 & st2 & H1 & _ & Hstep & H2 & _).
    simpl in H1. rewrite Hf in H1. rewrite H2.
    unfold upsert_entry in Hstep.
    destruct (Z.leb_spec v 0); [lia |]. rewrite H1 in Hstep.
    destruct (Z.eqb_spec (_usage record) v); [lia |]. simpl in Hstep.
    destruct (Z.ltb_spec (v - _usage record) 0); [lia |].
    rewrite Hk in Hstep. injection Hstep as <-. simpl.
    rewrite clamp_max.
    apply (find_replace_first_hit _ record); [exact H1 |].
    rewrite same_bucket_set_counters. eapply find_some_true; eauto.
  - unfold upsert_usage.
    destruct (Z.leb_spec v 0); [lia |]. rewrite Hf'.
    destruct (Z.eqb_spec (_usage record) v); [lia |].
    destruct (Z.ltb_spec (v - _usage record) 0); [lia |].
    rewrite Hk. destruct (activate_expire sub now_ts) as [sub' ev].
    eexists. split; [reflexivity |]. simpl. rewrite clamp_max.
    apply (find_replace_first_hit _ record); [exact Hf' |].
    apply find_some_true in Hf'. exact Hf'.
Qed.

Lemma C2_witness :
  let sub := Scenario.sub_X 0 in
  let node := Scenario.node_N in
  let row := Scenario.row 500 800 in
  let row' := set_counters 700 1200 Scenario.now row in
  find (same_bucket node Scenario.bucket) [row'] = Some row'
  /\ (exists res1,
        upsert_usage [row] sub node 1200 Scenario.bucket Scenario.now Scenario.now_ts
          = Some res1
        /\ find (existing_row sub node Scenario.bucket) (r_rows res1) = Some row')
  /\ 0 <= usage row'.
Proof.
  intros sub node row row'.
  apply (C2_rate_scaling_truncates sub [(node, (1200, Scenario.bucket))] [row] [row]
           Scenario.now Scenario.now_ts node 1200 Scenario.bucket row 200
           (mkUpserted sub [row'] [] [])).
  - apply NoDup_singleton.
  - apply list_elem_of_here.
  - reflexivity.
  - reflexivity.
  - reflexivity.
  - reflexivity.
  - vm_compute. reflexivity.
  - vm_compute. reflexivity.
Defined.

(** C5 as stated fails: a counter of 0 with no row for the bucket is
    skipped; nothing is inserted. *)
Lemma C5_counterexample :
  r_added <$> bulk_upsert_usages (Scenario.sub_X 0)
                [(Scenario.node_N, (0, Scenario.bucket))] [] Scenario.now Scenario.now_ts
  = Some [].
Proof. vm_compute. reflexivity. Qed.

(** C5, amended: in [bulk_upsert_usages], an entry with a positive
    counter whose bucket matches no row inserts one row with
    [usage = int(counter * rate)] (truncated) and [_usage = counter]; an
    entry with a counter of 0 or less inserts nothing; the rows handed
    over still hold no row for the bucket. *)
Theorem C5_row_insertion sub usages sub_usages now now_ts node v c res :
  NoDup (map (fun entry => Node.id (fst entry)) usages) ->
  (node, (v, c)) ∈ usages ->
  find (same_bucket node c) sub_usages = None ->
  bulk_upsert_usages sub usages sub_usages now now_ts = Some res ->
  find (same_bucket node c) (r_rows res) = None
  /\ (0 < v ->
      exists u,
        PyFloat.int_mul v (PyFloat.or_one (Node.usage_rate node)) = Some u
        /\ List.filter (of_node node) (r_added res)
           = [mk None (Subscription.id sub) (Node.id node) u v c now])
  /\ (v <= 0 -> List.filter (of_node node) (r_added res) = []).
Proof.
  intros Hnd Hin Hf Hres.
  apply bulk_upsert_usages_inv in Hres as (st & Hrun & -> & -> & _).
  destruct (upsert_entries_focus _ _ _ _ _ _ _ _ Hnd Hin Hrun)
    as (st1 & st2 & H1 & A1 & Hstep & H2 & A2).
  simpl in H1, A1. rewrite Hf in H1. rewrite H2, A2.
  unfold upsert_entry in Hstep.
  destruct (Z.leb_spec v 0).
  - injection Hstep as <-. repeat split; [exact H1 | lia | intros _; exact A1].
  - rewrite H1 in Hstep.
    destruct (PyFloat.int_mul v _) as [u|]; [| discriminate].
    injection Hstep as <-. simpl. repeat split; [exact H1 | | lia].
    intros _. exists u. split; [reflexivity |].
    rewrite List.filter_app, A1. simpl. unfold of_node. simpl.
    now rewrite Z.eqb_refl.
Qed.

Lemma C5_witness :
  let sub := Scenario.sub_X 0 in
  let node := Scenario.node_N in
  let new_row := mk None 7 1 500 1000 Scenario.bucket Scenario.now in
  find (same_bucket node Scenario.bucket) [] = None
  /\ (0 < 1000 ->
      exists u,
        PyFloat.int_mul 1000 (PyFloat.or_one (Node.usage_rate node)) = Some u
        /\ List.filter (of_node node) [new_row]
           = [mk None (Subscription.id sub) (Node.id node) u 1000 Scenario.bucket Scenario.now])
  /\ (1000 <= 0 -> List.filter (of_node node) [new_row] = []).
Proof.
  intros sub node new_row.
  apply (C5_row_insertion sub [(node, (1000, Scenario.bucket))] []
           Scenario.now Scenario.now_ts node 1000 Scenario.bucket
           (mkUpserted sub [] [new_row] [])).
  - apply NoDup_singleton.
  - apply list_elem_of_here.
  - reflexivity.
  - vm_compute. reflexivity.
Defined.
End UpsertClaims.

(** ** The expiry predicate (C6) *)

Section Expiry.
Import Subscription.

Lemma expired_spec self now_ts :
  expired self now_ts = true <-> 0 < limit_expire self /\ limit_expire self < now_ts.
Proof.
  unfold expired. destruct (Z.ltb_spec 0 (limit_expire self)).
  - rewrite Z.ltb_lt. tauto.
  - split; [discriminate | lia].
Qed.

(** C6 as stated fails: at the instant [now = limit_expire] the
    subscription is not expired. *)
Lemma C6_counterexample :
  let s := Scenario.sub_X Scenario.now_ts in
  ~ (expired s Scenario.now_ts = true
     <-> 0 < limit_expire s /\ Scenario.now_ts >= limit_expire s).
Proof.
  intros s [_ H]. assert (E : expired s Scenario.now_ts = true).
  { apply H. vm_compute. split; [reflexivity | discriminate]. }
  vm_compute in E. discriminate.
Qed.

(** C6, amended: a subscription is expired iff [limit_expire > 0] and
    [now > limit_expire], strictly, so at [now = limit_expire] it is not
    expired yet; [limit_expire = 0] is never expired; the instance
    predicate, its SQL expression and the tracker's [_expired_expr] agree. *)
Theorem C6_expired_is_strict self now_ts :
  (expired self now_ts = true <-> 0 < limit_expire self /\ limit_expire self < now_ts)
  /\ expired self (limit_expire self) = false
  /\ expired (set_limit_expire 0 self) now_ts = false
  /\ expired self now_ts = expired_expression self now_ts
  /\ expired self now_ts = ReachedTracker._expired_expr now_ts self.
Proof.
  split; [apply expired_spec |]. split; [| split; [reflexivity |]].
  - unfold expired. rewrite Z.ltb_irrefl. now destruct (0 <? _).
  - unfold expired, expired_expression, ReachedTracker._expired_expr.
    destruct (0 <? limit_expire self); auto.
Qed.
End Expiry.

(** ** The admin cache (C10) *)

Section AdminCache.
Import AdminCacheManager.

Lemma write_cached_at self w : _cached_at (write self w) = _cached_at self.
Proof. destruct w; reflexivity. Qed.

Lemma writes_cached_at self ws : _cached_at (foldl write self ws) = _cached_at self.
Proof.
  revert self. induction ws as [|w ws IH]; intros self; simpl; [reflexivity |].
  rewrite IH. apply write_cached_at.
Qed.

Lemma is_expired_after self now :
  (CACHE_TTL < now - _cached_at self)%Q -> is_expired self now = true.
Proof.
  intros H. unfold is_expired. apply negb_true_iff.
  destruct (Qle_bool (now - _cached_at self) CACHE_TTL) eqn:E; [| reflexivity].
  apply Qle_bool_iff in E. exfalso. eapply Qlt_not_le; eauto.
Qed.

(** A write-through update is served while the cache is fresh. *)
Lemma update_then_get_by_id self admin now :
  is_expired self now = false ->
  get_by_id (update self admin) (Admin.id admin) now = Some admin.
Proof.
  intros H. unfold get_by_id. unfold is_expired in *. simpl. rewrite H.
  apply lookup_insert_eq.
Qed.

(** C10: once more than 3000 seconds have passed since [set_all], every
    lookup returns nothing, whatever [update] and [remove] calls came in
    between: they leave [_cached_at] at the time of [set_all]. *)
Theorem C10_ttl_runs_from_set_all self admins (t0 now : Q) writes username admin_id api_key :
  (CACHE_TTL < now - t0)%Q ->
  let cache := foldl write (set_all self admins t0) writes in
  _cached_at cache = t0
  /\ get_by_username cache username now = None
  /\ get_by_id cache admin_id now = None
  /\ get_by_api_key cache api_key now = None.
Proof.
  intros H cache.
  assert (Hc : _cached_at cache = t0) by apply writes_cached_at.
  assert (He : is_expired cache now = true).
  { apply is_expired_after. now rewrite Hc. }
  unfold get_by_username, get_by_id, get_by_api_key. rewrite He. auto.
Qed.

Lemma C10_witness :
  let admin := Admin.mk 1 (Some "owner") (Some "k1") None in
  let admin' := Admin.mk 1 (Some "owner") (Some "k2") None in
  let cache := foldl write (set_all init [admin] 100) [Update admin'] in
  _cached_at cache = 100%Q
  /\ get_by_username cache "owner" 3101 = None
  /\ get_by_id cache 1 3101 = None
  /\ get_by_api_key cache "k2" 3101 = None.
Proof.
  intros admin admin'.
  apply (C10_ttl_runs_from_set_all init [admin] 100 3101 [Update admin'] "owner" 1 "k2").
  reflexivity.
Defined.
End AdminCache.

(** ** Sums over the usage table *)

Section Weights.
Import SubscriptionUsage Store.

Implicit Types (w : SubscriptionUsage.t -> Z) (l : list SubscriptionUsage.t).

Lemma weight_app w l1 l2 : weight w (l1 ++ l2) = weight w l1 + weight w l2.
Proof. induction l1 as [|x l1 IH]; simpl; [reflexivity | rewrite IH; lia]. Qed.


Lemma weight_filter_split w (p : SubscriptionUsage.t -> bool) l :
  weight w l = weight w (List.filter p l) + weight w (List.filter (fun x => negb (p x)) l).
Proof.
  induction l as [|x l IH]; simpl; [reflexivity |].
  destruct (p x); simpl; lia.
  Qed.

Lemma weight_replace_first w (p : SubscriptionUsage.t -> bool) r r' l :
  find p l = Some r -> weight w (replace_first p r' l) = weight w l - w r + w r'.
Proof.
  induction l as [|x l IH]; simpl; [discriminate |].
  destruct (p x); simpl.
  - intros [= ->]. lia.
  - intros H. rewrite (IH H). lia.
  Qed.

Lemma weight_nonneg w l : (forall x, 0 <= w x) -> 0 <= weight w l.
Proof. intros H. induction l as [|x l IH]; simpl; [lia | specialize (H x); lia]. Qed.

Lemma weight_ext w1 w2 l : (forall x, x ∈ l -> w1 x = w2 x) -> weight w1 l = weight w2 l.
Proof.
  induction l as [|x l IH]; simpl; intros H; [reflexivity |].
  rewrite H by left. rewrite IH; [reflexivity |]. intros y Hy. apply H. now right.
  Qed.

Lemma sum_usage_weight l sub_id : sum_usage l sub_id = weight (credited sub_id) l.
Proof.
  unfold sum_usage, weight, credited.
  induction l as [|x l IH]; simpl; [reflexivity |].
  rewrite IH. destruct (subscription_id x =? sub_id); lia.
  Qed.

Lemma credited_nonneg sub_id x : 0 <= credited sub_id x.
Proof. unfold credited. destruct (_ =? _); lia. Qed.

(** Rows of other subscriptions add nothing to the total of this one. *)
Lemma weight_credited_others s l :
  weight (credited (Subscription.id s)) (List.filter (fun x => negb (Account.mine s x)) l) = 0.
Proof.
  induction l as [|x l IH]; simpl; [reflexivity |].
  unfold Account.mine at 1. destruct (subscription_id x =? Subscription.id s) eqn:E; simpl; auto.
  rewrite IH. unfold credited. rewrite E. reflexivity.
  Qed.
End Weights.

(** ** What one turn of the batch loop can do *)

Section LoopFacts.
Import SubscriptionUsage Store.

Implicit Types (sub : Subscription.t) (st : Loop).

Lemma quiet_app e1 e2 : quiet e1 -> quiet e2 -> quiet (e1 ++ e2).
Proof. unfold quiet. intros H1 H2. now rewrite List.filter_app, H1, H2. Qed.



(** With rates that are not negative, no turn lowers what the rows add to
  the total of the subscription. *)
Lemma upsert_entry_credit sub now st st' entry sub_id :
  upsert_entry sub now st entry = Some st' ->
  PyFloat.nonneg (PyFloat.or_one (Node.usage_rate (fst entry))) ->
  loop_weight (credited sub_id) st <= loop_weight (credited sub_id) st'.
Proof.
  destruct entry as [node [v c]]. unfold upsert_entry. simpl. intros H Hr.
  destruct (Z.leb_spec v 0); [injection H as <-; lia |].
  destruct (find (same_bucket node c) (rows st)) as [record|] eqn:Hf.
  - destruct (Z.eqb_spec (_usage record) v); simpl in H; [injection H as <-; lia |].
    destruct (Z.ltb_spec (v - _usage record) 0); [injection H as <-; unfold loop_weight; simpl; lia |].
    destruct (PyFloat.int_mul _ _) as [k|] eqn:Hk; [| discriminate].
    injection H as <-. unfold loop_weight. simpl.
    rewrite (weight_replace_first _ _ record) by assumption.
    apply int_mul_nonneg in Hk; [| lia | assumption].
    unfold credited. simpl. rewrite clamp_max.
    destruct (subscription_id record =? sub_id); lia.
  - destruct (PyFloat.int_mul _ _) as [u|]; [| discriminate].
    injection H as <-. unfold loop_weight. simpl. rewrite weight_app. simpl.
    pose proof (credited_nonneg sub_id
                  (mk None (Subscription.id sub) (Node.id node) u v c now)). lia.
  Qed.

Lemma upsert_entries_credit sub now usages st st' sub_id :
  upsert_entries sub now usages st = Some st' ->
  Forall (fun node => PyFloat.nonneg (PyFloat.or_one (Node.usage_rate node))) (map fst usages) ->
  loop_weight (credited sub_id) st <= loop_weight (credited sub_id) st'.
Proof.
  revert st. induction usages as [|entry usages IH]; simpl; intros st.
  - intros [= <-] _. lia.
  - destruct (upsert_entry sub now st entry) as [st1|] eqn:H1; [| discriminate].
    intros H Hall. apply Forall_cons in Hall as [Hr Hall].
    pose proof (upsert_entry_credit _ _ _ _ _ sub_id H1 Hr).
    pose proof (IH _ H Hall). lia.
  Qed.
End LoopFacts.

(** ** Pending expiry (C4) *)

Section PendingExpiry.
Import SubscriptionUsage Store Account.







End PendingExpiry.


(** ** The rows of the auto-renewal query *)

Section Candidates.
Import ReachedTracker.

Lemma elem_of_candidates_query db now_ts row :
  row ∈ candidates_query db now_ts <->
  exists s r,
    s ∈ subscriptions db /\ r ∈ subscription_auto_renewals db
    /\ SubscriptionAutoRenewal.subscription_id r = Subscription.id s
    /\ reached_and_over now_ts s = true
    /\ rn (subscription_auto_renewals db) r = 1
    /\ row = mkRow (Subscription.id s) (Subscription.total_usage s)
               (SubscriptionAutoRenewal.id r) (SubscriptionAutoRenewal.limit_usage r)
               (SubscriptionAutoRenewal.limit_expire r) (SubscriptionAutoRenewal.reset_usage r).
Proof.
  unfold candidates_query. rewrite list_elem_of_In, in_flat_map. split.
  - intros (s & Hs & Hrow). apply in_flat_map in Hrow as (r & Hr & Hrow).
    exists s, r. rewrite !list_elem_of_In.
    destruct (Z.eqb_spec (SubscriptionAutoRenewal.subscription_id r) (Subscription.id s));
      simpl in Hrow; [| contradiction].
    destruct (reached_and_over now_ts s); simpl in Hrow; [| contradiction].
    destruct (Z.eqb_spec (rn (subscription_auto_renewals db) r) 1);
      simpl in Hrow; [| contradiction].
    destruct Hrow as [<-|[]]. auto 10.
  - intros (s & r & Hs & Hr & Hsid & Hq & Hrn & ->).
    exists s. rewrite <- list_elem_of_In. split; [assumption |].
    apply in_flat_map. exists r. rewrite <- list_elem_of_In. split; [assumption |].
    rewrite Hsid, Z.eqb_refl, Hq, Hrn. simpl. now left.
Qed.

Lemma payload_of_resets_to now_utc now_ts row :
  resets_to (total_usage row) (payload_of now_utc now_ts row).
Proof. unfold resets_to, payload_of. simpl. destruct (renewal_reset_usage row); auto. Qed.

Lemma set_payload_counters p s T :
  resets_to T p ->
  Subscription.total_usage s = T ->
  default 0 (Subscription.reset_usage s) <= T ->
  Subscription.id (set_payload p s) = Subscription.id s
  /\ Subscription.total_usage (set_payload p s) = T
  /\ default 0 (Subscription.reset_usage (set_payload p s)) <= T.
Proof.
  unfold resets_to, set_payload. intros Hp Ht Hr.
  destruct (p_reset_usage p) as [u|], (p_last_reset_at p); simpl;
    repeat split; try assumption; destruct Hp as [Hp|Hp]; try discriminate;
    injection Hp as ->; simpl; lia.
Qed.

Lemma updates_keep_counters T i payloads subs :
  Forall (resets_to T) payloads ->
  Forall (fun s => Subscription.id s = i /\ Subscription.total_usage s = T
                   /\ default 0 (Subscription.reset_usage s) <= T) subs ->
  Forall (fun s => Subscription.id s = i /\ Subscription.total_usage s = T
                   /\ default 0 (Subscription.reset_usage s) <= T)
    (foldl (fun subs p => update_by_id p subs) subs payloads).
Proof.
  intros Hp. revert subs. induction Hp as [|p payloads Hp _ IH]; simpl; intros subs Hs.
  - assumption.
  - apply IH. unfold update_by_id. apply Forall_fmap.
    eapply Forall_impl; [exact Hs |]. simpl. intros s (Hi & Ht & Hr).
    destruct (Subscription.id s =? p_id p); [| auto].
    destruct (set_payload_counters p s T Hp Ht Hr) as (-> & -> & H). auto.
Qed.
End Candidates.

(** ** Usage is never negative (C7) *)

Section NonNegativeUsage.
Import SubscriptionUsage Store Account.

Lemma activate_expire_counters s now_ts :
  Subscription.id (fst (activate_expire s now_ts)) = Subscription.id s
  /\ Subscription.reset_usage (fst (activate_expire s now_ts)) = Subscription.reset_usage s
  /\ Subscription.total_usage (fst (activate_expire s now_ts)) = Subscription.total_usage s.
Proof. unfold activate_expire. destruct (_ && _); simpl; auto. Qed.

Lemma sum_usage_mine s tbl :
  sum_usage tbl (Subscription.id s)
  = weight (credited (Subscription.id s)) (List.filter (mine s) tbl).
Proof.
  rewrite sum_usage_weight, (weight_filter_split _ (mine s) tbl), weight_credited_others. lia.
Qed.

(** Each core operation keeps the counters in step, as long as the usage
    rates it reads are not negative. *)
Lemma apply_balanced a op a' :
  balanced a -> rates_nonneg op -> apply a op = Some a' -> balanced a'.
Proof.
  unfold balanced. intros [Hr Ht] Hrates.
  destruct op as [usages now now_ts|node v c now now_ts| |now|now_utc now_ts]; unfold apply.
  - destruct (bulk_upsert_usages _ _ _ _ _) as [r|] eqn:Hb; [| discriminate].
    intros [= <-]. simpl.
    apply bulk_upsert_usages_inv in Hb as (st & Hrun & Hrows & Hadd & Hsub & _).
    pose proof (upsert_entries_credit _ _ _ _ _ (Subscription.id (sub a)) Hrun Hrates) as Hw.
    unfold loop_weight in Hw. simpl in Hw.
    destruct (activate_expire_counters (sub a) now_ts) as (Ei & Er & Et).
    assert (E : Subscription.id (r_sub r) = Subscription.id (sub a)
                /\ Subscription.reset_usage (r_sub r) = Subscription.reset_usage (sub a)
                /\ Subscription.total_usage (r_sub r) = Subscription.total_usage (sub a)).
    { rewrite Hsub. destruct (changed st); auto. }
    destruct E as (-> & -> & ->). split; [assumption |].
    rewrite sum_usage_mine in Ht.
    rewrite sum_usage_weight. unfold flushed. rewrite !weight_app, weight_credited_others.
    rewrite Hrows, Hadd. lia.
  - destruct (upsert_usage _ _ _ _ _ _ _) as [r|] eqn:Hu; [| discriminate].
    intros [= <-]. simpl. unfold upsert_usage in Hu.
    destruct (activate_expire_counters (sub a) now_ts) as (Ei & Er & Et).
    destruct (activate_expire (sub a) now_ts) as [sub' ev]. simpl in Ei, Er, Et.
    rewrite sum_usage_weight in Ht.
    destruct (Z.leb_spec v 0).
    { injection Hu as <-. unfold flushed. simpl. rewrite app_nil_r, sum_usage_weight. auto. }
    destruct (find _ (table a)) as [existing|] eqn:Hf.
    + destruct (Z.eqb_spec (_usage existing) v).
      { injection Hu as <-. unfold flushed. simpl. rewrite app_nil_r, sum_usage_weight. auto. }
      destruct (Z.ltb_spec (v - _usage existing) 0).
      * injection Hu as <-. unfold flushed. simpl. rewrite Ei, Er, Et.
        split; [assumption |].
        rewrite app_nil_r, sum_usage_weight, (weight_replace_first _ _ existing) by assumption.
        change (credited (Subscription.id (sub a)) (set_counters (usage existing) v now existing))
          with (credited (Subscription.id (sub a)) existing).
        lia.
      * destruct (PyFloat.int_mul _ _) as [k|] eqn:Hk; [| discriminate].
        injection Hu as <-. unfold flushed. simpl. rewrite Ei, Er, Et.
        split; [assumption |].
        rewrite app_nil_r, sum_usage_weight, (weight_replace_first _ _ existing) by assumption.
        apply Forall_cons in Hrates as [Hrate _].
        apply int_mul_nonneg in Hk; [| lia | assumption].
        assert (credited (Subscription.id (sub a)) existing
                <= credited (Subscription.id (sub a))
                     (set_counters (clamp (usage existing + k)) v now existing)).
        { unfold credited. simpl. rewrite clamp_max.
          destruct (subscription_id existing =? _); lia. }
        lia.
    + destruct (PyFloat.int_mul _ _) as [u|]; [| discriminate].
      injection Hu as <-. unfold flushed. simpl. rewrite Ei, Er, Et.
      split; [assumption |].
      rewrite sum_usage_weight, weight_app. simpl.
      pose proof (credited_nonneg (Subscription.id (sub a))
                    (SubscriptionUsage.mk None (Subscription.id (sub a)) (Node.id node) u v c now)).
      lia.
  - intros [= <-]. simpl. lia.
  - intros [= <-]. simpl. lia.
  - intros [= <-]. simpl.
    unfold ReachedTracker._process_auto_renewals_batch.
    set (rows := ReachedTracker.candidates_query _ _).
    assert (Hrows : Forall (ReachedTracker.resets_to (Subscription.total_usage (sub a)))
                      (map (ReachedTracker.payload_of now_utc now_ts) rows)).
    { apply Forall_fmap, Forall_forall. intros row Hrow. simpl.
      apply elem_of_candidates_query in Hrow as (s & r & Hs & _ & _ & _ & _ & ->).
      apply list_elem_of_singleton in Hs as ->.
      apply payload_of_resets_to. }
    pose proof (updates_keep_counters _ (Subscription.id (sub a)) _ [sub a] Hrows) as Hk.
    destruct rows as [|row rows]; simpl; [auto |].
    simpl in Hk.
    match goal with |- context [List.hd _ ?l] => set (subs' := l) in * end.
    assert (Hall : Forall (fun s => Subscription.id s = Subscription.id (sub a)
                     /\ Subscription.total_usage s = Subscription.total_usage (sub a)
                     /\ default 0 (Subscription.reset_usage s) <= Subscription.total_usage (sub a))
                     subs').
    { apply Hk. repeat constructor. assumption. }
    destruct subs' as [|s' rest]; simpl; [auto |].
    apply Forall_cons in Hall as [(-> & -> & H) _]. auto.
Qed.

(** C7, amended: as long as no usage rate read is negative, every core
    operation (usage upsert on either path, refresh of the cached totals,
    usage reset, auto-renewal with or without reset) keeps
    [reset_usage <= total_usage <= sum of max(usage, 0)] over the rows of
    the subscription, a relation a new subscription starts in; hence
    [current_usage >= 0] after every operation. *)
Theorem C7_usage_never_negative a ops a' :
  balanced a ->
  Forall rates_nonneg ops ->
  run a ops = Some a' ->
  balanced a' /\ 0 <= Subscription.current_usage (sub a').
Proof.
  intros Hb Hall. revert a Hb.
  induction Hall as [|op ops Hop Hall IH]; simpl; intros a Hb.
  - intros [= <-]. split; [assumption |].
    unfold Subscription.current_usage. destruct Hb. lia.
  - destruct (apply a op) as [a1|] eqn:H1; [| discriminate].
    apply IH. eapply apply_balanced; eauto.
Qed.

Lemma C7_witness :
  exists a',
    run Scenario.metered_on_N Scenario.reset_then_meter = Some a'
    /\ balanced a' /\ 0 <= Subscription.current_usage (sub a').
Proof.
  eexists. split; [vm_compute; reflexivity |].
  eapply (C7_usage_never_negative Scenario.metered_on_N Scenario.reset_then_meter).
  - vm_compute. split; discriminate.
  - repeat constructor.
  - vm_compute. reflexivity.
Defined.

(** C7 as stated fails: a node may carry a negative usage rate.  After a
    reset at 500 bytes, a delta of 100 at rate [-1.0] lowers the row to
    400, the refresh caches 400, and [current_usage] is [-100]. *)
Lemma C7_counterexample :
  balanced Scenario.metered_account
  /\ exists a',
       run Scenario.metered_account Scenario.reset_then_negative_rate = Some a'
       /\ Subscription.current_usage (sub a') = -100.
Proof.
  split; [vm_compute; split; discriminate |].
  eexists. split; vm_compute; reflexivity.
Qed.
End NonNegativeUsage.

(** ** The auto-renewal batch (C3) *)

Section AutoRenewal.
Import ReachedTracker.

Implicit Types (db : DB) (s : Subscription.t) (r : SubscriptionAutoRenewal.t).

Lemma NoDup_map_eq {A B} (f : A -> B) (l : list A) x y :
  NoDup (map f l) -> x ∈ l -> y ∈ l -> f x = f y -> x = y.
Proof.
  induction l as [|a l IH]; simpl; intros Hnd Hx Hy Hf; [inversion Hx |].
  apply NoDup_cons in Hnd as [Ha Hnd].
  apply elem_of_cons in Hx as [->|Hx], Hy as [->|Hy]; auto.
  - exfalso. apply Ha. rewrite Hf. now apply list_elem_of_fmap_2.
  - exfalso. apply Ha. rewrite <- Hf. now apply list_elem_of_fmap_2.
Qed.

Lemma flat_map_none {A B} (p : A -> bool) (f : A -> B) (l : list A) :
  (forall x, x ∈ l -> p x = false) ->
  flat_map (fun x => if p x then [f x] else []) l = [].
Proof.
  induction l as [|a l IH]; simpl; intros H; [reflexivity |].
  rewrite (H a) by left. simpl. apply IH. intros x Hx. apply H. now right.
Qed.

Lemma find_none_all {A} (p : A -> bool) (l : list A) :
  (forall x, x ∈ l -> p x = false) -> find p l = None.
Proof.
  induction l as [|a l IH]; simpl; intros H; [reflexivity |].
  rewrite (H a) by left. apply IH. intros x Hx. apply H. now right.
Qed.

(** A condition that at most one row meets selects what [find] finds. *)
Lemma flat_map_unique {A B} (p : A -> bool) (f : A -> B) (l : list A) :
  NoDup l ->
  (forall x y, x ∈ l -> y ∈ l -> p x = true -> p y = true -> x = y) ->
  flat_map (fun x => if p x then [f x] else []) l
  = match find p l with Some x => [f x] | None => [] end.
Proof.
  induction l as [|a l IH]; simpl; intros Hnd Huniq; [reflexivity |].
  apply NoDup_cons in Hnd as [Ha Hnd].
  destruct (p a) eqn:Hpa; simpl.
  - rewrite flat_map_none; [reflexivity |].
    intros x Hx. destruct (p x) eqn:Hpx; [| reflexivity].
    exfalso. apply Ha. rewrite (Huniq a x); auto; [left | now right].
  - apply IH; [assumption |]. intros x y Hx Hy. apply Huniq; now right.
Qed.

(** Rank 1 is the least id of the partition. *)
Lemma rn_one_iff renewals r :
  rn renewals r = 1 <->
  forall r', r' ∈ renewals ->
    SubscriptionAutoRenewal.subscription_id r' = SubscriptionAutoRenewal.subscription_id r ->
    SubscriptionAutoRenewal.id r <= SubscriptionAutoRenewal.id r'.
Proof.
  unfold rn. split.
  - intros H r' Hr' Hsid.
    destruct (Z.lt_ge_cases (SubscriptionAutoRenewal.id r') (SubscriptionAutoRenewal.id r))
      as [Hlt|]; [| lia].
    exfalso. assert (Hnil : filter
      (fun r' => (SubscriptionAutoRenewal.subscription_id r'
                    =? SubscriptionAutoRenewal.subscription_id r)
                 && (SubscriptionAutoRenewal.id r' <? SubscriptionAutoRenewal.id r) = true)
      renewals = []).
    { apply length_zero_iff_nil. lia. }
    eapply (filter_nil_not_elem_of _ _ r' Hnil); [| exact Hr'].
    simpl. apply andb_true_iff. split; [now apply Z.eqb_eq | now apply Z.ltb_lt].
  - intros H.
    assert (Hnil : filter
      (fun r' => (SubscriptionAutoRenewal.subscription_id r'
                    =? SubscriptionAutoRenewal.subscription_id r)
                 && (SubscriptionAutoRenewal.id r' <? SubscriptionAutoRenewal.id r) = true)
      renewals = []).
    { destruct (filter _ renewals) as [|x l] eqn:E; [reflexivity |].
      assert (Hx : x ∈ filter
        (fun r' => (SubscriptionAutoRenewal.subscription_id r'
                      =? SubscriptionAutoRenewal.subscription_id r)
                   && (SubscriptionAutoRenewal.id r' <? SubscriptionAutoRenewal.id r) = true)
        renewals) by (rewrite E; left).
      apply list_elem_of_filter in Hx as [Hp Hx]. simpl in Hp.
      apply andb_true_iff in Hp as [Hs Hl].
      apply Z.eqb_eq in Hs. apply Z.ltb_lt in Hl. specialize (H x Hx Hs). lia. }
    rewrite Hnil. reflexivity.
Qed.

Lemma ranked_first_iff db s r :
  r ∈ subscription_auto_renewals db ->
  (ranked_first db s r = true <-> first_in_queue db s r).
Proof.
  intros Hr. unfold ranked_first, first_in_queue.
  rewrite andb_true_iff, Z.eqb_eq, Z.eqb_eq, rn_one_iff. split.
  - intros [Hs H]. repeat split; auto. intros r' Hr' Hs'. apply H; congruence.
  - intros (_ & Hs & H). split; [assumption |]. intros r' Hr' Hs'. apply H; congruence.
Qed.

Lemma first_in_queue_unique db s r1 r2 :
  NoDup (map SubscriptionAutoRenewal.id (subscription_auto_renewals db)) ->
  first_in_queue db s r1 -> first_in_queue db s r2 -> r1 = r2.
Proof.
  intros Hnd (H1 & S1 & M1) (H2 & S2 & M2).
  apply (NoDup_map_eq SubscriptionAutoRenewal.id _ _ _ Hnd H1 H2).
  specialize (M1 r2 H2 S2). specialize (M2 r1 H1 S1). lia.
Qed.

Lemma joined_first db now_ts s r :
  NoDup (map SubscriptionAutoRenewal.id (subscription_auto_renewals db)) ->
  reached_and_over now_ts s = true ->
  first_in_queue db s r ->
  joined db now_ts s = Some r.
Proof.
  intros Hnd Hq Hfirst. unfold joined. rewrite Hq.
  destruct (find _ _) as [r0|] eqn:Hf.
  - apply List.find_some in Hf as [Hin Hp]. apply list_elem_of_In in Hin.
    apply ranked_first_iff in Hp; [| assumption].
    f_equal. eapply first_in_queue_unique; eauto.
  - exfalso. pose proof Hfirst as (Hin & _).
    eapply List.find_none in Hf; [| apply list_elem_of_In; exact Hin].
    apply ranked_first_iff in Hfirst; [congruence | assumption].
Qed.

Lemma joined_some db now_ts s r :
  joined db now_ts s = Some r ->
  reached_and_over now_ts s = true /\ first_in_queue db s r.
Proof.
  unfold joined. destruct (reached_and_over now_ts s); [| discriminate].
  intros Hf. apply List.find_some in Hf as [Hin Hp]. apply list_elem_of_In in Hin.
  split; [reflexivity |]. now apply ranked_first_iff.
Qed.

Lemma joined_none db now_ts s :
  reached_and_over now_ts s = false
  \/ (forall r, r ∈ subscription_auto_renewals db ->
        SubscriptionAutoRenewal.subscription_id r <> Subscription.id s) ->
  joined db now_ts s = None.
Proof.
  unfold joined. intros [->|H]; [reflexivity |].
  destruct (reached_and_over now_ts s); [| reflexivity].
  apply find_none_all. intros r Hr. unfold ranked_first.
  destruct (Z.eqb_spec (SubscriptionAutoRenewal.subscription_id r) (Subscription.id s));
    [exfalso; eapply H; eauto | reflexivity].
Qed.
Lemma candidates_by_sub db now_ts :
  NoDup (map SubscriptionAutoRenewal.id (subscription_auto_renewals db)) ->
  candidates_query db now_ts
  = flat_map (fun s => match joined db now_ts s with
                       | Some r => [row_of s r]
                       | None => []
                       end) (subscriptions db).
Proof.
  intros Hnd. unfold candidates_query. apply flat_map_ext. intros s.
  unfold joined. destruct (reached_and_over now_ts s) eqn:Hq.
  - rewrite <- (flat_map_unique (ranked_first db s) (row_of s)).
    + apply flat_map_ext. intros r. unfold ranked_first. now rewrite andb_true_r.
    + eapply NoDup_fmap_1. exact Hnd.
    + intros x y Hx Hy Px Py. apply ranked_first_iff in Px, Py; try assumption.
      eapply first_in_queue_unique; eauto.
  - apply flat_map_none with (p := fun r => _). intros r _.
    now rewrite andb_false_r.
Qed.

Lemma set_payload_id p s : Subscription.id (set_payload p s) = Subscription.id s.
Proof. unfold set_payload. destruct (p_reset_usage p), (p_last_reset_at p); reflexivity. Qed.

Lemma set_payload_renewed now_utc now_ts s r :
  set_payload (payload_of now_utc now_ts (row_of s r)) s = renewed now_utc now_ts r s.
Proof.
  unfold set_payload, payload_of, renewed, row_of. simpl.
  destruct (SubscriptionAutoRenewal.reset_usage r); reflexivity.
Qed.

(** Updating by primary key, one payload at most per subscription, is a
    map over the table. *)
Lemma updates_by_sub (g : Subscription.t -> option Payload) L cur :
  (forall s p, g s = Some p -> p_id p = Subscription.id s) ->
  NoDup (map Subscription.id L) ->
  foldl (fun subs p => update_by_id p subs) cur
    (flat_map (fun s => match g s with Some p => [p] | None => [] end) L)
  = map (fun s =>
           match find (fun s0 => Subscription.id s0 =? Subscription.id s) L with
           | Some s0 => match g s0 with Some p => set_payload p s | None => s end
           | None => s
           end) cur.
Proof.
  intros Hg. revert cur. induction L as [|s0 L IH]; simpl; intros cur Hnd.
  - symmetry. apply map_id.
  - apply NoDup_cons in Hnd as [Hs0 Hnd].
    assert (Hfresh : forall s, Subscription.id s = Subscription.id s0 ->
              find (fun s1 => Subscription.id s1 =? Subscription.id s) L = None).
    { intros s Hs. apply find_none_all. intros x Hx. apply Z.eqb_neq. intros E.
      apply Hs0. rewrite <- Hs, <- E. now apply list_elem_of_fmap_2. }
    rewrite foldl_app, IH by assumption.
    destruct (g s0) as [p|] eqn:Hp; simpl.
    + unfold update_by_id. rewrite map_map. apply map_ext. intros s.
      rewrite (Hg _ _ Hp). rewrite (Z.eqb_sym (Subscription.id s0)).
      destruct (Z.eqb_spec (Subscription.id s) (Subscription.id s0)) as [E|E]; [| reflexivity].
      rewrite Hp, Hfresh; [reflexivity |]. now rewrite set_payload_id.
    + apply map_ext. intros s. rewrite (Z.eqb_sym (Subscription.id s0)).
      destruct (Z.eqb_spec (Subscription.id s) (Subscription.id s0)) as [E|E]; [| reflexivity].
      now rewrite Hp, Hfresh.
Qed.

Lemma find_by_id subs s :
  NoDup (map Subscription.id subs) -> s ∈ subs ->
  find (fun s0 => Subscription.id s0 =? Subscription.id s) subs = Some s.
Proof.
  intros Hnd Hs. destruct (find _ subs) as [s0|] eqn:Hf.
  - apply List.find_some in Hf as [Hin E]. apply Z.eqb_eq in E.
    f_equal. apply (NoDup_map_eq Subscription.id subs); auto. now apply list_elem_of_In.
  - eapply List.find_none in Hf; [| apply list_elem_of_In; exact Hs].
    now rewrite Z.eqb_refl in Hf.
Qed.

Lemma filter_not_in_nil {A} (f : A -> Z) (l : list A) : filter (fun x => f x ∉ []) l = l.
Proof.
  induction l as [|x l IH]; [reflexivity |].
  rewrite filter_cons_True; [now rewrite IH | apply not_elem_of_nil].
Qed.

(** The database the batch leaves, whether or not a row qualified. *)
Lemma batch_db db now_utc now_ts :
  fst (_process_auto_renewals_batch db now_utc now_ts)
  = mkDB (foldl (fun subs p => update_by_id p subs) (subscriptions db)
            (map (payload_of now_utc now_ts) (candidates_query db now_ts)))
         (filter (fun r => SubscriptionAutoRenewal.id r ∉ map renewal_id (candidates_query db now_ts))
            (subscription_auto_renewals db)).
Proof.
  unfold _process_auto_renewals_batch.
  destruct (candidates_query db now_ts) as [|row rows]; [| reflexivity].
  simpl. rewrite filter_not_in_nil. now destruct db.
Qed.

Lemma batch_subscriptions db now_utc now_ts :
  NoDup (map Subscription.id (subscriptions db)) ->
  NoDup (map SubscriptionAutoRenewal.id (subscription_auto_renewals db)) ->
  subscriptions (fst (_process_auto_renewals_batch db now_utc now_ts))
  = map (fun s => match joined db now_ts s with
                  | Some r => renewed now_utc now_ts r s
                  | None => s
                  end) (subscriptions db).
Proof.
  intros Hs Hr. rewrite batch_db. simpl. rewrite candidates_by_sub by assumption.
  rewrite flat_map_concat_map, concat_map, map_map, <- flat_map_concat_map.
  erewrite flat_map_ext.
  2:{ intros s. instantiate (1 := fun s =>
        match joined_payload db now_utc now_ts s with Some p => [p] | None => [] end).
      unfold joined_payload. simpl. now destruct (joined db now_ts s). }
  rewrite updates_by_sub; [| | assumption].
  - apply map_ext_in. intros s Hin. apply list_elem_of_In in Hin.
    rewrite find_by_id by assumption. unfold joined_payload.
    destruct (joined db now_ts s); [apply set_payload_renewed | reflexivity].
  - intros s p. unfold joined_payload. destruct (joined db now_ts s); [| discriminate].
    now intros [= <-].
Qed.

Lemma batch_deletes db now_utc now_ts r :
  NoDup (map SubscriptionAutoRenewal.id (subscription_auto_renewals db)) ->
  r ∈ subscription_auto_renewals db ->
  (r ∈ subscription_auto_renewals (fst (_process_auto_renewals_batch db now_utc now_ts))
   <-> ~ exists s, s ∈ subscriptions db /\ joined db now_ts s = Some r).
Proof.
  intros Hnd Hr. rewrite batch_db. simpl. rewrite list_elem_of_filter. split.
  - intros [Hnot _] (s & Hs & Hj). apply Hnot.
    apply joined_some in Hj as (Hq & Hfirst).
    apply list_elem_of_fmap. exists (row_of s r). split; [reflexivity |].
    apply elem_of_candidates_query. exists s, r.
    pose proof Hfirst as (_ & Hsid & _).
    apply ranked_first_iff in Hfirst; [| assumption].
    apply andb_true_iff in Hfirst as [_ Hrn]. apply Z.eqb_eq in Hrn. auto 10.
  - intros Hnone. split; [| assumption]. intros Hin.
    apply list_elem_of_fmap in Hin as (row & Hid & Hrow).
    apply elem_of_candidates_query in Hrow as (s & r' & Hs & Hr' & Hsid & Hq & Hrn & ->).
    simpl in Hid.
    assert (r' = r) as ->.
    { eapply NoDup_map_eq; eauto. }
    apply Hnone. exists s. split; [assumption |].
    apply joined_first; try assumption.
    apply ranked_first_iff; [assumption |].
    unfold ranked_first. now rewrite Hsid, Hrn, !Z.eqb_refl.
Qed.
Example scenario_S2 :
  fst (_process_auto_renewals_batch Scenario.db_S2 Scenario.now Scenario.now_ts)
  = mkDB [renewed Scenario.now Scenario.now_ts Scenario.renewal_A Scenario.sub_S2]
         [Scenario.renewal_B].
Proof. vm_compute. reflexivity. Qed.

(** C3: one call of the batch, the only one of a tracker tick.  A
    subscription that is not removed, is reached and is still limited or
    expired, and has a renewal queued, takes its renewal of least id: its
    fields become those the renewal prescribes, that renewal is deleted and
    every other renewal of the subscription stays, each with a larger id.
    Any other subscription, and its queue, is left as it was.  No renewal is
    created. *)
Theorem C3_auto_renewal_fifo db now_utc now_ts i s :
  NoDup (map Subscription.id (subscriptions db)) ->
  NoDup (map SubscriptionAutoRenewal.id (subscription_auto_renewals db)) ->
  subscriptions db !! i = Some s ->
  let db' := fst (_process_auto_renewals_batch db now_utc now_ts) in
  (forall r,
     reached_and_over now_ts s = true -> first_in_queue db s r ->
     subscriptions db' !! i = Some (renewed now_utc now_ts r s)
     /\ (r ∉ subscription_auto_renewals db')
     /\ (forall r', r' ∈ subscription_auto_renewals db ->
           SubscriptionAutoRenewal.subscription_id r' = Subscription.id s -> r' <> r ->
           r' ∈ subscription_auto_renewals db'
           /\ SubscriptionAutoRenewal.id r < SubscriptionAutoRenewal.id r'))
  /\ (reached_and_over now_ts s = false
       \/ (forall r, r ∈ subscription_auto_renewals db ->
             SubscriptionAutoRenewal.subscription_id r <> Subscription.id s) ->
      subscriptions db' !! i = Some s
      /\ (forall r', r' ∈ subscription_auto_renewals db ->
            SubscriptionAutoRenewal.subscription_id r' = Subscription.id s ->
            r' ∈ subscription_auto_renewals db'))
  /\ (forall r', r' ∈ subscription_auto_renewals db' -> r' ∈ subscription_auto_renewals db).
Proof.
  intros Hs Hr Hi db'.
  assert (Hin : s ∈ subscriptions db) by (eapply list_elem_of_lookup_2; eauto).
  assert (Hsubs : forall j, joined db now_ts s = j ->
            subscriptions db' !! i
            = Some (match j with Some r => renewed now_utc now_ts r s | None => s end)).
  { intros j <-. unfold db'. rewrite batch_subscriptions by assumption.
    change (map ?f ?l) with (f <$> l). now rewrite list_lookup_fmap, Hi. }
  assert (Hother : forall s2 r', s2 ∈ subscriptions db -> joined db now_ts s2 = Some r' ->
            SubscriptionAutoRenewal.subscription_id r' = Subscription.id s -> s2 = s).
  { intros s2 r' Hs2 Hj Hsid. apply joined_some in Hj as (_ & _ & Hsid2 & _).
    apply (NoDup_map_eq Subscription.id (subscriptions db)); auto. congruence. }
  split; [| split].
  - intros r Hq Hfirst. pose proof (joined_first _ _ _ _ Hr Hq Hfirst) as Hj.
    split; [exact (Hsubs _ Hj) |]. split.
    + intros Hr'. unfold db' in Hr'. apply batch_deletes in Hr'; [| assumption | apply Hfirst].
      apply Hr'. eauto.
    + intros r' Hr' Hsid Hne. split.
      * unfold db'. apply batch_deletes; [assumption | assumption |].
        intros (s2 & Hs2 & Hj2).
        assert (s2 = s) as -> by eauto. congruence.
      * destruct Hfirst as (Hrin & Hrsid & Hmin). specialize (Hmin r' Hr' Hsid).
        destruct (Z.eq_dec (SubscriptionAutoRenewal.id r) (SubscriptionAutoRenewal.id r'))
          as [E|E]; [| lia].
        exfalso. apply Hne. symmetry.
        apply (NoDup_map_eq SubscriptionAutoRenewal.id (subscription_auto_renewals db)); auto.
  - intros Hnone. pose proof (joined_none db now_ts s Hnone) as Hj.
    split; [exact (Hsubs _ Hj) |]. intros r' Hr' Hsid.
    unfold db'. apply batch_deletes; [assumption | assumption |].
    intros (s2 & Hs2 & Hj2). assert (s2 = s) as -> by eauto. congruence.
  - intros r'. unfold db'. rewrite batch_db. simpl. rewrite list_elem_of_filter. tauto.
Qed.

Lemma C3_witness :
  let db := Scenario.db_S2 in
  let s := Scenario.sub_S2 in
  let db' := fst (_process_auto_renewals_batch db Scenario.now Scenario.now_ts) in
  (forall r,
     reached_and_over Scenario.now_ts s = true -> first_in_queue db s r ->
     subscriptions db' !! 0%nat = Some (renewed Scenario.now Scenario.now_ts r s)
     /\ (r ∉ subscription_auto_renewals db')
     /\ (forall r', r' ∈ subscription_auto_renewals db ->
           SubscriptionAutoRenewal.subscription_id r' = Subscription.id s -> r' <> r ->
           r' ∈ subscription_auto_renewals db'
           /\ SubscriptionAutoRenewal.id r < SubscriptionAutoRenewal.id r'))
  /\ (reached_and_over Scenario.now_ts s = false
       \/ (forall r, r ∈ subscription_auto_renewals db ->
             SubscriptionAutoRenewal.subscription_id r <> Subscription.id s) ->
      subscriptions db' !! 0%nat = Some s
      /\ (forall r', r' ∈ subscription_auto_renewals db ->
            SubscriptionAutoRenewal.subscription_id r' = Subscription.id s ->
            r' ∈ subscription_auto_renewals db'))
  /\ (forall r', r' ∈ subscription_auto_renewals db' -> r' ∈ subscription_auto_renewals db).
Proof.
  intros db s.
  apply (C3_auto_renewal_fifo db Scenario.now Scenario.now_ts 0%nat s).
  - apply NoDup_singleton.
  - apply (bool_decide_unpack _). vm_compute. reflexivity.
  - reflexivity.
Defined.
End AutoRenewal.

(** ** The reconciler's clean-up (C8) *)

Section GarbageCollection.
Import SubsTracker.
Context {Configs : Type}.

Implicit Types (subs : list Subscription.t) (nodes_data : NodesData Configs)
  (node : Node.t) (username : string) (calls : list (Call Configs)).

Lemma deletes_issued_app calls1 calls2 :
  deletes_issued (calls1 ++ calls2) = deletes_issued calls1 ++ deletes_issued calls2.
Proof. unfold deletes_issued. apply flat_map_app. Qed.

Lemma deletes_issued_flat_map {A} (f : A -> list (Call Configs)) (l : list A) :
  deletes_issued (flat_map f l) = flat_map (fun x => deletes_issued (f x)) l.
Proof.
  induction l as [|x l IH]; simpl; [reflexivity |].
  now rewrite deletes_issued_app, IH.
Qed.

(** The per-subscription decisions never delete a user. *)
Lemma sync_sub_on_node_no_delete node (configs : Configs) sub user now_ts :
  deletes_issued (sync_sub_on_node node configs sub user now_ts) = [].
Proof.
  unfold sync_sub_on_node.
  destruct user as [u|].
  - destruct (negb (Node.availabled node)); [destruct (is_active u); reflexivity |].
    destruct (negb (bool_decide _)); [destruct (is_active u); reflexivity |].
    destruct (negb (Subscription.is_active sub now_ts) && is_active u); [reflexivity |].
    destruct (Subscription.is_active sub now_ts && negb (is_active u)); reflexivity.
  - destruct (_ && _); reflexivity.
Qed.

Lemma flat_map_nil {A B} (f : A -> list B) (l : list A) :
  (forall x, x ∈ l -> f x = []) -> flat_map f l = [].
Proof.
  induction l as [|x l IH]; simpl; intros H; [reflexivity |].
  rewrite (H x) by left. simpl. apply IH. intros y Hy. apply H. now right.
Qed.

Lemma not_local_usernames subs now username :
  username ∉ local_usernames subs now <->
  forall sub, sub ∈ subs -> Subscription.should_be_remove sub now = false ->
    Subscription.server_key sub <> username.
Proof.
  unfold local_usernames. rewrite elem_of_list_to_set, list_elem_of_fmap. split.
  - intros H sub Hsub Hkeep E. apply H. exists sub. split; [now symmetry |].
    apply list_elem_of_In, filter_In. split; [now apply list_elem_of_In |].
    now rewrite Hkeep.
  - intros H (sub & E & Hin). apply list_elem_of_In, filter_In in Hin as [Hin Hkeep].
    apply (H sub); [now apply list_elem_of_In | | now symmetry].
    now apply negb_true_iff in Hkeep.
Qed.

(** Requests to delete [username] on the node of id [n], among those sent
    for the keys of one inventory. *)
Lemma count_requests (keep : string -> bool) (n : Z) username (keys : list string) :
  NoDup keys ->
  length (List.filter (fun d => bool_decide (d = (n, username)))
            (flat_map (fun u => if keep u then [(n, u)] else []) keys))
  = if bool_decide (username ∈ keys) && keep username then 1%nat else 0%nat.
Proof.
  induction keys as [|u keys IH]; simpl; intros Hnd; [reflexivity |].
  apply NoDup_cons in Hnd as [Hu Hnd].
  rewrite List.filter_app, length_app, IH by assumption.
  destruct (decide (u = username)) as [->|Hne].
  - rewrite (bool_decide_eq_true_2 (username ∈ username :: keys)) by left.
    rewrite (bool_decide_eq_false_2 (username ∈ keys)) by assumption.
    destruct (keep username); simpl; [| reflexivity].
    now rewrite bool_decide_eq_true_2.
  - assert (E : bool_decide (username ∈ u :: keys) = bool_decide (username ∈ keys)).
    { apply bool_decide_ext. rewrite elem_of_cons.
      split; [intros [E'|E']; [congruence | assumption] | auto]. }
    rewrite E. destruct (keep u); simpl; [| reflexivity].
    rewrite bool_decide_eq_false_2; [reflexivity |]. congruence.
Qed.

Lemma no_requests_elsewhere (n n' : Z) username (l : list (Z * string)) :
  (forall d, d ∈ l -> fst d = n') -> n' <> n ->
  List.filter (fun d => bool_decide (d = (n, username))) l = [].
Proof.
  intros H Hne. induction l as [|d l IH]; simpl; [reflexivity |].
  rewrite bool_decide_eq_false_2.
  - apply IH. intros x Hx. apply H. now right.
  - intros ->. specialize (H _ (list_elem_of_here _ _)). simpl in H. congruence.
Qed.
Lemma removal_requests (keep : string -> bool) node (keys : list string) :
  deletes_issued
    (flat_map (fun u => if keep u then [remove_subscription (Configs := Configs) u [node]]
                        else []) keys)
  = flat_map (fun u => if keep u then [(Node.id node, u)] else []) keys.
Proof.
  rewrite deletes_issued_flat_map. apply flat_map_ext. intros u.
  destruct (keep u); [| reflexivity].
  unfold deletes_issued. simpl. unfold _generate_client.
  destruct (Node.category node); reflexivity.
Qed.

(** The removals decided for one entry of [nodes_data]. *)
Lemma entry_requests subs now (e : Node.t * (option Configs * gmap string UserResponse)) :
  deletes_issued
    ((fun '(node, (configs, users)) =>
        match configs with
        | None => []
        | Some _ =>
            flat_map (fun username =>
              if bool_decide (username ∉ local_usernames subs now)
                 && negb (String.eqb username "guard")
              then [remove_subscription (Configs := Configs) username [node]] else [])
              (map fst (map_to_list users))
        end) e)
  = match fst (snd e) with
    | None => []
    | Some _ =>
        flat_map (fun username =>
          if bool_decide (username ∉ local_usernames subs now)
             && negb (String.eqb username "guard")
          then [(Node.id (fst e), username)] else [])
          (map fst (map_to_list (snd (snd e))))
    end.
Proof.
  destruct e as [node [[c|] users]]; simpl; [| reflexivity].
  apply (removal_requests (fun username =>
           bool_decide (username ∉ local_usernames subs now)
           && negb (String.eqb username "guard"))).
Qed.

Lemma entry_requests_node subs now (e : Node.t * (option Configs * gmap string UserResponse)) d :
  d ∈ match fst (snd e) with
      | None => []
      | Some _ =>
          flat_map (fun username =>
            if bool_decide (username ∉ local_usernames subs now)
               && negb (String.eqb username "guard")
            then [(Node.id (fst e), username)] else [])
            (map fst (map_to_list (snd (snd e))))
      end ->
  fst d = Node.id (fst e).
Proof.
  destruct (fst (snd e)); [| intros H; inversion H].
  rewrite list_elem_of_In, in_flat_map. intros (u & _ & H).
  destruct (_ && _); [| contradiction]. destruct H as [<-|[]]. reflexivity.
Qed.

Lemma requests_elsewhere subs now node username
    (l : list (Node.t * (option Configs * gmap string UserResponse))) :
  Forall (fun e => Node.id (fst e) <> Node.id node) l ->
  List.filter (fun d => bool_decide (d = (Node.id node, username)))
    (flat_map (fun e =>
       match fst (snd e) with
       | None => []
       | Some _ =>
           flat_map (fun username =>
             if bool_decide (username ∉ local_usernames subs now)
                && negb (String.eqb username "guard")
             then [(Node.id (fst e), username)] else [])
             (map fst (map_to_list (snd (snd e))))
       end) l) = [].
Proof.
  induction 1 as [|e l Hne _ IH]; simpl; [reflexivity |].
  rewrite List.filter_app, IH, app_nil_r.
  apply (no_requests_elsewhere _ (Node.id (fst e))); [| assumption].
  intros d. apply entry_requests_node.
Qed.

(** How often the clean-up asks [node] to delete [username]. *)
Lemma times_deleted_spec subs nodes_data now now_ts node configs users username :
  NoDup (map (fun e => Node.id (fst e)) nodes_data) ->
  (node, (configs, users)) ∈ nodes_data ->
  times_deleted node username (perform_sync_operations subs nodes_data now now_ts)
  = match configs with
    | None => 0%nat
    | Some _ =>
        if bool_decide (username ∈ map fst (map_to_list users))
           && (bool_decide (username ∉ local_usernames subs now)
               && negb (String.eqb username "guard"))
        then 1%nat else 0%nat
    end.
Proof.
  intros Hnd Hin. unfold times_deleted, perform_sync_operations.
  rewrite deletes_issued_app.
  assert (Hsync : deletes_issued
    (flat_map (fun sub =>
       if negb (Subscription.should_be_remove sub now) then
         flat_map (fun '(node, (configs, users)) =>
           match configs with
           | Some configs =>
               sync_sub_on_node node configs sub (users !! Subscription.server_key sub) now_ts
           | None => []
           end) nodes_data
       else []) subs) = []).
  { rewrite deletes_issued_flat_map. apply flat_map_nil. intros sub _.
    destruct (negb _); [| reflexivity].
    rewrite deletes_issued_flat_map. apply flat_map_nil. intros [n [[c|] us]] _; [| reflexivity].
    apply sync_sub_on_node_no_delete. }
  rewrite Hsync. simpl. rewrite deletes_issued_flat_map.
  erewrite flat_map_ext; [| intros e; apply (entry_requests subs now e)].
  apply list_elem_of_split in Hin as (l1 & l2 & ->).
  rewrite map_app in Hnd. simpl in Hnd.
  apply NoDup_app in Hnd as (_ & Hdisj & Hnd2). apply NoDup_cons in Hnd2 as [Hnot2 _].
  rewrite flat_map_app. simpl. rewrite !List.filter_app, !length_app.
  rewrite requests_elsewhere, requests_elsewhere; simpl.
  - destruct configs as [c|]; [| reflexivity].
    rewrite Nat.add_0_r.
    apply (count_requests (fun username =>
             bool_decide (username ∉ local_usernames subs now)
             && negb (String.eqb username "guard"))).
    apply NoDup_fst_map_to_list.
  - apply Forall_forall. intros e He E. apply Hnot2.
    apply list_elem_of_fmap. exists e. split; [now rewrite E | assumption].
  - apply Forall_forall. intros e He E. apply (Hdisj (Node.id (fst e))).
    + apply list_elem_of_fmap. eauto.
    + rewrite E. left.
Qed.
(** C8, amended: on a node whose inventory fetch succeeded, the clean-up
    asks exactly once for the deletion of every reported username that is
    neither "guard" nor the [server_key] of a subscription of the tick that
    is not [should_be_remove]; it never asks for "guard", nor for the
    [server_key] of such a subscription, nor on a node whose fetch failed,
    nor for a username the node did not report. *)
Theorem C8_garbage_collection subs nodes_data now now_ts node configs users username :
  NoDup (map (fun e => Node.id (fst e)) nodes_data) ->
  (node, (configs, users)) ∈ nodes_data ->
  let calls := perform_sync_operations subs nodes_data now now_ts in
  (is_Some configs -> is_Some (users !! username) -> username <> "guard" ->
   (forall sub, sub ∈ subs -> Subscription.should_be_remove sub now = false ->
      Subscription.server_key sub <> username) ->
   times_deleted node username calls = 1%nat)
  /\ times_deleted node "guard" calls = 0%nat
  /\ (forall sub, sub ∈ subs -> Subscription.should_be_remove sub now = false ->
       times_deleted node (Subscription.server_key sub) calls = 0%nat)
  /\ (configs = None -> times_deleted node username calls = 0%nat)
  /\ (users !! username = None -> times_deleted node username calls = 0%nat).
Proof.
  intros Hnd Hin calls.
  assert (Hspec := fun u => times_deleted_spec subs nodes_data now now_ts node configs users u
                              Hnd Hin).
  fold calls in Hspec. repeat split.
  - intros [c ->] [v Hv] Hguard Hlocal. rewrite Hspec.
    rewrite bool_decide_eq_true_2.
    2:{ apply list_elem_of_fmap. exists (username, v). split; [reflexivity |].
        now apply elem_of_map_to_list. }
    rewrite bool_decide_eq_true_2 by now apply not_local_usernames.
    apply String.eqb_neq in Hguard. now rewrite Hguard.
  - rewrite Hspec. destruct configs; [| reflexivity].
    simpl. now rewrite !andb_false_r.
  - intros sub Hsub Hkeep. rewrite Hspec. destruct configs; [| reflexivity].
    rewrite (bool_decide_eq_false_2 (_ ∉ _)); [now rewrite andb_false_r |].
    intros Hnot. eapply not_local_usernames in Hnot; eauto.
  - intros ->. now rewrite Hspec.
  - intros Hnone. rewrite Hspec. destruct configs; [| reflexivity].
    rewrite bool_decide_eq_false_2; [reflexivity |].
    intros Hk. apply list_elem_of_fmap in Hk as ([u v] & -> & Huv).
    apply elem_of_map_to_list in Huv. simpl in Hnone. congruence.
Qed.
End GarbageCollection.

(** Scenario S5: the orphan is deleted once, "guard" and Alice never. *)
Example scenario_S5 :
  let calls := SubsTracker.perform_sync_operations [Scenario.sub_alice]
                 Scenario.nodes_data_S5 Scenario.now Scenario.now_ts in
  SubsTracker.times_deleted Scenario.node_N "srv_orphan" calls = 1%nat
  /\ SubsTracker.times_deleted Scenario.node_N "guard" calls = 0%nat
  /\ SubsTracker.times_deleted Scenario.node_N "srv_alice" calls = 0%nat.
Proof. vm_compute. auto. Qed.

(** C8 as stated fails: a subscription reached more than a day ago is
    still live ([removed] is false), and its [server_key] is deleted from
    the node. *)
Lemma C8_counterexample :
  let calls := SubsTracker.perform_sync_operations [Scenario.sub_alice; Scenario.sub_old]
                 Scenario.nodes_data_S5 Scenario.now Scenario.now_ts in
  Scenario.sub_old ∈ [Scenario.sub_alice; Scenario.sub_old]
  /\ Subscription.removed Scenario.sub_old = false
  /\ SubsTracker.times_deleted Scenario.node_N
       (Subscription.server_key Scenario.sub_old) calls = 1%nat.
Proof.
  split; [right; left |]. vm_compute. auto.
Qed.

Lemma C8_witness :
  let subs := [Scenario.sub_alice; Scenario.sub_old] in
  let calls := SubsTracker.perform_sync_operations subs Scenario.nodes_data_S5
                 Scenario.now Scenario.now_ts in
  (is_Some (Some tt) -> is_Some (Scenario.inventory !! "srv_orphan") ->
   "srv_orphan" <> "guard" ->
   (forall sub, sub ∈ subs -> Subscription.should_be_remove sub Scenario.now = false ->
      Subscription.server_key sub <> "srv_orphan") ->
   SubsTracker.times_deleted Scenario.node_N "srv_orphan" calls = 1%nat)
  /\ SubsTracker.times_deleted Scenario.node_N "guard" calls = 0%nat
  /\ (forall sub, sub ∈ subs -> Subscription.should_be_remove sub Scenario.now = false ->
       SubsTracker.times_deleted Scenario.node_N (Subscription.server_key sub) calls = 0%nat)
  /\ (Some tt = None -> SubsTracker.times_deleted Scenario.node_N "srv_orphan" calls = 0%nat)
  /\ (Scenario.inventory !! "srv_orphan" = None ->
      SubsTracker.times_deleted Scenario.node_N "srv_orphan" calls = 0%nat).
Proof.
  intros subs.
  apply (C8_garbage_collection subs Scenario.nodes_data_S5 Scenario.now Scenario.now_ts
           Scenario.node_N (Some tt) Scenario.inventory "srv_orphan").
  - apply NoDup_singleton.
  - apply list_elem_of_here.
Defined.

(** ** The link bundle (C9) *)

Section Interleave.
Import LinkGeneration.

Implicit Types (m : list (Node.t * list string)) (links batch : list string)
  (max_links : option Z).

Lemma slice_to_from {A} (b : Z) (l : list A) : slice_to b l ++ slice_from b l = l.
Proof. unfold slice_to, slice_from. destruct (0 <=? b); apply take_drop. Qed.


Lemma at_max_false max_links k count :
  max_links = Some k -> 0 < k -> at_max max_links count = false -> count < k.
Proof.
  intros -> Hk. unfold at_max.
  destruct (Z.eqb_spec k 0); [lia |]. simpl. now intros ?%Z.leb_gt.
Qed.

(** The batch loop appends a part of the batch and counts it. *)
Lemma take_batch_spec max_links batch links count :
  exists taken,
    take_batch max_links batch links count
    = (links ++ taken, count + Z.of_nat (length taken))
    /\ taken ⊆+ batch
    /\ (max_links = None -> taken = batch)
    /\ (forall k, max_links = Some k -> 0 < k -> count <= k ->
          count + Z.of_nat (length taken) <= k).
Proof.
  revert links count. induction batch as [|link batch IH]; simpl; intros links count.
  - exists []. rewrite app_nil_r, Z.add_0_r. repeat split; auto; try (intros; simpl; lia).
  - destruct (at_max max_links count) eqn:Hmax.
    + exists []. rewrite app_nil_r, Z.add_0_r. repeat split.
      * apply submseteq_nil_l.
      * intros ->. discriminate.
      * intros; simpl; lia.
    + destruct (IH (links ++ [link]) (count + 1)) as (taken & -> & Hsub & Hall & Hbound).
      exists (link :: taken). rewrite <- app_assoc. simpl. repeat split.
      * f_equal. lia.
      * now apply submseteq_skip.
      * intros Hn. now rewrite (Hall Hn).
      * intros k Hk Hpos Hle.
        pose proof (at_max_false _ _ _ Hk Hpos Hmax).
        specialize (Hbound k Hk Hpos). lia.
Qed.

Lemma pending_links_cons node node_links m :
  pending_links ((node, node_links) :: m) = (length node_links + pending_links m)%nat.
Proof. reflexivity. Qed.

(** One pass appends links taken from the map, never more than it held,
    keeps the nodes and does not lengthen any list. *)
Lemma pass_spec max_links m links count m' links' count' :
  pass max_links m links count = (m', links', count') ->
  exists extra,
    links' = links ++ extra
    /\ count' = count + Z.of_nat (length extra)
    /\ extra ++ all_links m' ⊆+ all_links m
    /\ (max_links = None -> extra ++ all_links m' ≡ₚ all_links m)
    /\ (forall k, max_links = Some k -> 0 < k -> count <= k -> count' <= k)
    /\ map fst m' = map fst m
    /\ (pending_links m' <= pending_links m)%nat.
Proof.
  revert links count m' links' count'.
  induction m as [|[node node_links] m IH]; intros links count m' links' count'.
  - simpl. intros [= <- <- <-]. exists []. rewrite app_nil_r, Z.add_0_r.
    repeat split; auto; try (intros; lia).
  - cbn [pass]. destruct node_links as [|link0 rest0].
    + destruct (pass max_links m links count) as [[m1 links1] count1] eqn:Hp.
      intros [= <- <- <-].
      destruct (IH _ _ _ _ _ Hp) as (extra & -> & -> & Hsub & Hperm & Hb & Hfst & Hlen).
      exists extra. unfold all_links in *. simpl.
      repeat split; auto. now rewrite Hfst.
    + destruct (at_max max_links count) eqn:Hmax.
      * intros [= <- <- <-]. exists []. rewrite app_nil_r, Z.add_0_r.
        repeat split; auto; try (intros ->; discriminate); try (intros; lia).
      * set (nl := link0 :: rest0) in *.
        destruct (take_batch_spec max_links (slice_to (Node.batch_size node) nl) links count)
          as (taken & Ht & Htsub & Htall & Htb).
        rewrite Ht.
        destruct (pass max_links m (links ++ taken) _) as [[m1 links1] count1] eqn:Hp.
        intros [= <- <- <-].
        destruct (IH _ _ _ _ _ Hp) as (extra & -> & -> & Hsub & Hperm & Hb & Hfst & Hlen).
        exists (taken ++ extra). unfold all_links in *. cbn [map snd fst concat].
        rewrite length_app, Nat2Z.inj_add, <- app_assoc.
        assert (Hsplit : nl = slice_to (Node.batch_size node) nl
                              ++ slice_from (Node.batch_size node) nl)
          by (symmetry; apply slice_to_from).
        repeat split.
        -- lia.
        -- rewrite Hsplit at 2. rewrite <- !app_assoc.
           apply submseteq_app; [assumption |].
           rewrite (app_assoc extra), (Permutation_app_comm extra), <- app_assoc.
           now apply submseteq_skips_l.
        -- intros Hn. rewrite Hsplit at 2. rewrite <- !app_assoc.
           rewrite (Htall Hn). apply Permutation_app_head.
           rewrite (app_assoc extra), (Permutation_app_comm extra), <- app_assoc.
           apply Permutation_app_head. auto.
        -- intros k Hk Hpos Hle. apply (Hb k Hk Hpos). apply (Htb k Hk Hpos Hle).
        -- now rewrite Hfst.
        -- rewrite !pending_links_cons.
           assert (length (slice_from (Node.batch_size node) nl) <= length nl)%nat.
           { rewrite Hsplit at 2. rewrite length_app. lia. }
           lia.
Qed.
Lemma any_links_false m : any_links m = false -> all_links m = [].
Proof.
  unfold any_links, all_links. induction m as [|[node nl] m IH]; simpl; [reflexivity |].
  destruct nl; simpl; [auto | discriminate].
Qed.



(** What the loop returns, whenever it returns. *)
Lemma interleave_spec fuel max_links m links count res :
  interleave fuel max_links m links count = Some res ->
  exists extra,
    res = links ++ extra
    /\ extra ⊆+ all_links m
    /\ (max_links = None -> extra ≡ₚ all_links m)
    /\ (forall k, max_links = Some k -> 0 < k -> count <= k ->
          count + Z.of_nat (length extra) <= k).
Proof.
  revert m links count. induction fuel as [|fuel IH]; intros m links count; simpl.
  - destruct (any_links m) eqn:Hany; [discriminate |]. intros [= <-].
    exists []. rewrite app_nil_r, (any_links_false _ Hany).
    repeat split; auto; try (intros; simpl; lia).
  - destruct (any_links m) eqn:Hany.
    + destruct (pass max_links m links count) as [[m1 links1] count1] eqn:Hp.
      destruct (pass_spec _ _ _ _ _ _ _ Hp) as (extra1 & -> & -> & Hsub & Hperm & Hb & _ & _).
      destruct (at_max max_links _) eqn:Hmax.
      * intros [= <-]. exists extra1. repeat split.
        -- etransitivity; [| exact Hsub]. apply submseteq_inserts_r. reflexivity.
        -- intros ->. discriminate.
        -- assumption.
      * intros Hres. destruct (IH _ _ _ Hres) as (extra2 & -> & Hsub2 & Hperm2 & Hb2).
        exists (extra1 ++ extra2). rewrite app_assoc. repeat split.
        -- etransitivity; [| exact Hsub]. now apply submseteq_skips_l.
        -- intros Hn. rewrite (Hperm2 Hn). auto.
        -- intros k Hk Hpos Hle. rewrite length_app, Nat2Z.inj_add.
           specialize (Hb k Hk Hpos Hle). specialize (Hb2 k Hk Hpos Hb). lia.
    + intros [= <-]. exists []. rewrite app_nil_r, (any_links_false _ Hany).
      repeat split; auto; try (intros; simpl; lia).
Qed.



(** A batch size of 0 hands out nothing: the loop never ends. *)
Lemma interleave_stuck fuel node link node_links links count :
  Node.batch_size node = 0 ->
  interleave fuel None [(node, link :: node_links)] links count = None.
Proof.
  intros Hb. induction fuel as [|fuel IH]; simpl; [reflexivity |].
  rewrite Hb. exact IH.
Qed.
End Interleave.

Section Bundle.
Import LinkGeneration.
Context (LINKS : gmap Z (list string))
        (_replace_link_credentials : string -> Subscription.t -> Node.t -> option string)
        (_generate_placeholder_links : Subscription.t -> list string)
        (shuffle : nat -> list string -> list string).

Lemma insert_by_priority_elem (x n : Node.t) (l : list Node.t) :
  x ∈ insert_by_priority n l <-> x = n \/ x ∈ l.
Proof.
  induction l as [|a l IH]; simpl.
  - rewrite list_elem_of_singleton, elem_of_nil. tauto.
  - destruct (Node.priority n <? Node.priority a).
    + rewrite !elem_of_cons, IH. tauto.
    + rewrite !elem_of_cons. tauto.
Qed.

Lemma sorted_by_priority_elem (x : Node.t) (l : list Node.t) :
  x ∈ sorted_by_priority l <-> x ∈ l.
Proof.
  unfold sorted_by_priority. induction l as [|a l IH]; simpl; [reflexivity |].
  rewrite insert_by_priority_elem, elem_of_cons, IH. tauto.
Qed.

Lemma active_nodes_elem sub node :
  node ∈ active_nodes sub -> node ∈ Subscription.nodes sub.
Proof.
  unfold active_nodes. intros H. apply list_elem_of_In, filter_In in H as [H _].
  now apply sorted_by_priority_elem, list_elem_of_In.
Qed.





End Bundle.

(** Two nodes, five cached links: the bundle without and with a limit of
    four; an inactive subscription gets the placeholder alone. *)
Example bundles :
  LinkGeneration.generate Scenario.links_cache Scenario.keep_link Scenario.one_placeholder
    Scenario.no_shuffle 5 (Scenario.sub_links Scenario.owner) Scenario.now_ts
  = Some ["info"; "b1"; "b2"; "a1"; "a2"; "a3"]
  /\ LinkGeneration.generate Scenario.links_cache Scenario.keep_link Scenario.one_placeholder
       Scenario.no_shuffle 5 (Scenario.sub_links Scenario.owner_capped) Scenario.now_ts
     = Some ["info"; "b1"; "b2"; "a1"; "a2"]
  /\ LinkGeneration.generate Scenario.links_cache Scenario.keep_link Scenario.one_placeholder
       Scenario.no_shuffle 0 Scenario.sub_S2 Scenario.now_ts
     = Some ["info"].
Proof. vm_compute. auto. Qed.


(** * Further properties of the modelled code *)

(** ** The derived predicates, instance and SQL sides *)

Section HybridProperties.
Import Subscription.

(** [limited] is the same on the instance, in its SQL expression and in
    the tracker's [_limited_expr], whatever is NULL; a subscription is
    limited exactly when its positive limit is below its current usage. *)
Theorem limited_agrees self :
  limited self = limited_expression self
  /\ limited self = ReachedTracker._limited_expr self
  /\ (limited self = true <->
      exists l, limit_usage self = Some l /\ 0 < l /\ l < current_usage self).
Proof.
  assert (E : limited self = limited_expression self).
  { unfold limited, limited_expression, current_usage.
    destruct (limit_usage self) as [l|]; simpl; [| reflexivity].
    destruct (Z.eqb_spec l 0), (Z.leb_spec l 0), (Z.ltb_spec 0 l);
      simpl; try reflexivity; lia. }
  split; [exact E |]. split; [exact E |].
  rewrite E. unfold limited_expression, current_usage.
  rewrite andb_true_iff, !Z.ltb_lt. split.
  - intros [Hpos Hlt]. destruct (limit_usage self) as [l|]; simpl in *; [| lia].
    exists l. split; [reflexivity | lia].
  - intros (l & -> & Hpos & Hlt). simpl. lia.
Qed.

(** The SQL side of [is_active] gives the instance value whenever
    [limit_usage] is set.  With a NULL [limit_usage] it is never true: a
    subscription the instance calls active yields NULL, so a filter on
    [is_active], true or false, leaves the row out. *)
Theorem is_active_expression_agrees self now_ts :
  (forall l, limit_usage self = Some l ->
     SQL.is_active self now_ts = Some (is_active self now_ts))
  /\ (limit_usage self = None ->
      SQL.selected (SQL.is_active self now_ts) = false
      /\ (is_active self now_ts = true -> SQL.is_active self now_ts = None)).
Proof.
  unfold SQL.is_active, is_active, expired, limited, current_usage, SQL.cmp. split.
  - intros l ->. simpl.
    destruct (enabled self), (activated self), (debted self);
      destruct (Z.ltb_spec 0 (limit_expire self)), (Z.leb_spec (limit_expire self) 0);
      destruct (Z.ltb_spec (limit_expire self) now_ts), (Z.leb_spec now_ts (limit_expire self));
      destruct (Z.eqb_spec l 0), (Z.leb_spec l 0);
      destruct (Z.ltb_spec (l - (total_usage self - default 0 (reset_usage self))) 0),
        (Z.leb_spec 0 (l - (total_usage self - default 0 (reset_usage self))));
      simpl; try reflexivity; lia.
  - intros ->. simpl.
    destruct (enabled self), (activated self), (debted self);
      destruct (Z.ltb_spec 0 (limit_expire self)), (Z.leb_spec (limit_expire self) 0);
      destruct (Z.ltb_spec (limit_expire self) now_ts), (Z.leb_spec now_ts (limit_expire self));
      simpl; split; try reflexivity; try discriminate; try lia; auto.
Qed.

End HybridProperties.

(** ** Decisions of the reconciler *)

Section SyncDecisions.
Import SubsTracker.
#[local] Set Warnings "-clear-no-such-hyp".
Context {Configs : Type}.

Implicit Types (node : Node.t) (sub : Subscription.t) (user : option UserResponse)
  (configs : Configs).

(** The decision table of [sync_sub_on_node], call by call: a user is
    created only when it is missing, the subscription is active and the
    node is one of its nodes; it is activated only on an available node of
    the subscription, when the subscription is active and the user is not;
    it is deactivated only when it is active and the node is unavailable,
    or not a node of the subscription, or the subscription is not active;
    its configuration is synchronised exactly on the available nodes of
    the subscription. *)
Theorem sync_sub_on_node_decisions node configs sub user now_ts :
  let calls := sync_sub_on_node node configs sub user now_ts in
  let here := bool_decide (Node.id node ∈ Subscription.node_ids sub) in
  let active := Subscription.is_active sub now_ts in
  (create_subscription node sub configs ∈ calls <->
   user = None /\ active = true /\ here = true)
  /\ (activate_subscription node sub ∈ calls <->
      exists u, user = Some u /\ Node.availabled node = true /\ here = true
                /\ active = true /\ is_active u = false)
  /\ (deactivate_subscription node sub ∈ calls <->
      exists u, user = Some u /\ is_active u = true
                /\ (Node.availabled node = false \/ here = false \/ active = false))
  /\ (forall u, sync_config node sub u configs ∈ calls <->
      user = Some u /\ Node.availabled node = true /\ here = true)
  /\ (length calls <= 2)%nat.
Proof.
  intros calls here active. subst calls. unfold sync_sub_on_node.
  fold here. fold active. clearbody here active.
  destruct user as [u|].
  - destruct (Node.availabled node), here, active, (is_active u) eqn:Hu; simpl;
      (split; [| split; [| split; [| split; [| lia]]]]);
      try (intros u'); rewrite ?elem_of_cons, ?elem_of_nil; try naive_solver;
      (split; [naive_solver | intros (u0 & [= <-] & H); rewrite ?Hu in H; naive_solver]).
  - destruct active, here; simpl;
      (split; [| split; [| split; [| split; [| lia]]]]);
      try (intros u'); rewrite ?elem_of_cons, ?elem_of_nil; naive_solver.
Qed.
End SyncDecisions.

Section SyncScope.
Import SubsTracker SyncCalls.
Context {Configs : Type}.
#[local] Set Warnings "-clear-no-such-hyp".

Lemma sync_sub_on_node_about node (configs : Configs) sub user now_ts c :
  c ∈ sync_sub_on_node node configs sub user now_ts ->
  nodes_of c = [node] /\ sub_of c = Some sub.
Proof.
  unfold sync_sub_on_node. cbv zeta. intros H.
  repeat case_match; rewrite ?elem_of_cons, ?elem_of_nil in H; naive_solver.
Qed.

(** The reconciler keeps to what it fetched: every call reaches only
    nodes whose inventory fetch succeeded, and every call made for a
    subscription is for one of the tick that is not [should_be_remove]. *)
Theorem sync_calls_scope subs (nodes_data : NodesData Configs) now now_ts c :
  c ∈ perform_sync_operations subs nodes_data now now_ts ->
  (forall n, n ∈ nodes_of c ->
     exists configs users, (n, (Some configs, users)) ∈ nodes_data)
  /\ (forall sub, sub_of c = Some sub ->
        sub ∈ subs /\ Subscription.should_be_remove sub now = false).
Proof.
  unfold perform_sync_operations. rewrite elem_of_app, !list_elem_of_In, !in_flat_map.
  intros [(sub & Hsub & Hc)|([node [configs users]] & He & Hc)].
  - destruct (Subscription.should_be_remove sub now) eqn:Hrm; simpl in Hc; [contradiction |].
    apply in_flat_map in Hc as ([node [configs users]] & He & Hc).
    destruct configs as [configs|]; [| contradiction].
    apply list_elem_of_In, sync_sub_on_node_about in Hc as [Hn Hs].
    rewrite Hn, Hs. split.
    + intros n ->%list_elem_of_singleton. exists configs, users. now apply list_elem_of_In.
    + intros ? [= <-]. split; [now apply list_elem_of_In | assumption].
  - destruct configs as [configs|]; [| contradiction].
    apply in_flat_map in Hc as (username & _ & Hc).
    destruct (_ && _); [| contradiction]. destruct Hc as [<-|[]]. simpl. split.
    + intros n ->%list_elem_of_singleton. exists configs, users. now apply list_elem_of_In.
    + discriminate.
Qed.
End SyncScope.

Lemma sync_calls_scope_witness :
  let c := SubsTracker.sync_config Scenario.node_N Scenario.sub_alice
             (Scenario.user "srv_alice") tt in
  (forall n, n ∈ SyncCalls.nodes_of c ->
     exists configs users, (n, (Some configs, users)) ∈ Scenario.nodes_data_S5)
  /\ (forall sub, SyncCalls.sub_of c = Some sub ->
        sub ∈ [Scenario.sub_alice; Scenario.sub_old]
        /\ Subscription.should_be_remove sub Scenario.now = false).
Proof.
  intros c.
  apply (sync_calls_scope [Scenario.sub_alice; Scenario.sub_old] Scenario.nodes_data_S5
           Scenario.now Scenario.now_ts c).
  vm_compute. left.
Defined.

(** ** The admin cache: what a hit means *)

Section AdminCacheIndexes.
Import AdminCacheManager CacheInv.

Lemma truthy_key_some k s : truthy_key k = Some s -> k = Some s /\ s <> "".
Proof.
  destruct k as [s'|]; simpl; [| discriminate].
  destruct (String.eqb_spec s' ""); [discriminate |]. now intros [= <-].
Qed.

Lemma keyed_fold admins m1 m2 m3 now :
  keyed (mk m1 m2 m3 now) ->
  keyed (mk (foldl (fun m admin => <[Admin.username admin := admin]> m) m1 admins)
            (foldl (fun m admin => <[Admin.id admin := admin]> m) m2 admins)
            (foldl (fun m admin =>
                      match truthy_key (Admin.api_key admin) with
                      | Some k => <[k := admin]> m
                      | None => m
                      end) m3 admins)
            now).
Proof.
  revert m1 m2 m3. induction admins as [|x admins IH]; intros m1 m2 m3 H; simpl; [exact H |].
  apply IH. destruct H as (Hu & Hi & Hk). repeat split; simpl.
  - intros u a. destruct (decide (Admin.username x = u)) as [<-|Hne].
    + rewrite lookup_insert_eq. now intros [= <-].
    + rewrite lookup_insert_ne by assumption. apply Hu.
  - intros i a. destruct (decide (Admin.id x = i)) as [<-|Hne].
    + rewrite lookup_insert_eq. now intros [= <-].
    + rewrite lookup_insert_ne by assumption. apply Hi.
  - intros k a. destruct (truthy_key (Admin.api_key x)) as [kx|] eqn:E; [| apply Hk].
    destruct (decide (kx = k)) as [<-|Hne].
    + rewrite lookup_insert_eq. now intros [= <-].
    + rewrite lookup_insert_ne by assumption. apply Hk.
Qed.

Lemma keyed_set_all self admins now : keyed (set_all self admins now).
Proof.
  apply keyed_fold. repeat split; simpl; intros ? ?; rewrite lookup_empty; discriminate.
Qed.

Lemma keyed_update self admin : keyed self -> keyed (update self admin).
Proof.
  intros (Hu & Hi & Hk).
  assert (Hk1 : forall k a,
    match _by_id self !! Admin.id admin with
    | Some old_admin =>
        match truthy_key (Admin.api_key old_admin) with
        | Some old_key =>
            if bool_decide (Admin.api_key old_admin ≠ Admin.api_key admin)
            then delete old_key (_by_api_key self) else _by_api_key self
        | None => _by_api_key self
        end
    | None => _by_api_key self
    end !! k = Some a -> truthy_key (Admin.api_key a) = Some k).
  { intros k a. repeat case_match; try apply Hk.
    intros H'%lookup_delete_Some. now apply Hk. }
  repeat split; simpl.
  - intros u a. destruct (decide (Admin.username admin = u)) as [<-|Hne].
    + rewrite lookup_insert_eq. now intros [= <-].
    + rewrite lookup_insert_ne by assumption. apply Hu.
  - intros i a. destruct (decide (Admin.id admin = i)) as [<-|Hne].
    + rewrite lookup_insert_eq. now intros [= <-].
    + rewrite lookup_insert_ne by assumption. apply Hi.
  - intros k a. destruct (truthy_key (Admin.api_key admin)) as [kx|] eqn:E; [| apply Hk1].
    destruct (decide (kx = k)) as [<-|Hne].
    + rewrite lookup_insert_eq. now intros [= <-].
    + rewrite lookup_insert_ne by assumption. apply Hk1.
Qed.

Lemma keyed_remove self admin : keyed self -> keyed (remove self admin).
Proof.
  intros (Hu & Hi & Hk). repeat split; simpl.
  - intros u a H%lookup_delete_Some. now apply Hu.
  - intros i a H%lookup_delete_Some. now apply Hi.
  - intros k a. destruct (truthy_key (Admin.api_key admin)); [| apply Hk].
    intros H%lookup_delete_Some. now apply Hk.
Qed.

Lemma keyed_writes self ws : keyed self -> keyed (foldl write self ws).
Proof.
  revert self. induction ws as [|w ws IH]; intros self H; simpl; [exact H |].
  apply IH. destruct w; [now apply keyed_update | now apply keyed_remove].
Qed.

(** Whatever [set_all] loaded and whatever [update] and [remove] calls
    followed, a lookup that answers returns an admin that carries the key
    asked for: the username, the id, or the non-empty API key. *)
Theorem cache_hit_carries_key self admins t0 writes now :
  let cache := foldl write (set_all self admins t0) writes in
  (forall username a, get_by_username cache username now = Some a ->
     Admin.username a = Some username)
  /\ (forall admin_id a, get_by_id cache admin_id now = Some a -> Admin.id a = admin_id)
  /\ (forall api_key a, get_by_api_key cache api_key now = Some a ->
        Admin.api_key a = Some api_key /\ api_key <> "").
Proof.
  intros cache.
  destruct (keyed_writes (set_all self admins t0) writes (keyed_set_all _ _ _))
    as (Hu & Hi & Hk).
  fold cache in Hu, Hi, Hk.
  unfold get_by_username, get_by_id, get_by_api_key.
  destruct (is_expired cache now); (split; [| split]); try discriminate.
  - intros u a. apply Hu.
  - apply Hi.
  - intros k a H. now apply truthy_key_some, Hk.
Qed.

Lemma key_current_fold admins m1 m2 m3 now :
  NoDup (map Admin.id admins) ->
  (forall i, i ∈ map Admin.id admins -> m2 !! i = None) ->
  key_current (mk m1 m2 m3 now) ->
  key_current (mk m1
            (foldl (fun m admin => <[Admin.id admin := admin]> m) m2 admins)
            (foldl (fun m admin =>
                      match truthy_key (Admin.api_key admin) with
                      | Some k => <[k := admin]> m
                      | None => m
                      end) m3 admins)
            now).
Proof.
  revert m2 m3. induction admins as [|x admins IH]; intros m2 m3 Hnd Hfresh H; simpl; [exact H |].
  apply NoDup_cons in Hnd as [Hx Hnd]. apply IH; [assumption | |].
  - intros i Hi. rewrite lookup_insert_ne; [apply Hfresh; simpl; now right |].
    intros <-. now apply Hx, list_elem_of_In.
  - intros k a. simpl.
    assert (Hold : m3 !! k = Some a -> <[Admin.id x := x]> m2 !! Admin.id a = Some a).
    { intros Hm. pose proof (H k a Hm) as Hi. simpl in Hi.
      rewrite lookup_insert_ne; [exact Hi |]. intros E.
      rewrite <- E, Hfresh in Hi; [discriminate | simpl; now left]. }
    destruct (truthy_key (Admin.api_key x)) as [kx|]; [| exact Hold].
    destruct (decide (kx = k)) as [<-|Hne].
    + rewrite lookup_insert_eq. intros [= <-]. apply lookup_insert_eq.
    + rewrite lookup_insert_ne by assumption. exact Hold.
Qed.

Lemma key_current_update self admin :
  keyed self -> key_current self -> key_current (update self admin).
Proof.
  intros (_ & Hi & Hk) Hc k a. unfold update; simpl.
  set (m := match _by_id self !! Admin.id admin with Some _ => _ | None => _ end).
  assert (Hm : m !! k = Some a -> truthy_key (Admin.api_key admin) <> Some k ->
               <[Admin.id admin := admin]> (_by_id self) !! Admin.id a = Some a).
  { intros H Hkx.
    assert (Hself : _by_api_key self !! k = Some a).
    { subst m. repeat case_match; try assumption. now apply lookup_delete_Some in H. }
    pose proof (Hc _ _ Hself) as Hida.
    destruct (decide (Admin.id admin = Admin.id a)) as [E|Hne];
      [| now rewrite lookup_insert_ne].
    exfalso. subst m. rewrite E, Hida in H.
    pose proof (Hk _ _ Hself) as Hka. rewrite Hka in H.
    destruct (bool_decide (Admin.api_key a ≠ Admin.api_key admin)) eqn:Hb.
    - rewrite lookup_delete_eq in H. discriminate.
    - apply bool_decide_eq_false in Hb. apply dec_stable in Hb.
      apply Hkx. now rewrite <- Hb. }
  destruct (truthy_key (Admin.api_key admin)) as [kx|] eqn:E.
  - destruct (decide (kx = k)) as [<-|Hne].
    + rewrite lookup_insert_eq. intros [= <-]. apply lookup_insert_eq.
    + rewrite lookup_insert_ne by assumption. intros H. apply Hm; [exact H | congruence].
  - intros H. now apply Hm.
Qed.

Lemma keyed_updates self updates : keyed self -> keyed (foldl update self updates).
Proof.
  revert self. induction updates as [|a l IH]; intros self H; simpl; [exact H |].
  now apply IH, keyed_update.
Qed.

Lemma key_current_updates self updates :
  keyed self -> key_current self -> key_current (foldl update self updates).
Proof.
  revert self. induction updates as [|a l IH]; intros self H Hc; simpl; [exact Hc |].
  apply IH; [now apply keyed_update | now apply key_current_update].
Qed.

Lemma updates_cached_at self updates : _cached_at (foldl update self updates) = _cached_at self.
Proof.
  revert self. induction updates as [|a l IH]; intros self; simpl; [reflexivity |].
  now rewrite IH.
Qed.

(** With one admin per id loaded by [set_all] and only [update] calls
    since, whoever a lookup by API key returns is the admin the cache
    holds under that id: a key that an update replaced is not served on. *)
Theorem api_key_hit_is_current self admins t0 updates now api_key a :
  NoDup (map Admin.id admins) ->
  let cache := foldl update (set_all self admins t0) updates in
  get_by_api_key cache api_key now = Some a ->
  get_by_id cache (Admin.id a) now = Some a.
Proof.
  intros Hnd cache. unfold get_by_api_key, get_by_id.
  destruct (is_expired cache now); [discriminate |].
  apply key_current_updates; [apply keyed_set_all |].
  unfold set_all. apply key_current_fold; [assumption | |].
  - intros i _. apply lookup_empty.
  - intros k b. simpl. rewrite lookup_empty. discriminate.
Qed.

Lemma api_key_hit_is_current_witness :
  let admin := Admin.mk 1 (Some "owner") (Some "k1") None in
  let admin' := Admin.mk 1 (Some "owner") (Some "k2") None in
  let cache := foldl update (set_all init [admin] 100) [admin'] in
  get_by_id cache 1 200 = Some admin'.
Proof.
  intros admin admin' cache.
  apply (api_key_hit_is_current init [admin] 100 [admin'] 200 "k2" admin').
  - repeat constructor. intros H. inversion H.
  - reflexivity.
Defined.

(** A write-through [update] is served under all its keys while the cache
    is fresh and takes the admin's previous API key out of service;
    [remove] of the same admin takes it out again. *)
Theorem update_remove_round_trip self admin now :
  is_expired self now = false ->
  let cache := update self admin in
  get_by_id cache (Admin.id admin) now = Some admin
  /\ (forall u, Admin.username admin = Some u -> get_by_username cache u now = Some admin)
  /\ (forall k, Admin.api_key admin = Some k -> k <> "" ->
        get_by_api_key cache k now = Some admin)
  /\ (forall old k, get_by_id self (Admin.id admin) now = Some old ->
        Admin.api_key old = Some k -> k <> "" -> Admin.api_key admin <> Some k ->
        get_by_api_key cache k now = None)
  /\ get_by_id (remove cache admin) (Admin.id admin) now = None
  /\ (forall u, Admin.username admin = Some u ->
        get_by_username (remove cache admin) u now = None)
  /\ (forall k, Admin.api_key admin = Some k -> k <> "" ->
        get_by_api_key (remove cache admin) k now = None).
Proof.
  intros He cache.
  assert (Ht : forall k, k <> "" -> truthy_key (Some k) = Some k).
  { intros k Hk. simpl. now destruct (String.eqb_spec k ""). }
  unfold get_by_id, get_by_username, get_by_api_key, is_expired in *. simpl. rewrite He.
  split; [apply lookup_insert_eq |].
  split; [intros u <-; apply lookup_insert_eq |].
  split; [intros k E Hk; rewrite E, Ht by assumption; apply lookup_insert_eq |].
  split.
  { intros old k Hold Eold Hk Hne. rewrite Hold, Eold, Ht by assumption.
    rewrite bool_decide_eq_true_2 by congruence.
    destruct (truthy_key (Admin.api_key admin)) as [kx|] eqn:E.
    - rewrite lookup_insert_ne; [apply lookup_delete_eq |].
      intros ->. apply truthy_key_some in E as [E _]. congruence.
    - apply lookup_delete_eq. }
  split; [apply lookup_delete_eq |].
  split; [intros u <-; apply lookup_delete_eq |].
  intros k E Hk. rewrite E, Ht by assumption. apply lookup_delete_eq.
Qed.

Lemma update_remove_round_trip_witness :
  let admin := Admin.mk 1 (Some "owner") (Some "k1") None in
  let cache := update (set_all init [] 100) admin in
  get_by_id cache 1 200 = Some admin.
Proof.
  intros admin cache.
  apply (update_remove_round_trip (set_all init [] 100) admin 200). reflexivity.
Defined.
End AdminCacheIndexes.

(** ** The two ingestion paths side by side *)

Section IngestionPaths.
Import SubscriptionUsage Store.

Lemma find_ext_in {A} (p q : A -> bool) l :
  (forall x, In x l -> p x = q x) -> find p l = find q l.
Proof.
  induction l as [|x l IH]; simpl; intros H; [reflexivity |].
  rewrite (H x) by now left. destruct (q x); [reflexivity |].
  apply IH. intros y Hy. apply H. now right.
Qed.

Lemma replace_first_ext_in {A} (p q : A -> bool) r' l :
  (forall x, In x l -> p x = q x) -> replace_first p r' l = replace_first q r' l.
Proof.
  induction l as [|x l IH]; simpl; intros H; [reflexivity |].
  rewrite (H x) by now left. destruct (q x); [reflexivity |].
  f_equal. apply IH. intros y Hy. apply H. now right.
Qed.

(** Given the rows of one subscription and one node's counter that has
    not gone down, the batch path and the single-row path do the same:
    same rows, same added row, same subscription, same log; a failure of
    the one is a failure of the other. *)
Theorem paths_agree_without_decrease sub node usage_value created table now now_ts :
  (forall record, record ∈ table -> subscription_id record = Subscription.id sub) ->
  (forall record, find (same_bucket node created) table = Some record ->
     _usage record <= usage_value) ->
  bulk_upsert_usages sub [(node, (usage_value, created))] table now now_ts
  = upsert_usage table sub node usage_value created now now_ts.
Proof.
  intros Hsub Hup.
  assert (Hext : forall x, In x table ->
            existing_row sub node created x = same_bucket node created x).
  { intros x Hx. unfold existing_row, same_bucket.
    rewrite (Hsub x) by now apply list_elem_of_In. now rewrite Z.eqb_refl. }
  unfold bulk_upsert_usages, upsert_usage. cbn [upsert_entries upsert_entry].
  destruct (usage_value <=? 0); [reflexivity |].
  rewrite (find_ext_in _ _ _ Hext). cbv zeta. cbn [rows added changed events].
  destruct (find (same_bucket node created) table) as [record|] eqn:Hf.
  - specialize (Hup record eq_refl).
    destruct (Z.eqb_spec (_usage record) usage_value) as [E|E]; simpl; [reflexivity |].
    destruct (Z.ltb_spec (usage_value - _usage record) 0); [lia |].
    destruct (PyFloat.int_mul _ _); [| reflexivity]. simpl.
    rewrite (replace_first_ext_in _ _ _ _ Hext).
    destruct (activate_expire sub now_ts). reflexivity.
  - destruct (PyFloat.int_mul _ _); [| reflexivity]. simpl.
    destruct (activate_expire sub now_ts). reflexivity.
Qed.

Lemma paths_agree_without_decrease_witness :
  bulk_upsert_usages (Scenario.sub_X (-86400)) [(Scenario.node_N, (1500, Scenario.bucket))]
    [Scenario.row 500 1000] Scenario.now Scenario.now_ts
  = upsert_usage [Scenario.row 500 1000] (Scenario.sub_X (-86400)) Scenario.node_N 1500
      Scenario.bucket Scenario.now Scenario.now_ts.
Proof.
  apply paths_agree_without_decrease.
  - intros record ->%list_elem_of_singleton. reflexivity.
  - intros record [= <-]. simpl. lia.
Defined.
End IngestionPaths.

(** ** What a batch does to the rows it was given *)

Section BatchRows.
Import SubscriptionUsage Store UsageRows.

Implicit Types (sub : Subscription.t) (node : Node.t) (st : Loop)
  (usages : list (Node.t * (Z * datetime))).

Lemma kept_refl now record : kept now record record.
Proof. unfold kept. repeat split; auto; lia. Qed.

Lemma kept_trans now r1 r2 r3 : kept now r1 r2 -> kept now r2 r3 -> kept now r1 r3.
Proof.
  unfold kept. intros (?&?&?&?&?&Ha) (?&?&?&?&?&Hb).
  repeat split; try congruence; try lia.
  destruct Hb as [->|Hb]; [exact Ha | now right].
Qed.

Lemma Forall2_kept_refl now l : Forall2 (kept now) l l.
Proof. induction l; constructor; auto using kept_refl. Qed.

Lemma Forall2_kept_trans now l1 l2 l3 :
  Forall2 (kept now) l1 l2 -> Forall2 (kept now) l2 l3 -> Forall2 (kept now) l1 l3.
Proof.
  intros H. revert l3. induction H; intros l3 H3; inversion H3; subst; constructor;
    eauto using kept_trans.
Qed.

Lemma Forall2_kept_replace_first now (p : SubscriptionUsage.t -> bool) r r' l :
  find p l = Some r -> kept now r r' -> Forall2 (kept now) l (replace_first p r' l).
Proof.
  induction l as [|x l IH]; simpl; [discriminate |].
  destruct (p x).
  - intros [= ->] H. constructor; [exact H | apply Forall2_kept_refl].
  - intros Hf H. constructor; [apply kept_refl | auto].
Qed.

Lemma upsert_entry_rows sub now st st' entry :
  upsert_entry sub now st entry = Some st' ->
  Forall2 (kept now) (rows st) (rows st')
  /\ exists new, added st' = added st ++ new /\ Forall (fresh_row sub [entry] now) new.
Proof.
  destruct entry as [node [v c]]. unfold upsert_entry.
  assert (Hsame : Forall2 (kept now) (rows st) (rows st)
                  /\ exists new, added st = added st ++ new
                                 /\ Forall (fresh_row sub [(node, (v, c))] now) new).
  { split; [apply Forall2_kept_refl |]. exists []. now rewrite app_nil_r. }
  destruct (Z.leb_spec v 0); [now intros [= <-] |].
  destruct (find (same_bucket node c) (rows st)) as [record|] eqn:Hf.
  - destruct (negb (_usage record =? v)); [| now intros [= <-]].
    destruct (Z.ltb_spec (v - _usage record) 0); [now intros [= <-] |].
    destruct (PyFloat.int_mul _ _) as [k|]; [| discriminate].
    intros [= <-]. simpl. split.
    + eapply Forall2_kept_replace_first; [exact Hf |].
      unfold kept, set_counters; simpl. repeat split; auto. lia.
    + exists []. now rewrite app_nil_r.
  - destruct (PyFloat.int_mul _ _) as [u|]; [| discriminate].
    intros [= <-]. simpl. split; [apply Forall2_kept_refl |].
    eexists. split; [reflexivity |]. constructor; [| constructor].
    unfold fresh_row; simpl. repeat split; auto.
    exists node. repeat split; auto. apply list_elem_of_here.
Qed.

Lemma fresh_row_mono sub us1 us2 now record :
  us1 ⊆ us2 -> fresh_row sub us1 now record -> fresh_row sub us2 now record.
Proof.
  intros Hsub (?&?&?&node&Hin&?&?). repeat split; auto. exists node. auto.
Qed.

Lemma upsert_entries_rows sub now usages st st' :
  upsert_entries sub now usages st = Some st' ->
  Forall2 (kept now) (rows st) (rows st')
  /\ exists new, added st' = added st ++ new /\ Forall (fresh_row sub usages now) new.
Proof.
  revert st. induction usages as [|entry usages IH]; simpl; intros st.
  - intros [= <-]. split; [apply Forall2_kept_refl |]. exists []. now rewrite app_nil_r.
  - destruct (upsert_entry sub now st entry) as [st1|] eqn:H1; [| discriminate].
    intros H. apply upsert_entry_rows in H1 as (Hk1 & new1 & Ha1 & Hn1).
    apply IH in H as (Hk & new & Ha & Hn). split; [eauto using Forall2_kept_trans |].
    exists (new1 ++ new). split; [now rewrite Ha, Ha1, app_assoc |].
    apply Forall_app. split.
    + eapply Forall_impl; [exact Hn1 |]. intros r. apply fresh_row_mono. set_solver.
    + eapply Forall_impl; [exact Hn |]. intros r. apply fresh_row_mono. set_solver.
Qed.

Lemma upsert_entries_added_length sub now usages st st' :
  upsert_entries sub now usages st = Some st' ->
  (length (added st') <= length (added st) + length usages)%nat.
Proof.
  revert st. induction usages as [|entry usages IH]; simpl; intros st.
  - intros [= <-]. lia.
  - destruct (upsert_entry sub now st entry) as [st1|] eqn:H1; [| discriminate].
    intros H. apply IH in H.
    enough (length (added st1) <= S (length (added st)))%nat by lia.
    clear H. destruct entry as [node [v c]]. unfold upsert_entry in H1.
    repeat case_match; simplify_eq; simpl; rewrite ?length_app; simpl; lia.
Qed.

(** A batch that goes through never drops, moves or re-keys a row it was
    given: the rows come back in place with their id, subscription, node
    and bucket, with a raw counter that has not gone down and, where a
    row was written, [updated_at] at the time of the batch.  What it
    adds are new rows of this subscription, one per entry at most, for a
    positive counter of a node of the batch. *)
Theorem bulk_upsert_keeps_rows sub usages sub_usages now now_ts r :
  bulk_upsert_usages sub usages sub_usages now now_ts = Some r ->
  Forall2 (kept now) sub_usages (r_rows r)
  /\ Forall (fresh_row sub usages now) (r_added r)
  /\ (length (r_added r) <= length usages)%nat.
Proof.
  intros H. apply bulk_upsert_usages_inv in H as (st & Hrun & -> & -> & _).
  pose proof (upsert_entries_rows _ _ _ _ _ Hrun) as (Hk & new & Ha & Hn).
  apply upsert_entries_added_length in Hrun.
  simpl in *. subst new. auto.
Qed.

Lemma bulk_upsert_keeps_rows_witness :
  exists r,
    Forall2 (kept Scenario.now) [Scenario.row 500 1000] (r_rows r)
    /\ Forall (fresh_row (Scenario.sub_X 0)
                 [(Scenario.node_N, (1500, Scenario.bucket));
                  (Scenario.node_neg, (40, Scenario.bucket))] Scenario.now) (r_added r)
    /\ (length (r_added r) <= 2)%nat.
Proof.
  eexists.
  apply (bulk_upsert_keeps_rows (Scenario.sub_X 0)
           [(Scenario.node_N, (1500, Scenario.bucket));
            (Scenario.node_neg, (40, Scenario.bucket))]
           [Scenario.row 500 1000] Scenario.now Scenario.now_ts).
  vm_compute. reflexivity.
Defined.

Lemma find_app_first {A} (p : A -> bool) l1 l2 :
  find p (l1 ++ l2) = match find p l1 with Some x => Some x | None => find p l2 end.
Proof. induction l1 as [|x l1 IH]; simpl; [reflexivity |]. now destruct (p x). Qed.

Lemma find_via_filter {A} (p q : A -> bool) l :
  (forall x, p x = true -> q x = true) -> find p (List.filter q l) = find p l.
Proof.
  intros Hpq. induction l as [|x l IH]; simpl; [reflexivity |].
  destruct (q x) eqn:Hq; simpl.
  - now destruct (p x).
  - destruct (p x) eqn:Hp; [| exact IH]. apply Hpq in Hp. congruence.
Qed.

Lemma same_bucket_of_node node c record :
  same_bucket node c record = true -> of_node node record = true.
Proof. unfold same_bucket, of_node. now intros [? _]%andb_true_iff. Qed.

(** Entries that have nothing to add leave the loop as it is, but for
    the warnings of counters that went down. *)
Lemma settled_entries_noop sub now usages st :
  Forall (settled (rows st)) usages ->
  exists warnings,
    upsert_entries sub now usages st
    = Some (mkLoop (rows st) (added st) (changed st) (events st ++ warnings))
    /\ quiet warnings.
Proof.
  intros Hall. revert st Hall. induction usages as [|[node [v c]] usages IH]; intros st Hall.
  - exists []. simpl. rewrite app_nil_r. now destruct st.
  - apply Forall_cons in Hall as [He Hall]. cbn [upsert_entries].
    assert (Hstep : exists w, upsert_entry sub now st (node, (v, c))
                     = Some (mkLoop (rows st) (added st) (changed st) (events st ++ w))
                     /\ quiet w).
    { unfold upsert_entry. destruct st as [rs ad ch evs]. simpl in *.
      destruct (Z.leb_spec v 0) as [Hv|Hv].
      { exists []. now rewrite app_nil_r. }
      destruct He as [He|(record & -> & Hle)]; [lia |].
      destruct (Z.eqb_spec (_usage record) v) as [E|E]; simpl.
      { exists []. now rewrite app_nil_r. }
      destruct (Z.ltb_spec (v - _usage record) 0); [| lia].
      eexists. split; reflexivity. }
    destruct Hstep as (w & -> & Hw).
    destruct (IH (mkLoop (rows st) (added st) (changed st) (events st ++ w)) Hall)
      as (w' & -> & Hw').
    exists (w ++ w'). simpl. rewrite app_assoc. split; [reflexivity |].
    now apply quiet_app.
Qed.

(** After a batch over distinct nodes every entry is settled in the
    rows it leaves. *)
Lemma upsert_entries_settle sub now usages st st' :
  NoDup (map (fun entry => Node.id (fst entry)) usages) ->
  Forall (fun entry => List.filter (of_node (fst entry)) (added st) = []) usages ->
  upsert_entries sub now usages st = Some st' ->
  Forall (settled (rows st' ++ added st')) usages.
Proof.
  revert st. induction usages as [|[node [v c]] usages IH]; intros st Hnd Hfresh Hrun;
    [constructor |].
  cbn [map fst] in Hnd. apply NoDup_cons in Hnd as [Hnode Hnd].
  apply Forall_cons in Hfresh as [Hf0 Hfresh]. cbn [upsert_entries] in Hrun.
  destruct (upsert_entry sub now st (node, (v, c))) as [st1|] eqn:H1; [| discriminate].
  assert (Hothers : Forall (fun entry => Node.id (fst entry) <> Node.id node) usages).
  { apply Forall_forall. intros e He E. apply Hnode.
    rewrite <- E. apply list_elem_of_In. apply in_map_iff. exists e.
    split; [reflexivity | now apply list_elem_of_In]. }
  constructor.
  - (* the entry itself *)
    destruct (upsert_entries_other _ _ _ _ _ node c Hothers Hrun) as [Hrows Hadded].
    assert (Hfind : find (same_bucket node c) (rows st' ++ added st')
                    = find (same_bucket node c) (rows st1 ++ added st1)).
    { rewrite !find_app_first, Hrows.
      rewrite <- (find_via_filter _ (of_node node) (added st'))
        by apply same_bucket_of_node.
      rewrite <- (find_via_filter _ (of_node node) (added st1))
        by apply same_bucket_of_node.
      now rewrite Hadded. }
    unfold settled. rewrite Hfind. clear Hrun Hrows Hadded Hfind IH.
    unfold upsert_entry in H1.
    destruct (Z.leb_spec v 0) as [Hv|Hv]; [now left |]. right.
    rewrite find_app_first.
    destruct (find (same_bucket node c) (rows st)) as [record|] eqn:Hf.
    + destruct (Z.eqb_spec (_usage record) v) as [E|E]; simpl in H1.
      { injection H1 as <-. rewrite Hf. exists record. split; [reflexivity | lia]. }
      destruct (Z.ltb_spec (v - _usage record) 0).
      { injection H1 as <-. simpl. rewrite Hf. exists record. split; [reflexivity | lia]. }
      destruct (PyFloat.int_mul _ _) as [k|]; [| discriminate].
      injection H1 as <-. simpl.
      erewrite find_replace_first_hit; [| exact Hf |].
      * eexists. split; [reflexivity |]. simpl. lia.
      * rewrite same_bucket_set_counters. eapply find_some_true; eauto.
    + destruct (PyFloat.int_mul _ _) as [u|]; [| discriminate].
      injection H1 as <-. simpl. rewrite Hf, find_app_first.
      rewrite <- (find_via_filter _ (of_node node) (added st))
        by apply same_bucket_of_node.
      simpl in Hf0. rewrite Hf0. simpl. unfold same_bucket at 1. simpl.
      rewrite !Z.eqb_refl. simpl. eexists. split; [reflexivity |]. simpl. lia.
  - (* the entries after it *)
    apply (IH st1); [assumption | | assumption].
    apply Forall_forall. intros e He.
    rewrite Forall_forall in Hothers, Hfresh.
    destruct (upsert_entry_other sub now st st1 (node, (v, c)) (fst e) 0
                (fun E => Hothers e He (eq_sym E)) H1)
      as [_ ->].
    now apply Hfresh.
Qed.

(** Feeding a batch the counters it has just stored changes nothing:
    with one entry per node, a second run over the flushed rows leaves
    every row as it is, adds none, does not touch the subscription and
    logs at most the warnings of counters that went down. *)
Theorem reingest_is_noop sub usages sub_usages now now_ts r now' now_ts' :
  NoDup (map (fun entry => Node.id (fst entry)) usages) ->
  bulk_upsert_usages sub usages sub_usages now now_ts = Some r ->
  exists warnings,
    bulk_upsert_usages (r_sub r) usages (flushed r) now' now_ts'
    = Some (mkUpserted (r_sub r) (flushed r) [] warnings)
    /\ quiet warnings.
Proof.
  intros Hnd H. apply bulk_upsert_usages_inv in H as (st & Hrun & Hrows & Hadded & _).
  assert (Hs : Forall (settled (rows st ++ added st)) usages).
  { apply (upsert_entries_settle sub now usages (mkLoop sub_usages [] false []));
      [assumption | | assumption].
    apply Forall_forall. intros; reflexivity. }
  unfold flushed. rewrite Hrows, Hadded. unfold bulk_upsert_usages.
  destruct (settled_entries_noop (r_sub r) now' usages
              (mkLoop (rows st ++ added st) [] false []) Hs) as (w & -> & Hw).
  exists w. simpl. auto.
Qed.

Lemma reingest_is_noop_witness :
  let usages := [(Scenario.node_N, (1500, Scenario.bucket));
                 (Scenario.node_neg, (40, Scenario.bucket))] in
  match bulk_upsert_usages (Scenario.sub_X (-86400)) usages [Scenario.row 500 1000]
          Scenario.now Scenario.now_ts with
  | Some r =>
      exists warnings,
        bulk_upsert_usages (r_sub r) usages (flushed r) (Scenario.now + 60000000)
          (Scenario.now_ts + 60)
        = Some (mkUpserted (r_sub r) (flushed r) [] warnings)
        /\ quiet warnings
  | None => False
  end.
Proof.
  intros usages.
  destruct (bulk_upsert_usages (Scenario.sub_X (-86400)) usages [Scenario.row 500 1000]
              Scenario.now Scenario.now_ts) as [r|] eqn:H.
  - assert (Hnd : NoDup (map (fun entry => Node.id (fst entry)) usages))
      by (simpl; apply NoDup_cons; split; [set_solver | apply NoDup_singleton]).
    apply (reingest_is_noop _ _ _ _ _ _ _ _ Hnd H).
  - vm_compute in H. discriminate.
Defined.
End BatchRows.

(** ** The cached columns after [sync_cached_usages] *)

Section CachedColumns.
Import SubscriptionUsage Store UsageTable.

Lemma max_updated_at_spec table sub_id :
  match max_updated_at table sub_id with
  | None => rows_of table sub_id = []
  | Some m =>
      m ∈ map updated_at (rows_of table sub_id)
      /\ Forall (fun record => updated_at record <= m) (rows_of table sub_id)
  end.
Proof.
  induction table as [|x table IH]; simpl; [reflexivity |].
  unfold rows_of in *. simpl.
  destruct (subscription_id x =? sub_id); [| exact IH].
  destruct (max_updated_at table sub_id) as [m|]; simpl.
  - destruct IH as [Hin Hall]. split.
    + destruct (Z.max_spec (updated_at x) m) as [[_ ->]|[_ ->]];
        [now apply elem_of_cons; right | apply list_elem_of_here].
    + constructor; [lia |]. eapply Forall_impl; [exact Hall |]. simpl. intros; lia.
  - rewrite IH. simpl. split; [apply list_elem_of_here |]. repeat constructor. lia.
Qed.

Lemma sum_usage_rows_of table sub_id :
  rows_of table sub_id = [] -> sum_usage table sub_id = 0.
Proof.
  unfold rows_of. induction table as [|x table IH]; simpl; [reflexivity |].
  destruct (subscription_id x =? sub_id); [discriminate | exact IH].
Qed.

Lemma sum_usage_nonneg table sub_id : 0 <= sum_usage table sub_id.
Proof.
  induction table as [|x table IH]; simpl; [lia |].
  destruct (subscription_id x =? sub_id); lia.
Qed.

(** [sync_cached_usages] rewrites two columns of every subscription and
    nothing else.  A subscription without usage rows gets a total of 0
    and no [online_at]; one with rows gets as [online_at] the latest
    [updated_at] among them, and a total that is not negative. *)
Theorem sync_cached_usages_columns table subs :
  Forall2 (fun sub sub' =>
    sub' = Subscription.set_online_at (Subscription.online_at sub')
             (Subscription.set_total_usage (Subscription.total_usage sub') sub)
    /\ 0 <= Subscription.total_usage sub'
    /\ match rows_of table (Subscription.id sub) with
       | [] => Subscription.total_usage sub' = 0 /\ Subscription.online_at sub' = None
       | rows =>
           exists m, Subscription.online_at sub' = Some m
             /\ m ∈ map updated_at rows
             /\ Forall (fun record => updated_at record <= m) rows
       end) subs (sync_cached_usages table subs).
Proof.
  unfold sync_cached_usages. induction subs as [|sub subs IH]; simpl; constructor; auto.
  split; [reflexivity |]. split.
  { apply sum_usage_nonneg. }
  simpl.
  pose proof (max_updated_at_spec table (Subscription.id sub)) as Hm.
  pose proof (sum_usage_rows_of table (Subscription.id sub)) as Hs.
  destruct (rows_of table (Subscription.id sub)) as [|x rows] eqn:Hr.
  - split; [auto |]. destruct (max_updated_at _ _) as [m|]; [| reflexivity].
    destruct Hm as [Hm _]. simpl in Hm. now apply elem_of_nil in Hm.
  - destruct (max_updated_at _ _) as [m|]; [| discriminate]. exists m. tauto.
Qed.
End CachedColumns.

(** ** The link bundle under a limit *)

Section BundleLimit.
Import LinkGeneration.









Context (LINKS : gmap Z (list string))
        (_replace_link_credentials : string -> Subscription.t -> Node.t -> option string)
        (_generate_placeholder_links : Subscription.t -> list string)
        (shuffle : nat -> list string -> list string).





Lemma insert_by_priority_sorted n l :
  StronglySorted (fun a b => Node.priority b <= Node.priority a) l ->
  StronglySorted (fun a b => Node.priority b <= Node.priority a) (insert_by_priority n l).
Proof.
  induction 1 as [|m l Hs IH Hall]; simpl; [repeat constructor |].
  destruct (Z.ltb_spec (Node.priority n) (Node.priority m)).
  - constructor; [exact IH |]. apply Forall_forall. intros x Hx.
    apply insert_by_priority_elem in Hx as [->|Hx]; [lia |].
    rewrite Forall_forall in Hall. now apply Hall.
  - constructor; [now constructor |]. constructor; [assumption |].
    eapply Forall_impl; [exact Hall |]. simpl. intros; lia.
Qed.

Lemma insert_by_priority_perm n l : insert_by_priority n l ≡ₚ n :: l.
Proof.
  induction l as [|m l IH]; simpl; [reflexivity |].
  destruct (Node.priority n <? Node.priority m); [| reflexivity].
  rewrite IH. apply Permutation_swap.
Qed.

Lemma insert_by_priority_ties p n l :
  List.filter (fun x => Node.priority x =? p) (insert_by_priority n l)
  = List.filter (fun x => Node.priority x =? p) (n :: l).
Proof.
  induction l as [|m l IH]; [reflexivity |]. cbn [insert_by_priority].
  destruct (Z.ltb_spec (Node.priority n) (Node.priority m)) as [Hlt|]; [| reflexivity].
  cbn [List.filter] in *. rewrite IH.
  destruct (Z.eqb_spec (Node.priority n) p), (Z.eqb_spec (Node.priority m) p);
    try reflexivity. lia.
Qed.

Lemma filter_comm {A} (f g : A -> bool) l :
  List.filter f (List.filter g l) = List.filter g (List.filter f l).
Proof.
  induction l as [|x l IH]; simpl; [reflexivity |].
  destruct (f x) eqn:Hf, (g x) eqn:Hg; simpl; rewrite ?Hf, ?Hg, IH; reflexivity.
Qed.

Lemma filter_perm {A} (f : A -> bool) l1 l2 :
  l1 ≡ₚ l2 -> List.filter f l1 ≡ₚ List.filter f l2.
Proof.
  induction 1 as [|x l1 l2 _ IH|x y l|l1 l2 l3 _ IH1 _ IH2]; simpl.
  - reflexivity.
  - destruct (f x); [now constructor | assumption].
  - destruct (f x), (f y); try reflexivity. apply Permutation_swap.
  - now rewrite IH1.
Qed.

Lemma filter_sorted {A} (R : A -> A -> Prop) (f : A -> bool) l :
  StronglySorted R l -> StronglySorted R (List.filter f l).
Proof.
  induction 1 as [|x l Hs IH Hall]; simpl; [constructor |].
  destruct (f x); [| assumption]. constructor; [assumption |].
  apply Forall_forall. intros y Hy. apply list_elem_of_In, filter_In in Hy as [Hy _].
  rewrite Forall_forall in Hall. now apply Hall, list_elem_of_In.
Qed.

(** The nodes a bundle draws on are those of the subscription that are
    enabled, not removed and shown, each once, by descending priority;
    nodes of equal priority keep the order the subscription lists them in. *)
Theorem active_nodes_order sub :
  let shown := List.filter (fun node => Node.availabled node && Node.show_configs node)
                 (Subscription.nodes sub) in
  active_nodes sub ≡ₚ shown
  /\ StronglySorted (fun a b => Node.priority b <= Node.priority a) (active_nodes sub)
  /\ (forall p, List.filter (fun node => Node.priority node =? p) (active_nodes sub)
               = List.filter (fun node => Node.priority node =? p) shown).
Proof.
  intros shown. unfold active_nodes, shown. generalize (Subscription.nodes sub) as l.
  intros l. split; [| split].
  - apply filter_perm. induction l as [|n l IH]; simpl; [reflexivity |].
    now rewrite insert_by_priority_perm, IH.
  - apply filter_sorted. induction l as [|n l IH]; simpl; [constructor |].
    now apply insert_by_priority_sorted.
  - intros p. rewrite !(filter_comm (fun node => Node.priority node =? p)). f_equal.
    induction l as [|n l IH]; [reflexivity |]. cbn [sorted_by_priority foldr].
    rewrite insert_by_priority_ties. cbn [List.filter].
    fold (sorted_by_priority l). now rewrite IH.
Qed.
End BundleLimit.



(** ** The reached tracker, row by row *)

Section ReachedTickRows.
Import ReachedTick.
Context (expire_warning_condition usage_warning_condition : Sub -> bool).


Lemma zip_with_map_same {A B C} (f : A -> B -> C) (g : A -> B) (l : list A) :
  zip_with f l (map g l) = map (fun x => f x (g x)) l.
Proof. induction l as [|x l IH]; simpl; [reflexivity | now rewrite IH]. Qed.

Lemma update_where_compose c1 v1 c2 v2 subs :
  update_where c2 v2 (update_where c1 v1 subs)
  = map (fun s => let s1 := if c1 s then v1 s else s in if c2 s1 then v2 s1 else s1) subs.
Proof. unfold update_where. rewrite map_map. reflexivity. Qed.

Lemma set_row_same s : set_row (row s) s = s.
Proof. now destruct s. Qed.

Lemma warned_id s : Subscription.id (row ((warned expire_warning_condition usage_warning_condition) s)) = Subscription.id (row s).
Proof. unfold warned. repeat case_match; reflexivity. Qed.

Lemma reach_id now_utc now_ts s :
  Subscription.id (row (reach now_utc now_ts s)) = Subscription.id (row s).
Proof. unfold reach. case_match; reflexivity. Qed.

Lemma renew_id renewals now_utc now_ts s :
  Subscription.id (row (renew renewals now_utc now_ts s)) = Subscription.id (row s).
Proof. unfold renew. case_match; reflexivity. Qed.

Lemma unreach_id now_ts s : Subscription.id (row (unreach now_ts s)) = Subscription.id (row s).
Proof. unfold unreach. case_match; reflexivity. Qed.

Lemma filter_ids_elem (cond : Sub -> bool) (subs : list Sub) s :
  NoDup (map (fun s => Subscription.id (row s)) subs) -> s ∈ subs ->
  (Subscription.id (row s) ∈ map (fun s => Subscription.id (row s)) (List.filter cond subs)
   <-> cond s = true).
Proof.
  intros Hnd Hs. rewrite list_elem_of_In, in_map_iff. split.
  - intros (s0 & Hid & Hin%filter_In). destruct Hin as [Hin Hc].
    assert (s0 = s) as <-; [| exact Hc].
    eapply (NoDup_map_eq (fun s => Subscription.id (row s))); eauto.
    now apply list_elem_of_In.
  - intros Hc. exists s. split; [reflexivity |]. apply filter_In.
    split; [now apply list_elem_of_In | exact Hc].
Qed.

(** With one row per id, the tick acts on each row on its own. *)
Lemma tick_rows db now_utc now_ts :
  NoDup (map (fun s => Subscription.id (row s)) (subscriptions db)) ->
  NoDup (map SubscriptionAutoRenewal.id (subscription_auto_renewals db)) ->
  subscriptions (fst (track_subscriptions_reacheds expire_warning_condition
                       usage_warning_condition db now_utc now_ts))
  = map (tick_row expire_warning_condition usage_warning_condition (subscription_auto_renewals db) now_utc now_ts) (subscriptions db).
Proof.
  intros Hsubs Hren. unfold track_subscriptions_reacheds.
  set (s1 := update_where _ _ (subscriptions db)).
  set (s2 := update_where _ _ s1). set (s3 := update_where _ _ s2).
  set (s4 := update_where _ _ s3).
  assert (E4 : s4 = map (warned expire_warning_condition usage_warning_condition) (subscriptions db)).
  { unfold s4, s3, s2, s1, update_where, warned. rewrite !map_map. reflexivity. }
  clearbody s4. clear s1 s2 s3.
  set (s5 := update_where _ _ s4).
  assert (E5 : s5 = map (fun s => reach now_utc now_ts ((warned expire_warning_condition usage_warning_condition) s)) (subscriptions db)).
  { unfold s5, update_where. rewrite E4, map_map. reflexivity. }
  assert (Hid5 : map (fun s => Subscription.id (row s)) s5
                 = map (fun s => Subscription.id (row s)) (subscriptions db)).
  { rewrite E5, map_map. apply map_ext. intros s. now rewrite reach_id, warned_id. }
  pose proof (batch_subscriptions
                (ReachedTracker.mkDB (map row s5) (subscription_auto_renewals db))
                now_utc now_ts) as Hb.
  assert (Hnd5 : NoDup (map Subscription.id (map row s5)))
    by (rewrite map_map; now rewrite Hid5).
  specialize (Hb Hnd5 Hren).
  destruct (ReachedTracker._process_auto_renewals_batch _ now_utc now_ts)
    as [renewed_db count] eqn:Hbatch.
  simpl in Hb. rewrite Hb, map_map, zip_with_map_same.
  set (s7 := update_where _ _ (map _ s5)).
  assert (E7 : s7 = map (fun s => unreach now_ts
                          (renew (subscription_auto_renewals db) now_utc now_ts
                             (reach now_utc now_ts ((warned expire_warning_condition usage_warning_condition) s)))) (subscriptions db)).
  { unfold s7, update_where. rewrite E5, !map_map. apply map_ext. intros s.
    unfold unreach, renew.
    change (ReachedTracker.joined
              (ReachedTracker.mkDB
                 (map row (map (fun s0 => reach now_utc now_ts ((warned expire_warning_condition usage_warning_condition) s0))
                             (subscriptions db)))
                 (subscription_auto_renewals db)) now_ts)
      with (ReachedTracker.joined
              (ReachedTracker.mkDB [] (subscription_auto_renewals db)) now_ts).
    destruct (ReachedTracker.joined _ now_ts _); [reflexivity |].
    now rewrite set_row_same. }
  assert (Hid7 : map (fun s => Subscription.id (row s)) s7
                 = map (fun s => Subscription.id (row s)) (subscriptions db)).
  { rewrite E7, map_map. apply map_ext. intros s.
    now rewrite unreach_id, renew_id, reach_id, warned_id. }
  assert (Hdel : update_where
                   (fun s => bool_decide (Subscription.id (row s)
                               ∈ map (fun s => Subscription.id (row s))
                                   (List.filter (auto_delete_condition now_utc) s7)))
                   (fun s => mkSub (set_removed true (row s)) None (auto_delete_days s)
                               (Some now_utc)) s7
                 = map (auto_delete now_utc) s7).
  { unfold update_where. apply map_ext_in. intros s Hs. unfold auto_delete.
    destruct (auto_delete_condition now_utc s) eqn:Hc.
    - rewrite bool_decide_eq_true_2; [reflexivity |].
      apply filter_ids_elem; [now rewrite Hid7 | now apply list_elem_of_In | exact Hc].
    - rewrite bool_decide_eq_false_2; [reflexivity |].
      rewrite filter_ids_elem; [congruence | now rewrite Hid7 | now apply list_elem_of_In]. }
  destruct (List.filter (auto_delete_condition now_utc) s7) as [|d ds] eqn:Hf.
  - cbn [fst subscriptions]. transitivity (map (auto_delete now_utc) s7).
    + rewrite <- Hdel. unfold update_where. symmetry.
      etransitivity; [| apply map_id]. apply map_ext. intros s. cbn [map].
      now rewrite bool_decide_eq_false_2 by apply not_elem_of_nil.
    + rewrite E7, map_map. reflexivity.
  - cbn [fst subscriptions]. rewrite Hdel, E7, map_map. reflexivity.
Qed.

Lemma warned_form s :
  exists e u,
    warned expire_warning_condition usage_warning_condition s
    = on_row (fun r => Subscription.set_onreached_usage u
                         (Subscription.set_onreached_expire e r)) s.
Proof.
  destruct s as [[] un d ra]. unfold warned.
  repeat case_match; do 2 eexists; cbv; reflexivity.
Qed.

Lemma warned_removed s :
  Subscription.removed (row s) = true ->
  warned expire_warning_condition usage_warning_condition s = s.
Proof.
  intros H. unfold warned, not_removed. cbv zeta.
  repeat (rewrite H; cbn [negb andb]). reflexivity.
Qed.

Lemma reach_warned_spec now_utc now_ts s :
  let x := reach now_utc now_ts (warned expire_warning_condition usage_warning_condition s) in
  let fires := negb (Subscription.removed (row s)) && negb (Subscription.reached (row s))
               && over now_ts s in
  username x = username s /\ auto_delete_days x = auto_delete_days s
  /\ removed_at x = removed_at s
  /\ Subscription.id (row x) = Subscription.id (row s)
  /\ Subscription.removed (row x) = Subscription.removed (row s)
  /\ over now_ts x = over now_ts s
  /\ Subscription.reached (row x) = (if fires then true else Subscription.reached (row s))
  /\ Subscription.reached_at (row x)
     = (if fires then Some now_utc else Subscription.reached_at (row s))
  /\ (forall r, ReachedTracker.renewed now_utc now_ts r (row x)
                = ReachedTracker.renewed now_utc now_ts r (row s))
  /\ (Subscription.removed (row s) = true -> x = s).
Proof.
  intros x fires.
  assert (Hrm : Subscription.removed (row s) = true -> x = s).
  { intros H. unfold x. rewrite warned_removed by assumption.
    unfold reach, not_removed. rewrite H. reflexivity. }
  revert Hrm. unfold x, fires. clear x fires.
  destruct (warned_form s) as (e & u & ->).
  destruct s as [[] un d ra].
  unfold reach, not_removed, over, on_row, set_row, ReachedTracker._limited_expr,
    ReachedTracker._expired_expr.
  cbn [row username auto_delete_days removed_at Subscription.removed Subscription.reached
       Subscription.set_onreached_usage Subscription.set_onreached_expire
       Subscription.id Subscription.server_key Subscription.owner Subscription.enabled
       Subscription.activated Subscription.debted Subscription.onreached_expire
       Subscription.onreached_usage Subscription.limit_usage Subscription.reset_usage
       Subscription.limit_expire Subscription.last_reset_at Subscription.inactive_at
       Subscription.reached_at Subscription.total_usage Subscription.online_at
       Subscription.nodes].
  destruct (negb removed && negb reached && _) eqn:Hf; intros Hrm; simpl;
    repeat split; try reflexivity; try assumption.
Qed.
End ReachedTickRows.

Section ReachedTickOutcome.
Import ReachedTick.
Context (expire_warning_condition usage_warning_condition : Sub -> bool).

Lemma first_in_queue_exists renewals (s : Subscription.t) subs :
  (exists r0, r0 ∈ renewals
              /\ SubscriptionAutoRenewal.subscription_id r0 = Subscription.id s) ->
  exists r, ReachedTracker.first_in_queue (ReachedTracker.mkDB subs renewals) s r.
Proof.
  unfold ReachedTracker.first_in_queue. simpl.
  induction renewals as [|x l IH]; intros (r0 & Hin & Hr0).
  - now apply elem_of_nil in Hin.
  - assert (Hdec : (exists r1, r1 ∈ l
        /\ SubscriptionAutoRenewal.subscription_id r1 = Subscription.id s)
        \/ ~ (exists r1, r1 ∈ l
        /\ SubscriptionAutoRenewal.subscription_id r1 = Subscription.id s)).
    { destruct (find (fun r => SubscriptionAutoRenewal.subscription_id r =? Subscription.id s) l)
        as [r1|] eqn:Hf.
      - left. apply List.find_some in Hf as [H1 H2]. exists r1.
        split; [now apply list_elem_of_In | now apply Z.eqb_eq].
      - right. intros (r1 & H1 & H2).
        pose proof (List.find_none _ _ Hf r1 (proj1 (list_elem_of_In _ _) H1)) as Hn.
        simpl in Hn. apply Z.eqb_neq in Hn. contradiction. }
    destruct Hdec as [Hl|Hl].
    + destruct (IH Hl) as (m & Hm & Hms & Hmin).
      destruct (decide (SubscriptionAutoRenewal.subscription_id x = Subscription.id s))
        as [Hx|Hx].
      * destruct (Z.le_gt_cases (SubscriptionAutoRenewal.id m) (SubscriptionAutoRenewal.id x)).
        -- exists m. repeat split; [now right | assumption |].
           intros r' [->|Hr']%elem_of_cons Hs'; [assumption | now apply Hmin].
        -- exists x. repeat split; [now left | assumption |].
           intros r' [->|Hr']%elem_of_cons Hs'; [lia |].
           specialize (Hmin r' Hr' Hs'). lia.
      * exists m. repeat split; [now right | assumption |].
        intros r' [->|Hr']%elem_of_cons Hs'; [contradiction | now apply Hmin].
    + apply elem_of_cons in Hin as [->|Hin]; [| exfalso; apply Hl; eauto].
      exists x. repeat split; [now left | assumption |].
      intros r' [->|Hr']%elem_of_cons Hs'; [lia | exfalso; apply Hl; eauto].
Qed.

Lemma unreach_not_reached now_ts s :
  Subscription.reached (row s) = false -> unreach now_ts s = s.
Proof. intros H. unfold unreach. now rewrite H, andb_false_r. Qed.

Lemma auto_delete_not_reached now_utc s :
  Subscription.reached (row s) = false -> auto_delete now_utc s = s.
Proof.
  intros H. unfold auto_delete, auto_delete_condition. now rewrite H, andb_false_r.
Qed.

Lemma tick_renewals db now_utc now_ts :
  subscription_auto_renewals
    (fst (track_subscriptions_reacheds expire_warning_condition usage_warning_condition
            db now_utc now_ts))
  = ReachedTracker.subscription_auto_renewals
      (fst (ReachedTracker._process_auto_renewals_batch
              (ReachedTracker.mkDB
                 (map (fun s => row (reach now_utc now_ts
                                       (warned expire_warning_condition
                                          usage_warning_condition s)))
                    (subscriptions db))
                 (subscription_auto_renewals db)) now_utc now_ts)).
Proof.
  unfold track_subscriptions_reacheds.
  set (s1 := update_where _ _ (subscriptions db)).
  set (s2 := update_where _ _ s1). set (s3 := update_where _ _ s2).
  set (s4 := update_where _ _ s3). set (s5 := update_where _ _ s4).
  assert (E5 : map row s5
               = map (fun s => row (reach now_utc now_ts
                                      (warned expire_warning_condition
                                         usage_warning_condition s)))
                   (subscriptions db)).
  { unfold s5, s4, s3, s2, s1, update_where, warned. rewrite !map_map. reflexivity. }
  rewrite E5. clearbody s5.
  destruct (ReachedTracker._process_auto_renewals_batch _ now_utc now_ts) as [rdb c].
  destruct (List.filter _ _); reflexivity.
Qed.

(** The row after the warnings and the reached flag, when it is over a
    limit and not removed: it is a candidate of the renewal batch. *)
Lemma reach_makes_candidate now_utc now_ts s :
  Subscription.removed (row s) = false -> over now_ts s = true ->
  ReachedTracker.reached_and_over now_ts
    (row (reach now_utc now_ts
            (warned expire_warning_condition usage_warning_condition s))) = true.
Proof.
  intros Hrm Hover.
  destruct (reach_warned_spec expire_warning_condition usage_warning_condition
              now_utc now_ts s) as (_ & _ & _ & _ & Hr & Ho & Hre & _).
  unfold ReachedTracker.reached_and_over. pose proof Hover as Hover'.
  unfold over in Ho, Hover'.
  rewrite Hr, Hrm, Hre, Ho, Hover', Hover, Hrm. simpl.
  now destruct (Subscription.reached (row s)).
Qed.

(** A subscription over a limit with a renewal queued ends the tick
    renewed, whether it was marked reached before or only now, and is
    not deleted by the tick however long ago it was reached; the first
    renewal of its queue is consumed. *)
Theorem tick_renews_instead_of_deleting db now_utc now_ts i s r :
  NoDup (map (fun s => Subscription.id (row s)) (subscriptions db)) ->
  NoDup (map SubscriptionAutoRenewal.id (subscription_auto_renewals db)) ->
  subscriptions db !! i = Some s ->
  Subscription.removed (row s) = false ->
  over now_ts s = true ->
  ReachedTracker.first_in_queue
    (ReachedTracker.mkDB (map row (subscriptions db)) (subscription_auto_renewals db))
    (row s) r ->
  let db' := fst (track_subscriptions_reacheds expire_warning_condition
                    usage_warning_condition db now_utc now_ts) in
  subscriptions db' !! i
  = Some (set_row (ReachedTracker.renewed now_utc now_ts r (row s)) s)
  /\ (r ∉ subscription_auto_renewals db').
Proof.
  intros Hsubs Hren Hi Hrm Hover Hfirst db'.
  pose proof (reach_makes_candidate now_utc now_ts s Hrm Hover) as Hcand.
  destruct (reach_warned_spec expire_warning_condition usage_warning_condition
              now_utc now_ts s) as (Hu & Hd & Hra & Hid & Hr & Ho & _ & _ & Hrenewed & _).
  set (x := reach now_utc now_ts
              (warned expire_warning_condition usage_warning_condition s)) in *.
  assert (Hj : forall subs, ReachedTracker.joined
                 (ReachedTracker.mkDB subs (subscription_auto_renewals db)) now_ts (row x)
               = Some r).
  { intros subs. apply joined_first; [assumption | assumption |].
    destruct Hfirst as (H1 & H2 & H3).
    split; [exact H1 |]. split; [now rewrite Hid |].
    intros r' Hr'. rewrite Hid. now apply H3. }
  split.
  - unfold db'. rewrite tick_rows by assumption. rewrite list_lookup_fmap, Hi. simpl.
    f_equal. unfold tick_row. fold x. unfold renew. rewrite Hj, Hrenewed.
    replace (set_row (ReachedTracker.renewed now_utc now_ts r (row s)) x)
      with (set_row (ReachedTracker.renewed now_utc now_ts r (row s)) s)
      by (unfold set_row; now rewrite Hu, Hd, Hra).
    rewrite unreach_not_reached by reflexivity.
    now rewrite auto_delete_not_reached by reflexivity.
  - unfold db'. rewrite tick_renewals. intros Hin.
    apply batch_deletes in Hin; [apply Hin | assumption |].
    + exists (row x). split; [| apply Hj]. simpl.
      apply (list_elem_of_fmap_2 (fun s => row (reach now_utc now_ts
               (warned expire_warning_condition usage_warning_condition s)))).
      eapply list_elem_of_lookup_2; eauto.
    + simpl. apply Hfirst.
Qed.

(** The tick deletes a row exactly when it was already marked reached
    at least [auto_delete_days] days ago, that number is positive, the
    row is still over a limit and no renewal is queued for it.  The
    deleted row loses its username and gets [removed_at]. *)
Theorem tick_auto_delete_iff db now_utc now_ts i s :
  NoDup (map (fun s => Subscription.id (row s)) (subscriptions db)) ->
  NoDup (map SubscriptionAutoRenewal.id (subscription_auto_renewals db)) ->
  subscriptions db !! i = Some s ->
  Subscription.removed (row s) = false ->
  exists s',
    subscriptions (fst (track_subscriptions_reacheds expire_warning_condition
                          usage_warning_condition db now_utc now_ts)) !! i = Some s'
    /\ (Subscription.removed (row s') = true <->
        Subscription.reached (row s) = true
        /\ over now_ts s = true
        /\ no_renewal (subscription_auto_renewals db) (Subscription.id (row s))
        /\ exists days t,
             auto_delete_days s = Some days /\ 0 < days
             /\ Subscription.reached_at (row s) = Some t
             /\ days * 86400 * 1000000 <= now_utc - t)
    /\ (Subscription.removed (row s') = true ->
        username s' = None /\ removed_at s' = Some now_utc
        /\ Subscription.id (row s') = Subscription.id (row s)).
Proof.
  intros Hsubs Hren Hi Hrm.
  rewrite tick_rows by assumption. rewrite list_lookup_fmap, Hi. simpl.
  eexists. split; [reflexivity |].
  destruct (reach_warned_spec expire_warning_condition usage_warning_condition
              now_utc now_ts s) as (Hu & Hd & Hra & Hid & Hr & Ho & Hre & Hat & Hrenewed & _).
  unfold tick_row.
  set (x := reach now_utc now_ts
              (warned expire_warning_condition usage_warning_condition s)) in *.
  rewrite Hrm in Hre, Hat. cbn [negb andb] in Hre, Hat.
  (* the renewal step *)
  unfold renew.
  destruct (ReachedTracker.joined _ now_ts (row x)) as [r|] eqn:Hj.
  { (* renewed: not deleted *)
    apply joined_some in Hj as [Hcand Hfirst].
    rewrite unreach_not_reached by reflexivity.
    rewrite auto_delete_not_reached by reflexivity.
    rewrite Hrenewed.
    cbn [row set_row ReachedTracker.renewed Subscription.removed].
    rewrite Hrm. split; [| discriminate].
    split; [discriminate |]. intros (_ & _ & Hno & _). exfalso.
    destruct Hfirst as (Hin & Hsid & _). simpl in Hin. apply (Hno r Hin).
    now rewrite Hsid, Hid. }
  (* not renewed *)
  assert (Hqueue : Subscription.reached (row x) = true -> over now_ts s = true ->
                   no_renewal (subscription_auto_renewals db) (Subscription.id (row s))).
  { intros Hrx Hov r0 Hr0 Hs0.
    destruct (first_in_queue_exists (subscription_auto_renewals db) (row x) [])
      as [r Hfirst]; [exists r0; split; [assumption | now rewrite Hid] |].
    erewrite joined_first in Hj; [discriminate | assumption | | exact Hfirst].
    unfold ReachedTracker.reached_and_over. unfold over in Ho, Hov.
    now rewrite Hr, Hrm, Hrx, Ho, Hov. }
  unfold unreach, not_removed. rewrite Hr, Hrm, Ho. cbn [negb andb].
  destruct (Subscription.reached (row x)) eqn:Hrx; cbn [andb].
  - destruct (over now_ts s) eqn:Hov; cbn [negb].
    + (* still reached and over: the deletion test decides *)
      unfold auto_delete, auto_delete_condition, not_removed.
      rewrite Hr, Hrm, Hrx, Hd, Hat. cbn [negb andb].
      destruct (Subscription.reached (row s)) eqn:Hrs; cbn [negb andb] in *.
      * destruct (auto_delete_days s) as [days|] eqn:Hdays.
        -- destruct (Z.ltb_spec 0 days); cbn [andb].
           ++ destruct (Subscription.reached_at (row s)) as [t|] eqn:Ht.
              ** destruct (Z.leb_spec (days * 86400 * 1000000) (now_utc - t)).
                 --- simpl. split; [| intros _; repeat split; auto].
                     split; [intros _ | reflexivity].
                     repeat split; auto. exists days, t. auto.
                 --- rewrite Hr, Hrm. split; [| discriminate].
                     split; [discriminate |].
                     intros (_ & _ & _ & d' & t' & [= <-] & _ & [= <-] & Hle). lia.
              ** rewrite Hr, Hrm. split; [| discriminate]. split; [discriminate |].
                 intros (_ & _ & _ & d' & t' & _ & _ & [=] & _).
           ++ rewrite Hr, Hrm. split; [| discriminate]. split; [discriminate |].
              intros (_ & _ & _ & d' & t' & [= <-] & Hpos & _). lia.
        -- rewrite Hr, Hrm. split; [| discriminate]. split; [discriminate |].
           intros (_ & _ & _ & d' & t' & [=] & _).
      * (* marked only now: [reached_at] is the time of the tick *)
        destruct (auto_delete_days s) as [days|]; [| rewrite Hr, Hrm;
          split; [split; [discriminate | intros (? & _); discriminate] | discriminate]].
        destruct (Z.ltb_spec 0 days); cbn [andb];
          [| rewrite Hr, Hrm;
             split; [split; [discriminate | intros (? & _); discriminate] | discriminate]].
        destruct (Z.leb_spec (days * 86400 * 1000000) (now_utc - now_utc)); [lia |].
        rewrite Hr, Hrm.
        split; [split; [discriminate | intros (? & _); discriminate] | discriminate].
    + (* no longer over: the flag is cleared *)
      rewrite auto_delete_not_reached by reflexivity.
      cbn [row on_row set_row Subscription.removed Subscription.set_onreached_usage
           Subscription.set_onreached_expire Subscription.set_reached_at
           Subscription.set_reached].
      rewrite Hr, Hrm.
      split; [split; [discriminate | intros (_ & ? & _); discriminate] | discriminate].
  - (* not reached *)
    unfold auto_delete, auto_delete_condition, not_removed.
    rewrite Hrx, andb_false_r. cbn [andb]. rewrite Hr, Hrm.
    split; [| discriminate]. split; [discriminate |].
    intros (Hrs & Hov & _). rewrite Hrs in Hre. cbn [negb andb] in Hre. congruence.
Qed.
End ReachedTickOutcome.

Section ReachedTickFlags.
Import ReachedTick.
Context (expire_warning_condition usage_warning_condition : Sub -> bool).

Lemma auto_delete_cases now_utc s :
  auto_delete now_utc s = s \/ Subscription.removed (row (auto_delete now_utc s)) = true.
Proof. unfold auto_delete. destruct (auto_delete_condition now_utc s); auto. Qed.

Lemma unreach_cases now_ts s :
  (unreach now_ts s = s
   /\ (Subscription.removed (row s) = false -> Subscription.reached (row s) = true ->
       over now_ts s = true))
  \/ (Subscription.reached (row (unreach now_ts s)) = false
      /\ over now_ts (unreach now_ts s) = false).
Proof.
  unfold unreach, not_removed.
  destruct (negb (Subscription.removed (row s)) && Subscription.reached (row s)
            && negb (over now_ts s)) eqn:Hc.
  - right. apply andb_true_iff in Hc as [_ Ho]. apply negb_true_iff in Ho.
    split; [reflexivity |]. rewrite <- Ho. destruct s as [[] ? ? ?]. reflexivity.
  - left. split; [reflexivity |]. intros Hrm Hre. rewrite Hrm, Hre in Hc.
    cbn [negb andb] in Hc. now apply negb_false_iff in Hc.
Qed.

(** A row that was already removed is not touched by the tick. *)
Theorem tick_leaves_removed_rows db now_utc now_ts i s :
  NoDup (map (fun s => Subscription.id (row s)) (subscriptions db)) ->
  NoDup (map SubscriptionAutoRenewal.id (subscription_auto_renewals db)) ->
  subscriptions db !! i = Some s ->
  Subscription.removed (row s) = true ->
  subscriptions (fst (track_subscriptions_reacheds expire_warning_condition
                        usage_warning_condition db now_utc now_ts)) !! i = Some s.
Proof.
  intros Hsubs Hren Hi Hrm.
  rewrite tick_rows by assumption. rewrite list_lookup_fmap, Hi. cbn [fmap option_fmap option_map].
  f_equal. unfold tick_row.
  destruct (reach_warned_spec expire_warning_condition usage_warning_condition
              now_utc now_ts s) as (_ & _ & _ & _ & _ & _ & _ & _ & _ & Hx).
  rewrite (Hx Hrm). unfold renew.
  rewrite joined_none
    by (left; unfold ReachedTracker.reached_and_over; now rewrite Hrm).
  assert (Eu : unreach now_ts s = s)
    by (unfold unreach, not_removed; now rewrite Hrm).
  rewrite Eu. unfold auto_delete, auto_delete_condition, not_removed. now rewrite Hrm.
Qed.

(** After the tick a row that is not removed carries [reached] only if
    it is over a limit; and one that is over a limit without carrying
    [reached] has just been renewed from its queue. *)
Theorem tick_reached_flag db now_utc now_ts i s s' :
  NoDup (map (fun s => Subscription.id (row s)) (subscriptions db)) ->
  NoDup (map SubscriptionAutoRenewal.id (subscription_auto_renewals db)) ->
  subscriptions db !! i = Some s ->
  subscriptions (fst (track_subscriptions_reacheds expire_warning_condition
                        usage_warning_condition db now_utc now_ts)) !! i = Some s' ->
  Subscription.removed (row s') = false ->
  (Subscription.reached (row s') = true -> over now_ts s' = true)
  /\ (Subscription.reached (row s') = false -> over now_ts s' = true ->
      exists r,
        ReachedTracker.first_in_queue
          (ReachedTracker.mkDB (map row (subscriptions db)) (subscription_auto_renewals db))
          (row s) r
        /\ s' = set_row (ReachedTracker.renewed now_utc now_ts r (row s)) s).
Proof.
  intros Hsubs Hren Hi Hi' Hrm'.
  rewrite tick_rows in Hi' by assumption. rewrite list_lookup_fmap, Hi in Hi'.
  injection Hi' as <-. unfold tick_row in *.
  destruct (reach_warned_spec expire_warning_condition usage_warning_condition
              now_utc now_ts s) as (Hu & Hd & Hra & Hid & Hr & Ho & Hre & _ & Hrenewed & _).
  set (x := reach now_utc now_ts
              (warned expire_warning_condition usage_warning_condition s)) in *.
  set (z := renew (subscription_auto_renewals db) now_utc now_ts x) in *.
  destruct (auto_delete_cases now_utc (unreach now_ts z)) as [Ea|Ea]; [| congruence].
  rewrite Ea in *. clear Ea.
  destruct (unreach_cases now_ts z) as [[Eu Hz]|[Hre' Hov']].
  - rewrite Eu in *. clear Eu. split; [now apply Hz |].
    intros Hrz Hoz. unfold z, renew in *.
    destruct (ReachedTracker.joined _ now_ts (row x)) as [r|] eqn:Hj.
    + exists r. apply joined_some in Hj as [_ (H1 & H2 & H3)]. split.
      * split; [exact H1 |]. split; [now rewrite <- Hid |].
        intros r' Hr'. rewrite <- Hid. now apply H3.
      * rewrite Hrenewed. unfold set_row. now rewrite Hu, Hd, Hra.
    + exfalso. rewrite Ho in Hoz. rewrite Hr in Hrm'. rewrite Hrm', Hoz in Hre.
      cbn [negb andb] in Hre. rewrite Hrz in Hre.
      destruct (Subscription.reached (row s)); cbn [negb andb] in Hre; congruence.
  - split; [congruence |]. intros _ Hov. congruence.
Qed.
End ReachedTickFlags.

Ltac distinct_ids :=
  vm_compute;
  repeat (apply NoDup_cons; split;
          [ let H := fresh in
            intros H;
            repeat (apply elem_of_cons in H as [H|H]; [discriminate H |]);
            now apply elem_of_nil in H
          | ]);
  apply NoDup_nil_2.

Lemma tick_renews_instead_of_deleting_witness :
  let db' := fst (ReachedTick.track_subscriptions_reacheds TickScenario.no_warning
                    TickScenario.no_warning TickScenario.db Scenario.now Scenario.now_ts) in
  ReachedTick.subscriptions db' !! 0%nat
  = Some (ReachedTick.set_row
            (ReachedTracker.renewed Scenario.now Scenario.now_ts Scenario.renewal_A
               (ReachedTick.row TickScenario.sub_queued)) TickScenario.sub_queued)
  /\ (Scenario.renewal_A ∉ ReachedTick.subscription_auto_renewals db').
Proof.
  apply (tick_renews_instead_of_deleting TickScenario.no_warning TickScenario.no_warning
           TickScenario.db Scenario.now Scenario.now_ts 0 TickScenario.sub_queued
           Scenario.renewal_A).
  - distinct_ids.
  - distinct_ids.
  - reflexivity.
  - reflexivity.
  - vm_compute. reflexivity.
  - split; [apply elem_of_cons; right; apply list_elem_of_here |].
    split; [reflexivity |].
    intros r' Hr' _. cbn [ReachedTracker.subscription_auto_renewals TickScenario.db
      ReachedTick.subscription_auto_renewals] in Hr'.
    apply elem_of_cons in Hr' as [->|Hr']; [vm_compute; discriminate |].
    apply list_elem_of_singleton in Hr' as ->. vm_compute. discriminate.
Defined.

Lemma tick_auto_delete_iff_witness :
  exists s',
    ReachedTick.subscriptions
      (fst (ReachedTick.track_subscriptions_reacheds TickScenario.no_warning
              TickScenario.no_warning TickScenario.db Scenario.now Scenario.now_ts))
      !! 1%nat = Some s'
    /\ (Subscription.removed (ReachedTick.row s') = true <->
        Subscription.reached (ReachedTick.row TickScenario.sub_stale) = true
        /\ ReachedTick.over Scenario.now_ts TickScenario.sub_stale = true
        /\ ReachedTick.no_renewal (ReachedTick.subscription_auto_renewals TickScenario.db)
             (Subscription.id (ReachedTick.row TickScenario.sub_stale))
        /\ exists days t,
             ReachedTick.auto_delete_days TickScenario.sub_stale = Some days /\ 0 < days
             /\ Subscription.reached_at (ReachedTick.row TickScenario.sub_stale) = Some t
             /\ days * 86400 * 1000000 <= Scenario.now - t)
    /\ (Subscription.removed (ReachedTick.row s') = true ->
        ReachedTick.username s' = None /\ ReachedTick.removed_at s' = Some Scenario.now
        /\ Subscription.id (ReachedTick.row s')
           = Subscription.id (ReachedTick.row TickScenario.sub_stale)).
Proof.
  apply (tick_auto_delete_iff TickScenario.no_warning TickScenario.no_warning
           TickScenario.db Scenario.now Scenario.now_ts 1 TickScenario.sub_stale).
  - distinct_ids.
  - distinct_ids.
  - reflexivity.
  - reflexivity.
Defined.

Lemma tick_leaves_removed_rows_witness :
  ReachedTick.subscriptions
    (fst (ReachedTick.track_subscriptions_reacheds TickScenario.no_warning
            TickScenario.no_warning TickScenario.db Scenario.now Scenario.now_ts))
    !! 2%nat = Some TickScenario.sub_gone.
Proof.
  apply (tick_leaves_removed_rows TickScenario.no_warning TickScenario.no_warning
           TickScenario.db Scenario.now Scenario.now_ts 2 TickScenario.sub_gone).
  - distinct_ids.
  - distinct_ids.
  - reflexivity.
  - reflexivity.
Defined.

Lemma tick_reached_flag_witness :
  let s' := ReachedTick.set_row
              (ReachedTracker.renewed Scenario.now Scenario.now_ts Scenario.renewal_A
                 (ReachedTick.row TickScenario.sub_queued)) TickScenario.sub_queued in
  (Subscription.reached (ReachedTick.row s') = true ->
   ReachedTick.over Scenario.now_ts s' = true)
  /\ (Subscription.reached (ReachedTick.row s') = false ->
      ReachedTick.over Scenario.now_ts s' = true ->
      exists r,
        ReachedTracker.first_in_queue
          (ReachedTracker.mkDB (map ReachedTick.row (ReachedTick.subscriptions TickScenario.db))
             (ReachedTick.subscription_auto_renewals TickScenario.db))
          (ReachedTick.row TickScenario.sub_queued) r
        /\ s' = ReachedTick.set_row
                  (ReachedTracker.renewed Scenario.now Scenario.now_ts r
                     (ReachedTick.row TickScenario.sub_queued)) TickScenario.sub_queued).
Proof.
  intros s'.
  apply (tick_reached_flag TickScenario.no_warning TickScenario.no_warning
           TickScenario.db Scenario.now Scenario.now_ts 0 TickScenario.sub_queued s').
  - distinct_ids.
  - distinct_ids.
  - reflexivity.
  - vm_compute. reflexivity.
  - reflexivity.
Defined.

(** ** Resellers and the debted flag *)

Section ResellersTracker.
Import Resellers.

(** An admin has reached its usage limit only once its usage is above
    a limit that is set and not 0; usage equal to the limit does not
    count, and neither does a count equal to the count limit. *)
Theorem reached_limit_is_strict (a : AdminRow) :
  (reached_usage_limit a = true <->
   exists l, usage_limit a = Some l /\ l <> 0 /\ l < current_usage a)
  /\ (reached_count_limit a = true <->
      exists l, count_limit a = Some l /\ l <> 0 /\ l < current_count a).
Proof.
  unfold reached_usage_limit, reached_count_limit, left_usage, left_count. split.
  - destruct (usage_limit a) as [l|].
    + destruct (Z.eqb_spec l 0) as [->|Hl].
      * split; [discriminate | intros (l' & [= <-] & ? & _); lia].
      * rewrite andb_true_iff, negb_true_iff, Z.eqb_neq, Z.leb_le. split.
        -- intros [? ?]. exists l. repeat split; auto. lia.
        -- intros (l' & [= <-] & _ & ?). lia.
    + split; [discriminate | intros (l' & [=] & _)].
  - destruct (count_limit a) as [l|].
    + destruct (Z.eqb_spec l 0) as [->|Hl].
      * split; [discriminate | intros (l' & [= <-] & ? & _); lia].
      * rewrite andb_true_iff, negb_true_iff, Z.eqb_neq, Z.leb_le. split.
        -- intros [? ?]. exists l. repeat split; auto. lia.
        -- intros (l' & [= <-] & _ & ?). lia.
    + split; [discriminate | intros (l' & [=] & _)].
Qed.

Lemma debted_ids_elem subs owner_ids s :
  NoDup (map Subscription.id subs) -> s ∈ subs ->
  (Subscription.id s ∈ debted_ids subs owner_ids <->
   Subscription.debted s = true /\ owner_id s ∈ owner_ids).
Proof.
  intros Hnd Hs. unfold debted_ids. rewrite list_elem_of_In, in_map_iff. split.
  - intros (s0 & Hid & [Hin Hc]%filter_In).
    assert (s0 = s) as ->.
    { eapply (NoDup_map_eq Subscription.id); eauto. now apply list_elem_of_In. }
    apply andb_true_iff in Hc as [Hd Ho]. split; [exact Hd |].
    now apply bool_decide_eq_true in Ho.
  - intros [Hd Ho]. exists s. split; [reflexivity |]. apply filter_In.
    split; [now apply list_elem_of_In |]. rewrite Hd. simpl.
    now apply bool_decide_eq_true.
Qed.

Lemma set_debted_same s : set_debted (Subscription.debted s) s = s.
Proof. now destruct s. Qed.

(** [bulk_debted] selects the rows that are debted already and marks
    them debted: with one row per id it changes nothing. *)
Theorem bulk_debted_changes_nothing subs owner_ids :
  NoDup (map Subscription.id subs) -> bulk_debted subs owner_ids = subs.
Proof.
  intros Hnd. unfold bulk_debted. etransitivity; [| apply map_id].
  apply map_ext_in. intros s Hs%list_elem_of_In.
  destruct (bool_decide (Subscription.id s ∈ debted_ids subs owner_ids)) eqn:Hb;
    [| reflexivity].
  apply bool_decide_eq_true in Hb. apply debted_ids_elem in Hb as [Hd _]; auto.
  rewrite <- Hd. apply set_debted_same.
Qed.

Lemma bulk_dedebted_ids subs owner_ids :
  map Subscription.id (bulk_dedebted subs owner_ids) = map Subscription.id subs.
Proof.
  unfold bulk_dedebted. rewrite map_map. apply map_ext. intros s.
  now destruct (bool_decide _).
Qed.

Lemma in_credit_ids all_admins s :
  owner_id s ∈ map (fun a => Admin.id (admin a))
                 (List.filter (fun a => negb (reached_usage_limit a))
                    (List.filter is_seller all_admins))
  <-> owner_in_credit all_admins s.
Proof.
  unfold owner_in_credit. rewrite list_elem_of_In, in_map_iff. split.
  - intros (a & Hid & [[Hin Hs]%filter_In Hr]%filter_In).
    exists a. repeat split; auto; [now apply list_elem_of_In | now apply negb_true_iff].
  - intros (a & Hin & Hid & Hs & Hr). exists a. split; [exact Hid |].
    apply filter_In. split; [| now rewrite Hr].
    apply filter_In. split; [now apply list_elem_of_In | exact Hs].
Qed.

(** The resellers tracker never marks a subscription debted.  With one
    row per id, it clears the flag of the debted subscriptions whose
    owner is a seller or reseller that has not reached its usage limit,
    and leaves every other row as it is. *)
Theorem track_resellers_only_clears cache subs all_admins now :
  NoDup (map Subscription.id subs) ->
  Forall2 (fun s s' =>
    (Subscription.debted s = true /\ owner_in_credit all_admins s ->
     s' = set_debted false s)
    /\ (~ (Subscription.debted s = true /\ owner_in_credit all_admins s) -> s' = s))
    subs (snd (track_resellers cache subs all_admins now)).
Proof.
  intros Hnd. unfold track_resellers.
  set (admins := List.filter is_seller all_admins).
  set (activated := map _ (List.filter (fun a => negb (reached_usage_limit a)) admins)).
  set (deactivated := map _ (List.filter reached_usage_limit admins)).
  assert (Hcredit : forall s, owner_id s ∈ activated <-> owner_in_credit all_admins s)
    by (intros s; apply in_credit_ids).
  assert (Hres : Forall2 (fun s s' =>
    (Subscription.debted s = true /\ owner_in_credit all_admins s ->
     s' = set_debted false s)
    /\ (~ (Subscription.debted s = true /\ owner_in_credit all_admins s) -> s' = s))
    subs (bulk_dedebted subs activated)).
  { unfold bulk_dedebted. cbv zeta. apply Forall2_fmap_r, Forall_Forall2_diag, Forall_forall.
    intros s Hs. unfold compose. cbv beta.
    destruct (decide (Subscription.id s ∈ debted_ids subs activated)) as [Hb|Hb].
    - rewrite bool_decide_eq_true_2 by exact Hb.
      apply debted_ids_elem in Hb as [Hd Ho]; auto.
      split; [reflexivity |]. intros Hn. exfalso. apply Hn. split; [exact Hd |].
      now apply Hcredit.
    - rewrite bool_decide_eq_false_2 by exact Hb. split; [| reflexivity].
      intros [Hd Ho]. exfalso. apply Hb. apply debted_ids_elem; auto.
      split; [exact Hd | now apply Hcredit]. }
  assert (Hnone : activated = [] ->
    Forall2 (fun s s' =>
      (Subscription.debted s = true /\ owner_in_credit all_admins s ->
       s' = set_debted false s)
      /\ (~ (Subscription.debted s = true /\ owner_in_credit all_admins s) -> s' = s))
      subs subs).
  { intros E. apply Forall_Forall2_diag, Forall_forall. intros s _.
    split; [| reflexivity]. intros [_ Hc%Hcredit]. rewrite E in Hc.
    now apply elem_of_nil in Hc. }
  destruct admins as [|a0 admins0] eqn:Ha.
  - simpl. apply Hnone. reflexivity.
  - cbn [snd].
    assert (Hsubs1 : Forall2 (fun s s' =>
      (Subscription.debted s = true /\ owner_in_credit all_admins s ->
       s' = set_debted false s)
      /\ (~ (Subscription.debted s = true /\ owner_in_credit all_admins s) -> s' = s))
      subs (match activated with [] => subs | _ => bulk_dedebted subs activated end)).
    { destruct activated eqn:E; [now apply Hnone | exact Hres]. }
    assert (Hnd1 : NoDup (map Subscription.id
                     (match activated with [] => subs | _ => bulk_dedebted subs activated end))).
    { destruct activated; [assumption | now rewrite bulk_dedebted_ids]. }
    destruct deactivated; [exact Hsubs1 |].
    now rewrite bulk_debted_changes_nothing.
Qed.
End ResellersTracker.

Lemma bulk_debted_changes_nothing_witness :
  Resellers.bulk_debted [Scenario.sub_S2; Scenario.sub_old; Scenario.sub_alice] [1]
  = [Scenario.sub_S2; Scenario.sub_old; Scenario.sub_alice].
Proof.
  apply bulk_debted_changes_nothing. distinct_ids.
Defined.

Lemma track_resellers_only_clears_witness :
  let subs := [Resellers.set_debted true Scenario.sub_S2; Scenario.sub_old] in
  let all_admins := [Resellers.mkAdminRow Scenario.owner (Some Resellers.RESELLER)
                       (Some 100) 100 None 0] in
  Forall2 (fun s s' =>
    (Subscription.debted s = true /\ Resellers.owner_in_credit all_admins s ->
     s' = Resellers.set_debted false s)
    /\ (~ (Subscription.debted s = true /\ Resellers.owner_in_credit all_admins s) -> s' = s))
    subs (snd (Resellers.track_resellers AdminCacheManager.init subs all_admins 100)).
Proof.
  intros subs all_admins.
  apply (track_resellers_only_clears AdminCacheManager.init subs all_admins 100).
  distinct_ids.
Defined.

(** ** The hourly usage log *)

Section HourlyLog.
Import UsageRecord.

Implicit Types (logs : list Log) (st : Loop) (subs_info : list (Z * Z * option string)).

Lemma all_logged_app logs1 logs2 i :
  all_logged_usages (logs1 ++ logs2) i
  = all_logged_usages logs1 i + all_logged_usages logs2 i.
Proof.
  induction logs1 as [|x l IH]; simpl; [reflexivity |].
  destruct (subscription_id x =? i); lia.
Qed.

Lemma add_to_last_logged h sub delta logs logs' i :
  add_to_last (in_hour h sub) delta logs = Some logs' ->
  all_logged_usages logs' i
  = all_logged_usages logs i + (if sub =? i then delta else 0).
Proof.
  revert logs'. induction logs as [|x l IH]; simpl; intros logs'; [discriminate |].
  destruct (add_to_last (in_hour h sub) delta l) as [l'|].
  - intros [= <-]. simpl. rewrite (IH l' eq_refl).
    destruct (subscription_id x =? i); lia.
  - destruct (in_hour h sub x) eqn:Hp; [| discriminate]. intros [= <-]. simpl.
    unfold in_hour in Hp. apply andb_true_iff in Hp as [Hp _].
    apply andb_true_iff in Hp as [Hp _]. apply Z.eqb_eq in Hp. rewrite Hp.
    destruct (sub =? i); lia.
Qed.

Lemma record_sub_logged total all_logged h st sub owner name i :
  let st' := record_sub total all_logged h st (sub, owner, name) in
  all_logged_usages (logs st' ++ added st') i
  = all_logged_usages (logs st ++ added st) i
    + (if sub =? i then due total all_logged sub else 0).
Proof.
  unfold record_sub, due. cbv zeta.
  destruct (Z.ltb_spec 0 (total sub - all_logged sub)) as [Hpos|Hle].
  - destruct (add_to_last _ _ (logs st)) as [logs'|] eqn:Ha; cbn [logs added].
    + rewrite !all_logged_app, (add_to_last_logged _ _ _ _ _ i Ha).
      destruct (sub =? i); lia.
    + rewrite !all_logged_app. simpl. destruct (sub =? i); lia.
  - destruct (sub =? i); lia.
Qed.

Lemma record_subs_logged total all_logged h subs_info st i :
  let st' := foldl (record_sub total all_logged h) st subs_info in
  all_logged_usages (logs st' ++ added st') i
  = all_logged_usages (logs st ++ added st) i
    + Z.of_nat (length (List.filter (fun info => fst (fst info) =? i) subs_info))
      * due total all_logged i.
Proof.
  revert st. induction subs_info as [|[[sub owner] name] l IH]; intros st; cbn [foldl].
  - simpl. lia.
  - cbv zeta in *. rewrite IH, record_sub_logged. cbn [List.filter fst].
    destruct (Z.eqb_spec sub i) as [->|Hne]; cbn [length]; lia.
Qed.

Lemma filter_sub_count subs_info i :
  NoDup (map (fun info => fst (fst info)) subs_info) ->
  length (List.filter (fun info => fst (fst info) =? i) subs_info)
  = if bool_decide (i ∈ map (fun info => fst (fst info)) subs_info) then 1%nat else 0%nat.
Proof.
  induction subs_info as [|[[sub owner] name] l IH]; cbn [map fst List.filter].
  - intros _. now rewrite bool_decide_eq_false_2 by apply not_elem_of_nil.
  - intros [Hnot Hnd]%NoDup_cons. specialize (IH Hnd).
    destruct (Z.eqb_spec sub i) as [->|Hne].
    + rewrite bool_decide_eq_true_2 by apply list_elem_of_here. cbn [length].
      rewrite IH. now rewrite bool_decide_eq_false_2.
    + rewrite IH. destruct (decide (i ∈ map (fun info => fst (fst info)) l)) as [Hi|Hi].
      * rewrite !bool_decide_eq_true_2; [reflexivity | now apply elem_of_cons; right | exact Hi].
      * rewrite !bool_decide_eq_false_2; [reflexivity | | exact Hi].
        intros [E|Hi']%elem_of_cons; [congruence | contradiction].
Qed.

Lemma upsert_unfold subs_info table logs admins current_hour :
  upsert_subscription_usage subs_info table logs admins current_hour
  = let st := foldl (record_sub (total_usages table) (all_logged_usages logs) current_hour)
                (mkLoop logs [] ∅ ∅) subs_info in
    mkRecorded (UsageRecord.logs st) (added st)
      (map (fun a =>
              match admin_updates st !! Admin.id (Resellers.admin a) with
              | Some delta =>
                  if 0 <? delta
                  then set_current_usage (Resellers.current_usage a + delta) a
                  else a
              | None => a
              end) admins)
      (usages st).
Proof.
  unfold upsert_subscription_usage. destruct subs_info; [| reflexivity].
  cbn [foldl UsageRecord.logs added admin_updates usages]. f_equal.
  symmetry. etransitivity; [| apply map_id]. apply map_ext. intros a.
  now rewrite lookup_empty.
Qed.

Lemma upsert_logged subs_info table logs admins current_hour sub_id :
  all_logged_usages
    (flushed (upsert_subscription_usage subs_info table logs admins current_hour)) sub_id
  = all_logged_usages logs sub_id
    + Z.of_nat (length (List.filter (fun info => fst (fst info) =? sub_id) subs_info))
      * due (total_usages table) (all_logged_usages logs) sub_id.
Proof.
  rewrite upsert_unfold. unfold flushed. cbv zeta. cbn [r_logs r_added].
  rewrite (record_subs_logged _ _ _ subs_info (mkLoop logs [] ∅ ∅) sub_id).
  cbn [UsageRecord.logs added]. now rewrite app_nil_r.
Qed.

Lemma upsert_logged_listed subs_info table logs admins current_hour sub_id :
  NoDup (map (fun info => fst (fst info)) subs_info) ->
  sub_id ∈ map (fun info => fst (fst info)) subs_info ->
  all_logged_usages
    (flushed (upsert_subscription_usage subs_info table logs admins current_hour)) sub_id
  = Z.max (all_logged_usages logs sub_id) (total_usages table sub_id).
Proof.
  intros Hnd Hi. rewrite upsert_logged, filter_sub_count by assumption.
  rewrite bool_decide_eq_true_2 by exact Hi. unfold due. lia.
Qed.

(** With one row per subscription in [subs_info], the task brings the
    logs of every listed subscription up to the sum of its usage rows,
    when that sum is larger, and never lowers them; the logs of other
    subscriptions add up as before. *)
Theorem usage_log_catches_up subs_info table logs admins current_hour sub_id :
  NoDup (map (fun info => fst (fst info)) subs_info) ->
  let r := upsert_subscription_usage subs_info table logs admins current_hour in
  (sub_id ∈ map (fun info => fst (fst info)) subs_info ->
   all_logged_usages (flushed r) sub_id
   = Z.max (all_logged_usages logs sub_id) (total_usages table sub_id))
  /\ ((sub_id ∉ map (fun info => fst (fst info)) subs_info) ->
      all_logged_usages (flushed r) sub_id = all_logged_usages logs sub_id).
Proof.
  intros Hnd r. split; intros Hi.
  - now apply upsert_logged_listed.
  - unfold r. rewrite upsert_logged, filter_sub_count by assumption.
    rewrite bool_decide_eq_false_2 by exact Hi. lia.
Qed.

Lemma record_subs_settled total all_logged h subs_info st :
  (forall info, info ∈ subs_info ->
     total (fst (fst info)) - all_logged (fst (fst info)) <= 0) ->
  foldl (record_sub total all_logged h) st subs_info = st.
Proof.
  revert st. induction subs_info as [|[[sub owner] name] l IH]; intros st H; cbn [foldl];
    [reflexivity |].
  assert (E : record_sub total all_logged h st (sub, owner, name) = st).
  { unfold record_sub. cbv zeta.
    specialize (H (sub, owner, name) (list_elem_of_here _ _)). cbn [fst] in H.
    destruct (Z.ltb_spec 0 (total sub - all_logged sub)); [lia | reflexivity]. }
  rewrite E. apply IH. intros info Hin. apply H. now apply elem_of_cons; right.
Qed.

(** Running the task again, in the same hour or a later one, over the
    logs it left changes nothing: no log is raised, none is added, no
    admin is billed and nothing is reported. *)
Theorem usage_log_second_run subs_info table logs admins current_hour later_hour :
  NoDup (map (fun info => fst (fst info)) subs_info) ->
  let r := upsert_subscription_usage subs_info table logs admins current_hour in
  upsert_subscription_usage subs_info table (flushed r) (r_admins r) later_hour
  = mkRecorded (flushed r) [] (r_admins r) ∅.
Proof.
  intros Hnd r. rewrite upsert_unfold. cbv zeta.
  rewrite record_subs_settled.
  - cbn [UsageRecord.logs added admin_updates usages]. f_equal.
    etransitivity; [| apply map_id]. apply map_ext. intros a.
    now rewrite lookup_empty.
  - intros info Hin. unfold r.
    rewrite upsert_logged_listed; [lia | assumption |].
    apply (list_elem_of_fmap_2 (fun info => fst (fst info))). exact Hin.
Qed.

Lemma bump_lookup (k k' : Z) v (d : gmap Z Z) :
  default 0 (bump k v d !! k') = default 0 (d !! k') + (if k =? k' then v else 0).
Proof.
  unfold bump. destruct (Z.eqb_spec k k') as [->|Hne].
  - now rewrite lookup_insert_eq.
  - rewrite lookup_insert_ne by assumption. lia.
Qed.

Lemma record_subs_bill total all_logged h subs_info st owner_id :
  let st' := foldl (record_sub total all_logged h) st subs_info in
  default 0 (admin_updates st' !! owner_id)
  = default 0 (admin_updates st !! owner_id)
    + foldr (fun info acc =>
               let '(sub_id, owner, _) := info in
               if owner =? owner_id then due total all_logged sub_id + acc else acc)
        0 subs_info.
Proof.
  revert st. induction subs_info as [|[[sub owner] name] l IH]; intros st; cbn [foldl foldr].
  - lia.
  - cbv zeta in *. rewrite IH. clear IH. unfold record_sub, due. cbv zeta.
    destruct (Z.ltb_spec 0 (total sub - all_logged sub)) as [Hpos|Hle].
    + destruct (add_to_last _ _ (logs st)); cbn [admin_updates];
        rewrite bump_lookup; destruct (owner =? owner_id); lia.
    + destruct (owner =? owner_id); lia.
Qed.

Lemma record_subs_positive total all_logged h subs_info st :
  (forall o d, admin_updates st !! o = Some d -> 0 < d) ->
  forall o d,
    admin_updates (foldl (record_sub total all_logged h) st subs_info) !! o = Some d ->
    0 < d.
Proof.
  revert st. induction subs_info as [|[[sub owner] name] l IH]; intros st H; cbn [foldl];
    [exact H |].
  apply IH. unfold record_sub. cbv zeta.
  destruct (Z.ltb_spec 0 (total sub - all_logged sub)) as [Hpos|Hle]; [| exact H].
  assert (Hb : forall o d,
            bump owner (total sub - all_logged sub) (admin_updates st) !! o = Some d ->
            0 < d).
  { intros o d. unfold bump. destruct (decide (owner = o)) as [->|Hne].
    - rewrite lookup_insert_eq. intros [= <-].
      destruct (admin_updates st !! o) as [d0|] eqn:E; simpl; [| lia].
      specialize (H o d0 E). lia.
    - rewrite lookup_insert_ne by assumption. apply H. }
  destruct (add_to_last _ _ (logs st)); exact Hb.
Qed.

Lemma set_current_usage_same a : set_current_usage (Resellers.current_usage a) a = a.
Proof. now destruct a. Qed.

(** The task adds to the [current_usage] of every admin what its
    listed subscriptions had used beyond their logs, and nothing else:
    usage that is already logged is not billed again. *)
Theorem usage_log_bills_owner subs_info table logs admins current_hour :
  r_admins (upsert_subscription_usage subs_info table logs admins current_hour)
  = map (fun a =>
           set_current_usage
             (Resellers.current_usage a
              + billed subs_info table logs (Admin.id (Resellers.admin a))) a) admins.
Proof.
  rewrite upsert_unfold. cbv zeta. cbn [r_admins]. apply map_ext. intros a.
  { pose proof (record_subs_bill (total_usages table) (all_logged_usages logs) current_hour
                  subs_info (mkLoop logs [] ∅ ∅) (Admin.id (Resellers.admin a))) as Hb.
    pose proof (record_subs_positive (total_usages table) (all_logged_usages logs)
                  current_hour subs_info (mkLoop logs [] ∅ ∅)) as Hp.
    cbv zeta in Hb. cbn [admin_updates] in Hb, Hp. rewrite lookup_empty in Hb.
    cbn [default] in Hb. rewrite Z.add_0_l in Hb.
    assert (Hbill : billed subs_info table logs (Admin.id (Resellers.admin a))
                    = foldr (fun info acc =>
                               let '(sub_id, owner, _) := info in
                               if owner =? Admin.id (Resellers.admin a)
                               then due (total_usages table) (all_logged_usages logs) sub_id
                                    + acc
                               else acc) 0 subs_info).
    { unfold billed, due. reflexivity. }
    rewrite Hbill, <- Hb. clear Hb Hbill.
    destruct (admin_updates _ !! Admin.id (Resellers.admin a)) as [delta|] eqn:E.
    + specialize (Hp ltac:(intros o d; rewrite lookup_empty; discriminate) _ _ E).
      destruct (Z.ltb_spec 0 delta); [| lia]. cbn [default]. reflexivity.
    + cbn [default]. rewrite Z.add_0_r. symmetry. apply set_current_usage_same. }
Qed.
End HourlyLog.

Lemma usage_log_catches_up_witness :
  let subs_info := [(7, 1, Some "owner")] in
  let logs := [UsageRecord.mkLog (Some 1) 7 200 Scenario.bucket] in
  let r := UsageRecord.upsert_subscription_usage subs_info [Scenario.row 500 1000] logs []
             Scenario.bucket in
  (7 ∈ map (fun info => fst (fst info)) subs_info ->
   UsageRecord.all_logged_usages (UsageRecord.flushed r) 7
   = Z.max (UsageRecord.all_logged_usages logs 7)
       (UsageRecord.total_usages [Scenario.row 500 1000] 7))
  /\ ((7 ∉ map (fun info => fst (fst info)) subs_info) ->
      UsageRecord.all_logged_usages (UsageRecord.flushed r) 7
      = UsageRecord.all_logged_usages logs 7).
Proof.
  intros subs_info logs.
  apply (usage_log_catches_up subs_info [Scenario.row 500 1000] logs [] Scenario.bucket 7).
  distinct_ids.
Defined.

Lemma usage_log_second_run_witness :
  let subs_info := [(7, 1, Some "owner")] in
  let logs := [UsageRecord.mkLog (Some 1) 7 200 Scenario.bucket] in
  let r := UsageRecord.upsert_subscription_usage subs_info [Scenario.row 500 1000] logs []
             Scenario.bucket in
  UsageRecord.upsert_subscription_usage subs_info [Scenario.row 500 1000]
    (UsageRecord.flushed r) (UsageRecord.r_admins r) (Scenario.bucket + UsageRecord.one_hour)
  = UsageRecord.mkRecorded (UsageRecord.flushed r) [] (UsageRecord.r_admins r) ∅.
Proof.
  intros subs_info logs.
  apply (usage_log_second_run subs_info [Scenario.row 500 1000] logs [] Scenario.bucket
           (Scenario.bucket + UsageRecord.one_hour)).
  distinct_ids.
Defined.

(** ** Where the links of a bundle come from *)

Section BundleProvenance.
Import LinkGeneration.
Context (LINKS : gmap Z (list string))
        (_replace_link_credentials : string -> Subscription.t -> Node.t -> option string)
        (_generate_placeholder_links : Subscription.t -> list string)
        (shuffle : nat -> list string -> list string).

Lemma slice_from_elem {A} (k : Z) (l : list A) x : x ∈ slice_from k l -> x ∈ l.
Proof. unfold slice_from. destruct (0 <=? k); apply subseteq_drop. Qed.

(** [random.shuffle] reorders a list.  Every link [generate] returns is
    then a placeholder link or the rewrite, not empty, of a link cached
    for a node of the subscription that is enabled, not removed and
    shown, and the subscription is active: no link of a hidden,
    disabled or foreign node is handed out. *)
Theorem bundle_provenance sub now_ts fuel res link :
  (forall i l, shuffle i l ≡ₚ l) ->
  generate LINKS _replace_link_credentials _generate_placeholder_links shuffle
    fuel sub now_ts = Some res ->
  link ∈ res ->
  link ∈ _generate_placeholder_links sub
  \/ (Subscription.is_active sub now_ts = true
      /\ exists node cached cached_link,
           node ∈ Subscription.nodes sub
           /\ Node.availabled node = true /\ Node.show_configs node = true
           /\ LINKS !! Node.id node = Some cached /\ cached_link ∈ cached
           /\ _replace_link_credentials cached_link sub node = Some link
           /\ link <> "").
Proof.
  intros Hshuffle. unfold generate.
  destruct (Subscription.is_active sub now_ts) eqn:Hact.
  - destruct (interleave fuel _ _ [] 0) as [links|] eqn:Hl; [| discriminate].
    intros [= <-] [Hin|Hin]%elem_of_app; [now left |]. right. split; [reflexivity |].
    apply interleave_spec in Hl as (extra & -> & Hsub & _).
    rewrite app_nil_l in Hin. pose proof (elem_of_submseteq _ _ _ Hin Hsub) as Hall.
    unfold all_links in Hall.
    apply list_elem_of_In, in_concat in Hall as (node_links & Hnl & Hlink).
    apply in_map_iff in Hnl as ([node nl] & <- & He). cbn [snd] in Hlink.
    apply list_elem_of_In in He. unfold node_links_map in He.
    apply elem_of_lookup_imap_1 in He as (i & node' & [= <- ->] & Hnode).
    apply list_elem_of_In in Hlink. rewrite Hshuffle in Hlink.
    apply slice_from_elem in Hlink. unfold _get_node_links in Hlink.
    destruct (LINKS !! Node.id node) as [cached|] eqn:Hc;
      [| now apply elem_of_nil in Hlink].
    apply list_elem_of_omap in Hlink as (cached_link & Hcl & Hrw).
    destruct (_replace_link_credentials cached_link sub node) as [modified|] eqn:Hm;
      [| discriminate].
    destruct (String.eqb_spec modified ""); [discriminate |]. injection Hrw as ->.
    apply list_elem_of_lookup_2 in Hnode. pose proof (active_nodes_elem _ _ Hnode) as Hn.
    unfold active_nodes in Hnode. apply list_elem_of_In, filter_In in Hnode as [_ Hf].
    apply andb_true_iff in Hf as [Ha Hs].
    exists node, cached, cached_link. repeat split; auto.
  - intros [= <-] Hin. left. now rewrite app_nil_r in Hin.
Qed.
End BundleProvenance.

Lemma bundle_provenance_witness :
  let sub := Scenario.sub_links Scenario.owner_capped in
  "a2" ∈ Scenario.one_placeholder sub
  \/ (Subscription.is_active sub Scenario.now_ts = true
      /\ exists node cached cached_link,
           node ∈ Subscription.nodes sub
           /\ Node.availabled node = true /\ Node.show_configs node = true
           /\ Scenario.links_cache !! Node.id node = Some cached /\ cached_link ∈ cached
           /\ Scenario.keep_link cached_link sub node = Some "a2"
           /\ "a2" <> "").
Proof.
  intros sub.
  apply (bundle_provenance Scenario.links_cache Scenario.keep_link Scenario.one_placeholder
           Scenario.no_shuffle sub Scenario.now_ts 5 ["info"; "b1"; "b2"; "a1"; "a2"] "a2").
  - intros i l. reflexivity.
  - vm_compute. reflexivity.
  - do 4 (apply elem_of_cons; right). apply list_elem_of_here.
Defined.

(** ** The count the renewal batch returns *)

Section BatchCount.
Import ReachedTracker.

Lemma batch_count_rows db now_utc now_ts :
  snd (_process_auto_renewals_batch db now_utc now_ts)
  = Z.of_nat (length (candidates_query db now_ts)).
Proof.
  unfold _process_auto_renewals_batch.
  destruct (candidates_query db now_ts); [reflexivity |].
  cbn [snd]. now rewrite length_map.
Qed.

Lemma joined_ids_NoDup db now_ts subs :
  NoDup (map Subscription.id subs) ->
  NoDup (map SubscriptionAutoRenewal.id (subscription_auto_renewals db)) ->
  NoDup (map renewal_id
           (flat_map (fun s => match joined db now_ts s with
                               | Some r => [row_of s r]
                               | None => []
                               end) subs)).
Proof.
  intros Hsubs Hren. induction subs as [|s l IH]; cbn [flat_map map]; [constructor |].
  cbn [map] in Hsubs. apply NoDup_cons in Hsubs as [Hs Hl]. specialize (IH Hl).
  destruct (joined db now_ts s) as [r|] eqn:Hj; [| exact IH].
  cbn [app map row_of renewal_id]. apply NoDup_cons. split; [| exact IH].
  intros Hin. apply list_elem_of_In, in_map_iff in Hin as (row & Hid & Hrow).
  apply in_flat_map in Hrow as (s' & Hs' & Hrow).
  destruct (joined db now_ts s') as [r'|] eqn:Hj'; [| contradiction].
  destruct Hrow as [<-|[]]. cbn [renewal_id row_of] in Hid.
  apply joined_some in Hj as [_ (Hr & Hsid & _)].
  apply joined_some in Hj' as [_ (Hr' & Hsid' & _)].
  assert (r' = r) as -> by (eapply NoDup_map_eq; eauto).
  apply Hs. rewrite <- Hsid, Hsid'. apply list_elem_of_In, in_map.
  exact Hs'.
Qed.

Lemma filter_ids_length {A} (f : A -> Z) (l : list A) (ids : list Z) :
  NoDup (map f l) -> NoDup ids -> (forall i, i ∈ ids -> i ∈ map f l) ->
  length (filter (fun x => f x ∈ ids) l) = length ids.
Proof.
  intros Hl Hids Hsub.
  rewrite <- (length_map f (filter _ l)). apply Permutation_length.
  apply NoDup_Permutation.
  - clear Hsub. induction l as [|x l IH]; [constructor |].
    cbn [map] in Hl. apply NoDup_cons in Hl as [Hx Hl].
    rewrite filter_cons. destruct (decide (f x ∈ ids)); [| now apply IH].
    cbn [map]. apply NoDup_cons. split; [| now apply IH].
    intros Hin. apply Hx. apply list_elem_of_In, in_map_iff in Hin as (y & Hy & Hin).
    apply list_elem_of_In, list_elem_of_filter in Hin as [_ Hin].
    rewrite <- Hy. apply list_elem_of_In, in_map. now apply list_elem_of_In.
  - exact Hids.
  - intros i. split.
    + intros Hin. apply list_elem_of_In, in_map_iff in Hin as (y & <- & Hin).
      now apply list_elem_of_In, list_elem_of_filter in Hin as [Hin _].
    + intros Hi. pose proof (Hsub i Hi) as Hin.
      apply list_elem_of_In, in_map_iff in Hin as (y & <- & Hin).
      apply list_elem_of_In, in_map. apply list_elem_of_In, list_elem_of_filter.
      split; [exact Hi | now apply list_elem_of_In].
Qed.

Lemma joined_is_candidate db now_ts s :
  NoDup (map SubscriptionAutoRenewal.id (subscription_auto_renewals db)) ->
  (exists r, joined db now_ts s = Some r) <->
  reached_and_over now_ts s = true
  /\ exists r0, r0 ∈ subscription_auto_renewals db
                /\ SubscriptionAutoRenewal.subscription_id r0 = Subscription.id s.
Proof.
  intros Hren. split.
  - intros [r Hj]. apply joined_some in Hj as [Hq (Hr & Hsid & _)]. eauto.
  - intros [Hq Hex].
    destruct (first_in_queue_exists (subscription_auto_renewals db) s (subscriptions db) Hex)
      as [r Hf].
    exists r. apply joined_first; auto.
Qed.

(** With unique ids, the count [_process_auto_renewals_batch] returns
    is the number of renewals it takes off the queue, and the number of
    subscriptions that are marked reached, over a limit and not removed
    and have a renewal queued. *)
Theorem batch_count_is_renewals_consumed db now_utc now_ts :
  NoDup (map Subscription.id (subscriptions db)) ->
  NoDup (map SubscriptionAutoRenewal.id (subscription_auto_renewals db)) ->
  let res := _process_auto_renewals_batch db now_utc now_ts in
  snd res = Z.of_nat (length (subscription_auto_renewals db))
            - Z.of_nat (length (subscription_auto_renewals (fst res)))
  /\ snd res
     = Z.of_nat (length (List.filter
         (fun s => reached_and_over now_ts s
                   && existsb (fun r => SubscriptionAutoRenewal.subscription_id r
                                        =? Subscription.id s)
                        (subscription_auto_renewals db))
         (subscriptions db))).
Proof.
  intros Hsubs Hren res. unfold res. rewrite batch_count_rows, batch_db.
  cbn [fst subscription_auto_renewals]. rewrite candidates_by_sub by assumption.
  set (rows := flat_map _ (subscriptions db)).
  assert (Hids : NoDup (map renewal_id rows)) by now apply joined_ids_NoDup.
  assert (Hin : forall i, i ∈ map renewal_id rows ->
                  i ∈ map SubscriptionAutoRenewal.id (subscription_auto_renewals db)).
  { intros i Hi. apply list_elem_of_In, in_map_iff in Hi as (row & <- & Hrow).
    apply in_flat_map in Hrow as (s & Hs & Hrow).
    destruct (joined db now_ts s) as [r|] eqn:Hj; [| contradiction].
    destruct Hrow as [<-|[]]. apply joined_some in Hj as [_ (Hr & _)].
    cbn [renewal_id row_of]. apply list_elem_of_In, in_map. now apply list_elem_of_In. }
  split.
  - pose proof (filter_ids_length SubscriptionAutoRenewal.id _ _ Hren Hids Hin) as Hlen.
    pose proof (filter_app_complement
                  (fun r => SubscriptionAutoRenewal.id r ∈ map renewal_id rows)
                  (subscription_auto_renewals db)) as Hperm.
    apply Permutation_length in Hperm. rewrite length_app, Hlen, length_map in Hperm.
    lia.
  - f_equal. unfold rows. clear -Hren.
    induction (subscriptions db) as [|s l IH]; cbn [flat_map List.filter]; [reflexivity |].
    rewrite length_app, IH. clear IH.
    pose proof (joined_is_candidate db now_ts s Hren) as Hc.
    destruct (joined db now_ts s) as [r|].
    + destruct Hc as [Hc _]. destruct (Hc (ex_intro _ r eq_refl)) as [Hq (r0 & Hr0 & Hs0)].
      rewrite Hq. cbn [andb].
      replace (existsb _ _) with true; [reflexivity |].
      symmetry. apply existsb_exists. exists r0.
      split; [now apply list_elem_of_In | now apply Z.eqb_eq].
    + destruct (reached_and_over now_ts s && existsb _ _) eqn:E; [| reflexivity].
      exfalso. apply andb_true_iff in E as [Hq He].
      apply existsb_exists in He as (r0 & Hr0 & Hs0).
      destruct Hc as [_ Hc]. destruct Hc as [r Hr]; [| discriminate].
      split; [exact Hq |]. exists r0.
      split; [now apply list_elem_of_In | now apply Z.eqb_eq].
Qed.
End BatchCount.

Lemma batch_count_is_renewals_consumed_witness :
  let res := ReachedTracker._process_auto_renewals_batch Scenario.db_S2 Scenario.now
               Scenario.now_ts in
  snd res
  = Z.of_nat (length (ReachedTracker.subscription_auto_renewals Scenario.db_S2))
    - Z.of_nat (length (ReachedTracker.subscription_auto_renewals (fst res)))
  /\ snd res
     = Z.of_nat (length (List.filter
         (fun s => ReachedTracker.reached_and_over Scenario.now_ts s
                   && existsb (fun r => SubscriptionAutoRenewal.subscription_id r
                                        =? Subscription.id s)
                        (ReachedTracker.subscription_auto_renewals Scenario.db_S2))
         (ReachedTracker.subscriptions Scenario.db_S2))).
Proof.
  apply (batch_count_is_renewals_consumed Scenario.db_S2 Scenario.now Scenario.now_ts);
    distinct_ids.
Defined.

(** ** A usage reset and the next tick *)

Section ResetThenTick.
Import ReachedTick.
Context (expire_warning_condition usage_warning_condition : Sub -> bool).

Lemma reset_usages_not_limited sub now :
  ReachedTracker._limited_expr (Store.reset_usages sub now) = false.
Proof.
  unfold ReachedTracker._limited_expr, Store.reset_usages. destruct sub. simpl.
  apply andb_false_iff.
  destruct (Z.ltb_spec 0 (default 0 limit_usage)); [right | now left].
  apply Z.ltb_ge. lia.
Qed.

Lemma unreach_keeps_removed now_ts s :
  Subscription.removed (row (unreach now_ts s)) = Subscription.removed (row s).
Proof. unfold unreach. destruct s as [[] ? ? ?]. cbn [row]. now destruct (_ && _). Qed.

(** A subscription whose usage was just reset and whose expiry has not
    passed leaves the next tick of the reached tracker without the
    [reached] flag, whatever the flag was, and is not deleted by it. *)
Theorem reset_then_tick_unreaches db now_utc now_ts i s sub reset_at :
  NoDup (map (fun s => Subscription.id (row s)) (subscriptions db)) ->
  NoDup (map SubscriptionAutoRenewal.id (subscription_auto_renewals db)) ->
  subscriptions db !! i = Some s ->
  row s = Store.reset_usages sub reset_at ->
  Subscription.removed (row s) = false ->
  Subscription.expired_expression (row s) now_ts = false ->
  exists s',
    subscriptions (fst (track_subscriptions_reacheds expire_warning_condition
                          usage_warning_condition db now_utc now_ts)) !! i = Some s'
    /\ Subscription.reached (row s') = false
    /\ Subscription.removed (row s') = false
    /\ over now_ts s' = false.
Proof.
  intros Hsubs Hren Hi Hrow Hrm Hexp.
  rewrite tick_rows by assumption. rewrite list_lookup_fmap, Hi.
  eexists. split; [reflexivity |]. unfold tick_row.
  assert (Hover : over now_ts s = false).
  { unfold over. rewrite Hrow, reset_usages_not_limited. rewrite <- Hrow. exact Hexp. }
  destruct (reach_warned_spec expire_warning_condition usage_warning_condition
              now_utc now_ts s) as (_ & _ & _ & _ & Hr & Ho & _ & _ & _ & _).
  set (x := reach now_utc now_ts
              (warned expire_warning_condition usage_warning_condition s)) in *.
  rewrite Hover in Ho. rewrite Hrm in Hr.
  assert (Ej : renew (subscription_auto_renewals db) now_utc now_ts x = x).
  { unfold renew. rewrite joined_none; [reflexivity |]. left.
    unfold ReachedTracker.reached_and_over. unfold over in Ho. rewrite Ho.
    apply andb_false_r. }
  rewrite Ej.
  assert (Hy : Subscription.reached (row (unreach now_ts x)) = false
               /\ over now_ts (unreach now_ts x) = false).
  { destruct (unreach_cases now_ts x) as [[-> Hz]|[? ?]]; [| auto].
    split; [| exact Ho].
    destruct (Subscription.reached (row x)) eqn:E; [| reflexivity].
    specialize (Hz Hr eq_refl). congruence. }
  destruct Hy as [Hry Hoy].
  rewrite auto_delete_not_reached by exact Hry.
  rewrite unreach_keeps_removed. auto.
Qed.
End ResetThenTick.

Lemma reset_then_tick_unreaches_witness :
  let s := ReachedTick.mkSub (Store.reset_usages Scenario.sub_old Scenario.now) (Some "old")
             (Some 1) None in
  let db := ReachedTick.mkDB [s] [] in
  exists s',
    ReachedTick.subscriptions
      (fst (ReachedTick.track_subscriptions_reacheds TickScenario.no_warning
              TickScenario.no_warning db Scenario.now Scenario.now_ts)) !! 0%nat = Some s'
    /\ Subscription.reached (ReachedTick.row s') = false
    /\ Subscription.removed (ReachedTick.row s') = false
    /\ ReachedTick.over Scenario.now_ts s' = false.
Proof.
  intros s db.
  apply (reset_then_tick_unreaches TickScenario.no_warning TickScenario.no_warning db
           Scenario.now Scenario.now_ts 0 s Scenario.sub_old Scenario.now).
  - distinct_ids.
  - distinct_ids.
  - reflexivity.
  - reflexivity.
  - reflexivity.
  - reflexivity.
Defined.

(** ** The time left, in words *)

Section TimeLeft.
Import FormatUtils.

(** For an expiry that passed less than a day ago [time_convert] drops
    the negative day count and prints the rest of the day: the text is
    the one of an expiry a day later.  At the very second of the expiry
    the text is empty. *)
Theorem time_convert_after_expiry expire now_ts :
  0 < expire -> now_ts - 86400 < expire <= now_ts ->
  time_convert expire now_ts
  = (if expire =? now_ts then "" else time_convert (expire + 86400) now_ts).
Proof.
  intros Hpos Hr. unfold time_convert.
  destruct (Z.eqb_spec expire 0); [lia |].
  destruct (Z.eqb_spec (expire + 86400) 0); [lia |].
  destruct (Z.ltb_spec expire 0); [lia |].
  destruct (Z.ltb_spec (expire + 86400) 0); [lia |].
  destruct (Z.eqb_spec expire now_ts) as [->|Hne].
  - rewrite Z.sub_diag. reflexivity.
  - assert (Hd : (expire - now_ts) / 86400 = -1)
      by (symmetry; apply (Z.div_unique _ _ _ (expire - now_ts + 86400)); lia).
    assert (Hm : (expire - now_ts) mod 86400 = expire - now_ts + 86400)
      by (symmetry; apply (Z.mod_unique _ _ (-1)); lia).
    assert (Hd' : (expire + 86400 - now_ts) / 86400 = 0)
      by (apply Z.div_small; lia).
    assert (Hm' : (expire + 86400 - now_ts) mod 86400 = expire - now_ts + 86400)
      by (rewrite Z.mod_small; lia).
    cbv zeta. rewrite Hd, Hm, Hd', Hm'. reflexivity.
Qed.
End TimeLeft.

Lemma time_convert_after_expiry_witness :
  FormatUtils.time_convert 1700000119 Scenario.now_ts
  = (if 1700000119 =? Scenario.now_ts then ""
     else FormatUtils.time_convert (1700000119 + 86400) Scenario.now_ts).
Proof.
  apply time_convert_after_expiry; [lia | unfold Scenario.now_ts; lia].
Defined.

Example time_convert_one_second_late :
  FormatUtils.time_convert 1700000119 Scenario.now_ts = "23 h, 59 min".
Proof. vm_compute. reflexivity. Qed.
